(** * Vigilante: the character simulation core (Source/character/Character.cc)

    A shallow embedding of [vigilante::Character] and of the objects it
    reaches through pointers, followed by the properties of its combat,
    inventory, animation, movement and fixture code.

    Conventions of the embedding.
    - A C++ [int] is a [Z] kept in the 32-bit two's-complement range by
      [Int32.wrap]; every [+=], [-=], [++] of the source goes through it.
    - A C++ [float] is a primitive float holding a binary32 value.  The
      modelled code compares floats, negates them and doubles them, which
      agrees on binary32 and binary64 for finite inputs below the binary32
      overflow threshold; it adds them with [float_add], the binary32
      addition.  Float literals of the source are written with their
      binary32 value.
    - A pointer is an address ([nat]); [option ptr] is a nullable pointer.
      Objects live in the stores of a [World]; a dereference of a null or
      dangling pointer, and a failed [assert], have no result ([None]).
    - Calls into the external collaborators (timer, audio, HUD, effects,
      renderer, physics) are recorded: scheduled callbacks in [callbacks],
      one-way notifications in [events], the sprite's running action in
      [spriteAction], impulses handed to the rigid body in [impulses]. *)

From Stdlib Require Import ZArith Lia Floats.
From stdpp Require Import gmap strings list fin_maps functions.

Local Open Scope Z_scope.

#[local] Set Warnings "-clear-no-such-hyp".

(** ** Machine integers *)

Module Int32.
Definition min_int : Z := - 2 ^ 31.
Definition max_int : Z := 2 ^ 31 - 1.

(** Two's-complement reduction of a mathematical integer to [int]. *)
Definition wrap (z : Z) : Z := (z + 2 ^ 31) mod 2 ^ 32 - 2 ^ 31.

Definition add (a b : Z) : Z := wrap (a + b).
Definition sub (a b : Z) : Z := wrap (a - b).

(** [a % b] of C++ truncates toward zero. *)
Definition rem (a b : Z) : Z := Z.rem a b.

Definition in_range (z : Z) : Prop := min_int ≤ z ≤ max_int.
End Int32.

#[global] Arguments Int32.wrap : simpl never.
#[global] Arguments Int32.add : simpl never.
#[global] Arguments Int32.sub : simpl never.
#[global] Arguments Int32.rem : simpl never.

(** ** Machine floats *)

(** [x + y] on [float]: the exact sum rounded to the nearest binary32 number
    (24 bits of precision, ties to even), overflowing to an infinity. *)
Definition float_add (x y : float) : float :=
  SF2Prim (SpecFloat.SFadd 24 128 (Prim2SF x) (Prim2SF y)).

(** ** Enumerations *)

Abbreviation ptr := nat (only parsing).

(** [Character::State]; [STATE_SIZE] is the array bound, not a state. *)
Inductive State : Set :=
  | IDLE
  | RUNNING_START
  | RUNNING
  | RUNNING_STOP
  | JUMPING
  | FALLING
  | FALLING_GETUP
  | CROUCHING
  | DODGING_BACKWARD
  | DODGING_FORWARD
  | ATTACKING
  | ATTACKING_UNARMED
  | ATTACKING_CROUCH
  | ATTACKING_FORWARD
  | ATTACKING_MIDAIR
  | ATTACKING_MIDAIR_DOWNWARD
  | ATTACKING_UPWARD
  | SPELLCAST
  | KILLED
  | FORCE_UPDATE.

#[global] Instance State_eq_dec : EqDecision State.
Proof. solve_decision. Defined.

Inductive FixtureType : Set := BODY | FEET | WEAPON.

#[global] Instance FixtureType_eq_dec : EqDecision FixtureType.
Proof. solve_decision. Defined.

(** The [Character::Sfx] kinds this file plays. *)
Inductive Sfx : Set := SFX_HURT | SFX_JUMP | SFX_KILLED.

(** [Item::Type] and [Equipment::Type] are enumerations declared outside
    this file; they only index arrays here, so they are kept as their
    integral values.  [Equipment::Type::WEAPON] is the one enumerator the
    source names. *)
Abbreviation ItemType := nat (only parsing).
Abbreviation EquipmentType := nat (only parsing).
Definition EQUIPMENT_WEAPON : EquipmentType := 0%nat.

(** ** Physics objects (the rigid-body collaborator) *)

Definition b2Vec2 : Set := float * float.

(** The geometry of a fixture is computed from the profile's body
    dimensions, which never change; what is recorded is which shape was
    built and the flags its vertices depend on. *)
Inductive Shape : Set :=
  | BodyPolygon (crouching : bool)
  | FeetCircle
  | WeaponPolygon (facingRight crouching : bool).

Record Fixture := mkFixture {
  shape : Shape;
  categoryBits : Z;
  maskBits : Z;
  isSensor : bool;
  hasDensity : bool;
  userData : ptr
}.

(** A [b2Body]: the fixtures attached to it (by address), its velocity as
    last reported by the physics step, and the impulses handed to it. *)
Record Body := mkBody {
  fixtureList : gmap ptr Fixture;
  nextFixture : ptr;
  linearVelocity : b2Vec2;
  impulses : list b2Vec2
}.

(** ** Items *)

Record ItemProfile := mkItemProfile {
  jsonFileName : string;
  itemType : ItemType
}.

Record EquipmentProfile := mkEquipmentProfile {
  equipmentType : EquipmentType;
  bonusPhysicalDamage : Z
}.

Record ConsumableProfile := mkConsumableProfile {
  restoreHealth : Z;
  restoreMagicka : Z;
  restoreStamina : Z;
  consumableBonusPhysicalDamage : Z;
  bonusStr : Z;
  bonusDex : Z;
  bonusInt : Z;
  bonusLuk : Z;
  bonusMoveSpeed : float;
  bonusJumpHeight : float
}.

(** The dynamic type of an [Item] object. *)
Inductive ItemKind :=
  | MiscItem
  | EquipmentItem (ep : EquipmentProfile)
  | ConsumableItem (cp : ConsumableProfile).

Record Item := mkItem {
  itemProfile : ItemProfile;
  itemKind : ItemKind;
  amount : Z
}.

Definition setAmount (n : Z) (i : Item) : Item :=
  {| itemProfile := itemProfile i; itemKind := itemKind i; amount := n |}.

(** ** The character *)

Record Profile := mkProfile {
  level : Z;
  exp : Z;
  fullHealth : Z;
  fullStamina : Z;
  fullMagicka : Z;
  health : Z;
  stamina : Z;
  magicka : Z;
  strength : Z;
  dexterity : Z;
  intelligence : Z;
  luck : Z;
  moveSpeed : float;
  jumpHeight : float;
  baseMeleeDamage : Z;
  sfxFileNames : Sfx → string
}.

Record Flags := mkFlags {
  f_isFacingRight : bool;
  f_isStartRunning : bool;
  f_isStopRunning : bool;
  f_isJumping : bool;
  f_isCrouching : bool;
  f_isGettingUpFromFalling : bool;
  f_isAttacking : bool;
  f_isDodgingBackward : bool;
  f_isDodgingForward : bool;
  f_isInvincible : bool;
  f_isTakingDamage : bool;
  f_isAlerted : bool;
  f_isKilled : bool;
  f_isSetToKill : bool
}.

(** What [getAllies] reads of a [Party]. *)
Record Party := mkParty {
  getLeader : ptr;
  getMembers : list ptr
}.

(** The animation a sprite action plays: a per-state body animation or one
    of the extra attack animations. *)
Inductive Animation : Set :=
  | BodyAnimation (s : State)
  | BodyExtraAttackAnimation (i : Z).

Record Sprite := mkSprite {
  attackAnimationIdx : Z;
  kAttackAnimationIdxMax : Z;
  bodyAnimationDuration : State → float;
  spriteAction : option (Animation * bool)
}.

Record Targets := mkTargets {
  lockedOnTarget : option ptr;
  inRangeTargets : gset ptr;
  party : option Party
}.

Record Bag := mkBag {
  inventory : ItemType → gset ptr;
  itemMapper : gmap string ptr;
  equipmentSlots : EquipmentType → option ptr
}.

Record Physics := mkPhysics {
  body : option Body;
  fixtures : FixtureType → option ptr
}.

Record Character := mkCharacter {
  characterProfile : Profile;
  flags : Flags;
  overridingAttackState : option State;
  sprite : Sprite;
  physics : Physics;
  targets : Targets;
  bag : Bag
}.

(** ** Field updates

    [set_x v r] is the record [r] after the assignment [x = v];
    [upd_x f c] applies [f] to the component [x] of a character. *)

Definition set_level (x : Z) (r : Profile) : Profile :=
  {| level := x; exp := exp r; fullHealth := fullHealth r;
     fullStamina := fullStamina r; fullMagicka := fullMagicka r;
     health := health r; stamina := stamina r; magicka := magicka r;
     strength := strength r; dexterity := dexterity r;
     intelligence := intelligence r; luck := luck r;
     moveSpeed := moveSpeed r; jumpHeight := jumpHeight r;
     baseMeleeDamage := baseMeleeDamage r; sfxFileNames := sfxFileNames r |}.

Definition set_exp (x : Z) (r : Profile) : Profile :=
  {| level := level r; exp := x; fullHealth := fullHealth r;
     fullStamina := fullStamina r; fullMagicka := fullMagicka r;
     health := health r; stamina := stamina r; magicka := magicka r;
     strength := strength r; dexterity := dexterity r;
     intelligence := intelligence r; luck := luck r;
     moveSpeed := moveSpeed r; jumpHeight := jumpHeight r;
     baseMeleeDamage := baseMeleeDamage r; sfxFileNames := sfxFileNames r |}.

Definition set_health (x : Z) (r : Profile) : Profile :=
  {| level := level r; exp := exp r; fullHealth := fullHealth r;
     fullStamina := fullStamina r; fullMagicka := fullMagicka r; health := x;
     stamina := stamina r; magicka := magicka r; strength := strength r;
     dexterity := dexterity r; intelligence := intelligence r;
     luck := luck r; moveSpeed := moveSpeed r; jumpHeight := jumpHeight r;
     baseMeleeDamage := baseMeleeDamage r; sfxFileNames := sfxFileNames r |}.

Definition set_stamina (x : Z) (r : Profile) : Profile :=
  {| level := level r; exp := exp r; fullHealth := fullHealth r;
     fullStamina := fullStamina r; fullMagicka := fullMagicka r;
     health := health r; stamina := x; magicka := magicka r;
     strength := strength r; dexterity := dexterity r;
     intelligence := intelligence r; luck := luck r;
     moveSpeed := moveSpeed r; jumpHeight := jumpHeight r;
     baseMeleeDamage := baseMeleeDamage r; sfxFileNames := sfxFileNames r |}.

Definition set_magicka (x : Z) (r : Profile) : Profile :=
  {| level := level r; exp := exp r; fullHealth := fullHealth r;
     fullStamina := fullStamina r; fullMagicka := fullMagicka r;
     health := health r; stamina := stamina r; magicka := x;
     strength := strength r; dexterity := dexterity r;
     intelligence := intelligence r; luck := luck r;
     moveSpeed := moveSpeed r; jumpHeight := jumpHeight r;
     baseMeleeDamage := baseMeleeDamage r; sfxFileNames := sfxFileNames r |}.

Definition set_f_isFacingRight (x : bool) (r : Flags) : Flags :=
  {| f_isFacingRight := x; f_isStartRunning := f_isStartRunning r;
     f_isStopRunning := f_isStopRunning r; f_isJumping := f_isJumping r;
     f_isCrouching := f_isCrouching r;
     f_isGettingUpFromFalling := f_isGettingUpFromFalling r;
     f_isAttacking := f_isAttacking r;
     f_isDodgingBackward := f_isDodgingBackward r;
     f_isDodgingForward := f_isDodgingForward r;
     f_isInvincible := f_isInvincible r;
     f_isTakingDamage := f_isTakingDamage r; f_isAlerted := f_isAlerted r;
     f_isKilled := f_isKilled r; f_isSetToKill := f_isSetToKill r |}.

Definition set_f_isStartRunning (x : bool) (r : Flags) : Flags :=
  {| f_isFacingRight := f_isFacingRight r; f_isStartRunning := x;
     f_isStopRunning := f_isStopRunning r; f_isJumping := f_isJumping r;
     f_isCrouching := f_isCrouching r;
     f_isGettingUpFromFalling := f_isGettingUpFromFalling r;
     f_isAttacking := f_isAttacking r;
     f_isDodgingBackward := f_isDodgingBackward r;
     f_isDodgingForward := f_isDodgingForward r;
     f_isInvincible := f_isInvincible r;
     f_isTakingDamage := f_isTakingDamage r; f_isAlerted := f_isAlerted r;
     f_isKilled := f_isKilled r; f_isSetToKill := f_isSetToKill r |}.

Definition set_f_isTakingDamage (x : bool) (r : Flags) : Flags :=
  {| f_isFacingRight := f_isFacingRight r;
     f_isStartRunning := f_isStartRunning r;
     f_isStopRunning := f_isStopRunning r; f_isJumping := f_isJumping r;
     f_isCrouching := f_isCrouching r;
     f_isGettingUpFromFalling := f_isGettingUpFromFalling r;
     f_isAttacking := f_isAttacking r;
     f_isDodgingBackward := f_isDodgingBackward r;
     f_isDodgingForward := f_isDodgingForward r;
     f_isInvincible := f_isInvincible r; f_isTakingDamage := x;
     f_isAlerted := f_isAlerted r; f_isKilled := f_isKilled r;
     f_isSetToKill := f_isSetToKill r |}.

Definition set_f_isAlerted (x : bool) (r : Flags) : Flags :=
  {| f_isFacingRight := f_isFacingRight r;
     f_isStartRunning := f_isStartRunning r;
     f_isStopRunning := f_isStopRunning r; f_isJumping := f_isJumping r;
     f_isCrouching := f_isCrouching r;
     f_isGettingUpFromFalling := f_isGettingUpFromFalling r;
     f_isAttacking := f_isAttacking r;
     f_isDodgingBackward := f_isDodgingBackward r;
     f_isDodgingForward := f_isDodgingForward r;
     f_isInvincible := f_isInvincible r;
     f_isTakingDamage := f_isTakingDamage r; f_isAlerted := x;
     f_isKilled := f_isKilled r; f_isSetToKill := f_isSetToKill r |}.

Definition set_f_isSetToKill (x : bool) (r : Flags) : Flags :=
  {| f_isFacingRight := f_isFacingRight r;
     f_isStartRunning := f_isStartRunning r;
     f_isStopRunning := f_isStopRunning r; f_isJumping := f_isJumping r;
     f_isCrouching := f_isCrouching r;
     f_isGettingUpFromFalling := f_isGettingUpFromFalling r;
     f_isAttacking := f_isAttacking r;
     f_isDodgingBackward := f_isDodgingBackward r;
     f_isDodgingForward := f_isDodgingForward r;
     f_isInvincible := f_isInvincible r;
     f_isTakingDamage := f_isTakingDamage r; f_isAlerted := f_isAlerted r;
     f_isKilled := f_isKilled r; f_isSetToKill := x |}.

Definition set_attackAnimationIdx (x : Z) (r : Sprite) : Sprite :=
  {| attackAnimationIdx := x;
     kAttackAnimationIdxMax := kAttackAnimationIdxMax r;
     bodyAnimationDuration := bodyAnimationDuration r;
     spriteAction := spriteAction r |}.

Definition set_spriteAction (x : option (Animation * bool)) (r : Sprite) : Sprite :=
  {| attackAnimationIdx := attackAnimationIdx r;
     kAttackAnimationIdxMax := kAttackAnimationIdxMax r;
     bodyAnimationDuration := bodyAnimationDuration r; spriteAction := x |}.

Definition set_lockedOnTarget (x : option ptr) (r : Targets) : Targets :=
  {| lockedOnTarget := x; inRangeTargets := inRangeTargets r;
     party := party r |}.

Definition set_inRangeTargets (x : gset ptr) (r : Targets) : Targets :=
  {| lockedOnTarget := lockedOnTarget r; inRangeTargets := x;
     party := party r |}.

Definition set_inventory (x : ItemType → gset ptr) (r : Bag) : Bag :=
  {| inventory := x; itemMapper := itemMapper r;
     equipmentSlots := equipmentSlots r |}.

Definition set_itemMapper (x : gmap string ptr) (r : Bag) : Bag :=
  {| inventory := inventory r; itemMapper := x;
     equipmentSlots := equipmentSlots r |}.

Definition set_equipmentSlots (x : EquipmentType → option ptr) (r : Bag) : Bag :=
  {| inventory := inventory r; itemMapper := itemMapper r;
     equipmentSlots := x |}.

Definition set_body (x : option Body) (r : Physics) : Physics :=
  {| body := x; fixtures := fixtures r |}.

Definition set_fixtures (x : FixtureType → option ptr) (r : Physics) : Physics :=
  {| body := body r; fixtures := x |}.

Definition set_fixtureList (x : gmap ptr Fixture) (r : Body) : Body :=
  {| fixtureList := x; nextFixture := nextFixture r;
     linearVelocity := linearVelocity r; impulses := impulses r |}.

Definition set_nextFixture (x : ptr) (r : Body) : Body :=
  {| fixtureList := fixtureList r; nextFixture := x;
     linearVelocity := linearVelocity r; impulses := impulses r |}.

Definition set_impulses (x : list b2Vec2) (r : Body) : Body :=
  {| fixtureList := fixtureList r; nextFixture := nextFixture r;
     linearVelocity := linearVelocity r; impulses := x |}.

Definition upd_characterProfile (f : Profile → Profile) (r : Character) : Character :=
  {| characterProfile := f (characterProfile r); flags := flags r;
     overridingAttackState := overridingAttackState r; sprite := sprite r;
     physics := physics r; targets := targets r; bag := bag r |}.

Definition upd_flags (f : Flags → Flags) (r : Character) : Character :=
  {| characterProfile := characterProfile r; flags := f (flags r);
     overridingAttackState := overridingAttackState r; sprite := sprite r;
     physics := physics r; targets := targets r; bag := bag r |}.

Definition upd_sprite (f : Sprite → Sprite) (r : Character) : Character :=
  {| characterProfile := characterProfile r; flags := flags r;
     overridingAttackState := overridingAttackState r;
     sprite := f (sprite r); physics := physics r; targets := targets r;
     bag := bag r |}.

Definition upd_physics (f : Physics → Physics) (r : Character) : Character :=
  {| characterProfile := characterProfile r; flags := flags r;
     overridingAttackState := overridingAttackState r; sprite := sprite r;
     physics := f (physics r); targets := targets r; bag := bag r |}.

Definition upd_targets (f : Targets → Targets) (r : Character) : Character :=
  {| characterProfile := characterProfile r; flags := flags r;
     overridingAttackState := overridingAttackState r; sprite := sprite r;
     physics := physics r; targets := f (targets r); bag := bag r |}.

Definition upd_bag (f : Bag → Bag) (r : Character) : Character :=
  {| characterProfile := characterProfile r; flags := flags r;
     overridingAttackState := overridingAttackState r; sprite := sprite r;
     physics := physics r; targets := targets r; bag := f (bag r) |}.

(** ** The world: object stores and collaborator queues *)

(** The closures handed to [CallbackManager::runAfter]. *)
Inductive Callback : Set :=
  | ClearTakingDamage (c : ptr)
  | ClearStartRunning (c : ptr).

Inductive LogLevel : Set := LOG_ERR | LOG_WARN.

Inductive SfxFile : Set :=
  | SfxPath (fileName : string)
  | kSfxEquipUnequipItem.

Inductive Event : Set :=
  | VGLOG (lvl : LogLevel) (msg : string)
  | CreateHitFx (c : ptr)
  | ShowFloatingDamage (c : ptr) (damage : Z)
  | PlaySfx (f : SfxFile)
  | UpdateStatusBars.

Record World := mkWorld {
  characters : gmap ptr Character;
  items : gmap ptr Item;
  callbacks : list (Callback * float);
  events : list Event
}.

Definition set_characters (x : gmap ptr Character) (w : World) : World :=
  {| characters := x; items := items w; callbacks := callbacks w;
     events := events w |}.

Definition set_items (x : gmap ptr Item) (w : World) : World :=
  {| characters := characters w; items := x; callbacks := callbacks w;
     events := events w |}.

Definition set_callbacks (x : list (Callback * float)) (w : World) : World :=
  {| characters := characters w; items := items w; callbacks := x;
     events := events w |}.

Definition set_events (x : list Event) (w : World) : World :=
  {| characters := characters w; items := items w; callbacks := callbacks w;
     events := x |}.

(** A method call: it runs on the world and either has no result
    (undefined behaviour or abort) or returns a value and the new world. *)
Definition M (A : Type) : Type := World → option (A * World).

#[global] Instance M_ret : MRet M := λ A a w, Some (a, w).

#[global] Instance M_bind : MBind M := λ A B f m w,
  match m w with
  | Some (a, w') => f a w'
  | None => None
  end.

Definition crash {A : Type} : M A := λ _, None.

Definition deref {A : Type} (o : option A) : M A :=
  match o with
  | Some a => mret a
  | None => crash
  end.

Definition getWorld : M World := λ w, Some (w, w).

Definition modifyWorld (f : World → World) : M unit := λ w, Some (tt, f w).

Definition getCharacter (p : ptr) : M Character :=
  w ← getWorld; deref (characters w !! p).

Definition updateCharacter (p : ptr) (f : Character → option Character) : M unit :=
  c ← getCharacter p;
  c' ← deref (f c);
  modifyWorld (λ w, set_characters (<[p := c']> (characters w)) w).

Definition modifyCharacter (p : ptr) (f : Character → Character) : M unit :=
  updateCharacter p (λ c, Some (f c)).

Definition getItem (p : ptr) : M Item :=
  w ← getWorld; deref (items w !! p).

Definition modifyItem (p : ptr) (f : Item → Item) : M unit :=
  i ← getItem p;
  modifyWorld (λ w, set_items (<[p := f i]> (items w)) w).

(** [CallbackManager::the().runAfter(callback, delay)]. *)
Definition runAfter (cb : Callback) (delay : float) : M unit :=
  modifyWorld (λ w, set_callbacks (callbacks w ++ [(cb, delay)]) w).

Definition notify (e : Event) : M unit :=
  modifyWorld (λ w, set_events (events w ++ [e]) w).

(** A range-based [for] over a container. *)
Fixpoint forEach {A : Type} (l : list A) (f : A → M unit) : M unit :=
  match l with
  | [] => mret tt
  | x :: l' => f x;; forEach l' f
  end.

Definition when (b : bool) (m : M unit) : M unit :=
  if b then m else mret tt.

(** ** Getters *)

Definition isSetToKill (c : Character) : bool := f_isSetToKill (flags c).
Definition isKilled (c : Character) : bool := f_isKilled (flags c).
Definition isInvincible (c : Character) : bool := f_isInvincible (flags c).
Definition isCrouching (c : Character) : bool := f_isCrouching (flags c).
Definition isJumping (c : Character) : bool := f_isJumping (flags c).
Definition isTakingDamage (c : Character) : bool := f_isTakingDamage (flags c).
Definition isAlerted (c : Character) : bool := f_isAlerted (flags c).
Definition isFacingRight (c : Character) : bool := f_isFacingRight (flags c).
Definition isStartRunning (c : Character) : bool := f_isStartRunning (flags c).
Definition getLockedOnTarget (c : Character) : option ptr :=
  lockedOnTarget (targets c).
Definition getHealth (c : Character) : Z := health (characterProfile c).
Definition getFullHealth (c : Character) : Z := fullHealth (characterProfile c).

Definition setLockedOnTarget (target : option ptr) (c : Character) : Character :=
  upd_targets (set_lockedOnTarget target) c.

(** ** Stats regeneration

    [Character::regenHealth], [regenMagicka], [regenStamina]. *)

Definition regenHealth (deltaHealth : Z) (c : Character) : Character :=
  let fullHealth := fullHealth (characterProfile c) in
  let health := Int32.add (health (characterProfile c)) deltaHealth in
  upd_characterProfile
    (set_health (if fullHealth <? health then fullHealth else health)) c.

Definition regenMagicka (deltaMagicka : Z) (c : Character) : Character :=
  let fullMagicka := fullMagicka (characterProfile c) in
  let magicka := Int32.add (magicka (characterProfile c)) deltaMagicka in
  upd_characterProfile
    (set_magicka (if fullMagicka <? magicka then fullMagicka else magicka)) c.

Definition regenStamina (deltaStamina : Z) (c : Character) : Character :=
  let fullStamina := fullStamina (characterProfile c) in
  let stamina := Int32.add (stamina (characterProfile c)) deltaStamina in
  upd_characterProfile
    (set_stamina (if fullStamina <? stamina then fullStamina else stamina)) c.

(** ** Experience

    [Character::addExp].  [exp_point_table::getNextLevelExp] is declared in
    gameplay/ExpPointTable.h and is a parameter here.  The [while] loop is
    unrolled [fuel] times; running out of fuel has no result. *)

Section Experience.
Variable getNextLevelExp : Z → Z.

Fixpoint addExp_loop (fuel : nat) (thisExp thisLevel : Z) : option (Z * Z) :=
  if getNextLevelExp thisLevel <=? thisExp then
    match fuel with
    | O => None
    | S fuel' =>
        addExp_loop fuel'
          (Int32.sub thisExp (getNextLevelExp thisLevel))
          (Int32.add thisLevel 1)
    end
  else Some (thisExp, thisLevel).

Definition addExp (fuel : nat) (exp0 : Z) (c : Character) : option Character :=
  let thisExp := Int32.add (exp (characterProfile c)) exp0 in
  match addExp_loop fuel thisExp (level (characterProfile c)) with
  | Some (thisExp', thisLevel') =>
      Some (upd_characterProfile
              (λ p, set_level thisLevel' (set_exp thisExp' p)) c)
  | None => None
  end.
End Experience.

(** ** Animation dispatch

    [Character::getBodyAttackAnimation] and
    [Character::runAnimation(State, bool)]. *)

Definition getBodyAttackAnimation (c : Character) : Animation :=
  if attackAnimationIdx (sprite c) =? 0
  then BodyAnimation ATTACKING
  else BodyExtraAttackAnimation (attackAnimationIdx (sprite c) - 1).

Definition runAnimation (state : State) (loop : bool) (c : Character) : Character :=
  let animate :=
    if decide (state ≠ ATTACKING) then BodyAnimation state
    else getBodyAttackAnimation c in
  let c := upd_sprite (set_spriteAction (Some (animate, loop))) c in
  if decide (state = ATTACKING) then
    upd_sprite
      (set_attackAnimationIdx
         (Int32.rem (Int32.add (attackAnimationIdx (sprite c)) 1)
                    (kAttackAnimationIdxMax (sprite c)))) c
  else c.

(** [k] calls of [runAnimation(state, false)] in a row. *)
Fixpoint runAnimations (states : list State) (c : Character) : Character :=
  match states with
  | [] => c
  | s :: rest => runAnimations rest (runAnimation s false c)
  end.

(** ** The state machine

    [Character::determineState] and [Character::determineAttackState].
    [_body->GetLinearVelocity()] dereferences the body. *)

Definition kFallingVelocityY : float := (-2.5)%float.

(** [.01f]: the binary32 number nearest to one hundredth. *)
Definition kRunningVelocityX : float := 0x1.47ae14p-7%float.

Definition determineAttackState (c : Character) : State :=
  match overridingAttackState c with
  | Some s => s
  | None =>
      if negb (bool_decide (is_Some (equipmentSlots (bag c) EQUIPMENT_WEAPON)))
      then ATTACKING_UNARMED
      else if isCrouching c then ATTACKING_CROUCH
      else if isJumping c then ATTACKING_MIDAIR
      else ATTACKING
  end.

Definition GetLinearVelocity (c : Character) : option b2Vec2 :=
  linearVelocity <$> body (physics c).

Definition determineState (c : Character) : option State :=
  if f_isSetToKill (flags c) then Some KILLED
  else if f_isGettingUpFromFalling (flags c) then Some FALLING_GETUP
  else if f_isAttacking (flags c) then Some (determineAttackState c)
  else if f_isDodgingBackward (flags c) then Some DODGING_BACKWARD
  else if f_isDodgingForward (flags c) then Some DODGING_FORWARD
  else
    v ← GetLinearVelocity c;
    if PrimFloat.ltb (snd v) kFallingVelocityY then Some FALLING
    else if f_isJumping (flags c) then Some JUMPING
    else if f_isCrouching (flags c) then Some CROUCHING
    else if f_isStartRunning (flags c) then Some RUNNING_START
    else if f_isStopRunning (flags c) then Some RUNNING_STOP
    else if PrimFloat.ltb kRunningVelocityX (PrimFloat.abs (fst v))
         then Some RUNNING
    else Some IDLE.

(** ** Combat

    [Character::getAllies], [lockOn], [receiveDamage], [inflictDamage]. *)

Definition getAllies (this : ptr) (c : Character) : gset ptr :=
  match party (targets c) with
  | None => ∅
  | Some p =>
      let ret : gset ptr := list_to_set (getMembers p) in
      if decide (getLeader p ≠ this) then ret ∪ {[getLeader p]} else ret
  end.

Definition lockOn (this : ptr) (target : option ptr) : M unit :=
  modifyCharacter this (upd_flags (set_f_isAlerted true));;
  modifyCharacter this (setLockedOnTarget target).

Definition getSfxFileName (sfx : Sfx) (c : Character) : option string :=
  let fileName := sfxFileNames (characterProfile c) sfx in
  if (0 <? String.length fileName)%nat then Some fileName else None.

Definition set_categoryBits (bits : Z) (f : Fixture) : Fixture :=
  {| shape := shape f; categoryBits := bits; maskBits := maskBits f;
     isSensor := isSensor f; hasDensity := hasDensity f;
     userData := userData f |}.

(** Modelled from the spec: [DynamicActor::setCategoryBits] is defined in
    DynamicActor.cc, which is not among the sources; per the specification
    it flags the fixture with the given category.  The fixture pointer is
    dereferenced. *)
Definition setCategoryBits (fixture : option ptr) (bits : Z) (c : Character)
  : option Character :=
  f ← fixture;
  b ← body (physics c);
  fx ← fixtureList b !! f;
  Some (upd_physics
          (set_body
             (Some (set_fixtureList
                      (<[f := set_categoryBits bits fx]> (fixtureList b)) b)))
          c).

Definition eraseInRangeTarget (target : ptr) (c : Character) : Character :=
  upd_targets (set_inRangeTargets (inRangeTargets (targets c) ∖ {[target]})) c.

(** [.25f] *)
Definition kTakingDamageDuration : float := 0.25%float.

Section Combat.
(** [category_bits::kDestroyed] of Constants.h. *)
Variable kDestroyed : Z.

Definition receiveDamage (this : ptr) (source : option ptr) (damage : Z)
  : M bool :=
  match source with
  | None =>
      notify (VGLOG LOG_ERR "Failed to receive damage from source [nullptr].");;
      mret false
  | Some src =>
      s ← getCharacter src;
      if isSetToKill s || isKilled s then mret false
      else
        me ← getCharacter this;
        if isInvincible me then mret true
        else
          modifyCharacter this
            (upd_characterProfile
               (λ p, set_health (Int32.sub (health p) damage) p));;
          modifyCharacter this (upd_flags (set_f_isTakingDamage true));;
          runAfter (ClearTakingDamage this) kTakingDamageDuration;;
          me ← getCharacter this;
          when (getHealth me <=? 0)
            (modifyCharacter this (upd_characterProfile (set_health 0));;
             modifyCharacter src (eraseInRangeTarget this);;
             s ← getCharacter src;
             forEach (elements (getAllies src s))
               (λ sourceAlly,
                  modifyCharacter sourceAlly (eraseInRangeTarget this);;
                  a ← getCharacter sourceAlly;
                  when (bool_decide (getLockedOnTarget a = Some this))
                    (modifyCharacter sourceAlly (setLockedOnTarget None)));;
             me ← getCharacter this;
             updateCharacter this
               (setCategoryBits (fixtures (physics me) BODY) kDestroyed);;
             modifyCharacter this (upd_flags (set_f_isSetToKill true)));;
          notify (CreateHitFx this);;
          notify (ShowFloatingDamage this damage);;
          me ← getCharacter this;
          match getSfxFileName SFX_HURT me with
          | Some sfxFileName => notify (PlaySfx (SfxPath sfxFileName))
          | None => mret tt
          end;;
          mret true
  end.

Definition inflictDamage (this : ptr) (target : option ptr) (damage : Z)
  : M bool :=
  match target with
  | None =>
      notify (VGLOG LOG_ERR "Failed to inflict damage to target: [nullptr].");;
      mret false
  | Some tgt =>
      receiveDamage tgt (Some this) damage;;
      lockOn tgt (Some this);;
      me ← getCharacter this;
      forEach (elements (getAllies this me))
        (λ ally, lockOn ally target);;
      t ← getCharacter tgt;
      forEach (elements (getAllies tgt t))
        (λ targetAlly, lockOn targetAlly (Some this));;
      mret true
  end.
End Combat.

(** ** Inventory and equipment

    [Character::getExistingItemObj], [addItem], [removeItem],
    [getItemAmount], [useItem], [equip], [unequip].  A [shared_ptr<Item>]
    and an [Item*] are both addresses into [items]; the owning map
    [itemMapper] is what keeps an instance alive. *)

Definition getExistingItemObj (this : ptr) (item : option ptr) : M (option ptr) :=
  match item with
  | None => mret None
  | Some i =>
      it ← getItem i;
      me ← getCharacter this;
      mret (itemMapper (bag me) !! jsonFileName (itemProfile it))
  end.

Definition inventoryInsert (ty : ItemType) (i : ptr) (b : Bag) : Bag :=
  set_inventory (<[ty := inventory b ty ∪ {[i]}]> (inventory b)) b.

Definition inventoryErase (ty : ItemType) (i : ptr) (b : Bag) : Bag :=
  set_inventory (<[ty := inventory b ty ∖ {[i]}]> (inventory b)) b.

Definition addItem (this : ptr) (item : option ptr) (amt : Z) : M unit :=
  match item with
  | None => notify (VGLOG LOG_WARN "Either item == nullptr or amount == 0")
  | Some i =>
      if amt =? 0
      then notify (VGLOG LOG_WARN "Either item == nullptr or amount == 0")
      else
        existing ← getExistingItemObj this item;
        existingItemObj ←
          match existing with
          | Some e =>
              modifyItem e (λ x, setAmount (Int32.add (amount x) amt) x);;
              mret e
          | None =>
              modifyItem i (setAmount amt);;
              it ← getItem i;
              modifyCharacter this
                (upd_bag (λ b,
                   set_itemMapper
                     (<[jsonFileName (itemProfile it) := i]> (itemMapper b)) b));;
              mret i
          end;
        e ← getItem existingItemObj;
        modifyCharacter this
          (upd_bag (inventoryInsert (itemType (itemProfile e)) existingItemObj))
  end.

Definition removeItem (this : ptr) (item : option ptr) (amt : Z) : M unit :=
  existing ← getExistingItemObj this item;
  match existing, item with
  | Some existingItemObj, Some i =>
      if amt =? 0 then notify (VGLOG LOG_WARN "Unable to remove such item!")
      else
        e ← getItem existingItemObj;
        let finalAmount := Int32.sub (amount e) amt in
        if finalAmount <? 0 then crash
        else
          modifyItem existingItemObj (setAmount finalAmount);;
          when (finalAmount =? 0)
            (it ← getItem i;
             modifyCharacter this
               (upd_bag (inventoryErase (itemType (itemProfile it))
                           existingItemObj));;
             me ← getCharacter this;
             let equipped :=
               match itemKind e with
               | EquipmentItem ep =>
                   bool_decide (equipmentSlots (bag me) (equipmentType ep)
                                = Some existingItemObj)
               | _ => false
               end in
             when (negb equipped)
               (modifyCharacter this
                  (upd_bag (λ b,
                     set_itemMapper
                       (delete (jsonFileName (itemProfile it)) (itemMapper b))
                       b))))
  | _, _ => notify (VGLOG LOG_WARN "Unable to remove such item!")
  end.

Definition getItemAmount (this : ptr) (itemJsonFileName : string) : M Z :=
  me ← getCharacter this;
  match itemMapper (bag me) !! itemJsonFileName with
  | None => mret 0
  | Some i => it ← getItem i; mret (amount it)
  end.

Definition useItem_profile (cp : ConsumableProfile) (p : Profile) : Profile :=
  let health := Int32.add (health p) (restoreHealth cp) in
  let magicka := Int32.add (magicka p) (restoreMagicka cp) in
  let stamina := Int32.add (stamina p) (restoreStamina cp) in
  {| level := level p; exp := exp p;
     fullHealth := fullHealth p; fullStamina := fullStamina p;
     fullMagicka := fullMagicka p;
     health := if fullHealth p <? health then fullHealth p else health;
     stamina := if fullStamina p <? stamina then fullStamina p else stamina;
     magicka := if fullMagicka p <? magicka then fullMagicka p else magicka;
     strength := Int32.add (strength p) (bonusStr cp);
     dexterity := Int32.add (dexterity p) (bonusDex cp);
     intelligence := Int32.add (intelligence p) (bonusInt cp);
     luck := Int32.add (luck p) (bonusLuk cp);
     moveSpeed := float_add (moveSpeed p) (bonusMoveSpeed cp);
     jumpHeight := float_add (jumpHeight p) (bonusJumpHeight cp);
     baseMeleeDamage :=
       Int32.add (baseMeleeDamage p) (consumableBonusPhysicalDamage cp);
     sfxFileNames := sfxFileNames p |}.

Definition useItem (this : ptr) (consumable : ptr) : M unit :=
  it ← getItem consumable;
  match itemKind it with
  | ConsumableItem cp =>
      modifyCharacter this (upd_characterProfile (useItem_profile cp));;
      removeItem this (Some consumable) 1;;
      notify UpdateStatusBars
  | _ => crash
  end.

Section Equipment.
(** The default of [unequip]'s [audio] argument, declared in Character.h. *)
Variable kUnequipAudio : bool.

Definition unequip (this : ptr) (equipmentType : EquipmentType) (audio : bool)
  : M unit :=
  me ← getCharacter this;
  match equipmentSlots (bag me) equipmentType with
  | None => mret tt
  | Some e =>
      modifyCharacter this
        (upd_bag (λ b,
           set_equipmentSlots
             (<[equipmentType := None]> (equipmentSlots b)) b));;
      ei ← getItem e;
      me ← getCharacter this;
      match itemMapper (bag me) !! jsonFileName (itemProfile ei) with
      | None =>
          notify (VGLOG LOG_ERR
                    ("The unequipped item ["
                     +:+ jsonFileName (itemProfile ei)
                     +:+ "] is not in player's itemMapper."))
      | Some it =>
          addItem this (Some it) 1;;
          when audio (notify (PlaySfx kSfxEquipUnequipItem))
      end
  end.

Definition equip (this : ptr) (equipment : ptr) (audio : bool) : M unit :=
  e ← getItem equipment;
  match itemKind e with
  | EquipmentItem ep =>
      let type := equipmentType ep in
      me ← getCharacter this;
      when (bool_decide (is_Some (equipmentSlots (bag me) type)))
        (unequip this type kUnequipAudio);;
      modifyCharacter this
        (upd_bag (λ b,
           set_equipmentSlots
             (<[type := Some equipment]> (equipmentSlots b)) b));;
      removeItem this (Some equipment) 1;;
      when audio (notify (PlaySfx kSfxEquipUnequipItem))
  | _ => crash
  end.
End Equipment.

(** ** Movement

    [Character::startRunning], [moveLeft], [moveRight]. *)

Definition ApplyLinearImpulseToCenter (impulse : b2Vec2) (c : Character)
  : option Character :=
  b ← body (physics c);
  Some (upd_physics (set_body (Some (set_impulses (impulses b ++ [impulse]) b))) c).

Definition startRunning (this : ptr) : M unit :=
  modifyCharacter this (upd_flags (set_f_isStartRunning true));;
  me ← getCharacter this;
  runAfter (ClearStartRunning this)
           (bodyAnimationDuration (sprite me) RUNNING_START).

Definition moveLeft (this : ptr) : M unit :=
  modifyCharacter this (upd_flags (set_f_isFacingRight false));;
  me ← getCharacter this;
  if isCrouching me || f_isGettingUpFromFalling (flags me) then mret tt
  else
    velocity ← deref (GetLinearVelocity me);
    let moveSpeed := moveSpeed (characterProfile me) in
    when (PrimFloat.eqb (fst velocity) 0%float) (startRunning this);;
    when (PrimFloat.leb (PrimFloat.mul (PrimFloat.opp moveSpeed) 2%float)
                        (fst velocity))
      (updateCharacter this
         (ApplyLinearImpulseToCenter (PrimFloat.opp moveSpeed, 0%float))).

Definition moveRight (this : ptr) : M unit :=
  modifyCharacter this (upd_flags (set_f_isFacingRight true));;
  me ← getCharacter this;
  if isCrouching me || f_isGettingUpFromFalling (flags me) then mret tt
  else
    velocity ← deref (GetLinearVelocity me);
    let moveSpeed := moveSpeed (characterProfile me) in
    when (PrimFloat.eqb (fst velocity) 0%float) (startRunning this);;
    when (PrimFloat.leb (fst velocity) (PrimFloat.mul moveSpeed 2%float))
      (updateCharacter this
         (ApplyLinearImpulseToCenter (moveSpeed, 0%float))).

(** ** Fixtures

    [Character::redefineBodyFixture], [redefineFeetFixture],
    [redefineWeaponFixture]. *)

(** Box2D's [b2Body::DestroyFixture] returns at once on a null pointer and
    requires the fixture to be attached to the body. *)

Definition DestroyFixture (fixture : option ptr) (b : Body) : option Body :=
  match fixture with
  | None => Some b
  | Some f =>
      if bool_decide (is_Some (fixtureList b !! f))
      then Some (set_fixtureList (delete f (fixtureList b)) b)
      else None
  end.

(** Modelled from the spec: [B2BodyBuilder] (util/B2BodyBuilder.h) is not
    among the sources; its [buildFixture] creates the described fixture on
    the body, here at a fresh address. *)
Definition buildFixture (fx : Fixture) (b : Body) : ptr * Body :=
  (nextFixture b,
   set_nextFixture (S (nextFixture b))
     (set_fixtureList (<[nextFixture b := fx]> (fixtureList b)) b)).

Definition setFixture (ty : FixtureType) (f : option ptr) (b : Body)
    (ph : Physics) : Physics :=
  set_fixtures (<[ty := f]> (fixtures ph)) (set_body (Some b) ph).

Section Fixtures.
(** [category_bits::kFeet] and [category_bits::kMeleeWeapon] of
    Constants.h. *)
Variables kFeet kMeleeWeapon : Z.

Definition redefineBodyFixture (this : ptr) (bodyCategoryBits bodyMaskBits : Z)
    (c : Character) : option Character :=
  '(bodyCategoryBits, bodyMaskBits, c) ←
    match fixtures (physics c) BODY with
    | Some f =>
        b ← body (physics c);
        fx ← fixtureList b !! f;
        b' ← DestroyFixture (fixtures (physics c) BODY) b;
        Some (categoryBits fx, maskBits fx,
              upd_physics (setFixture BODY None b') c)
    | None => Some (bodyCategoryBits, bodyMaskBits, c)
    end;
  b ← body (physics c);
  let '(f, b') :=
    buildFixture
      {| shape := BodyPolygon (isCrouching c);
         categoryBits := bodyCategoryBits; maskBits := bodyMaskBits;
         isSensor := true; hasDensity := false; userData := this |} b in
  Some (upd_physics (setFixture BODY (Some f) b') c).

Definition redefineFeetFixture (this : ptr) (feetMaskBits : Z)
    (c : Character) : option Character :=
  '(feetMaskBits, c) ←
    match fixtures (physics c) FEET with
    | Some f =>
        b ← body (physics c);
        fx ← fixtureList b !! f;
        b' ← DestroyFixture (fixtures (physics c) BODY) b;
        Some (maskBits fx, upd_physics (setFixture BODY None b') c)
    | None => Some (feetMaskBits, c)
    end;
  b ← body (physics c);
  let '(f, b') :=
    buildFixture
      {| shape := FeetCircle;
         categoryBits := kFeet; maskBits := feetMaskBits;
         isSensor := false; hasDensity := true; userData := this |} b in
  Some (upd_physics (setFixture FEET (Some f) b') c).

Definition redefineWeaponFixture (this : ptr) (weaponMaskBits : Z)
    (c : Character) : option Character :=
  '(weaponMaskBits, c) ←
    match fixtures (physics c) WEAPON with
    | Some f =>
        b ← body (physics c);
        fx ← fixtureList b !! f;
        b' ← DestroyFixture (fixtures (physics c) WEAPON) b;
        Some (maskBits fx, upd_physics (setFixture WEAPON None b') c)
    | None => Some (weaponMaskBits, c)
    end;
  b ← body (physics c);
  let '(f, b') :=
    buildFixture
      {| shape := WeaponPolygon (isFacingRight c) (isCrouching c);
         categoryBits := kMeleeWeapon; maskBits := weaponMaskBits;
         isSensor := true; hasDensity := false; userData := this |} b in
  Some (upd_physics (setFixture WEAPON (Some f) b') c).
End Fixtures.

(** ** The state priority list, as the specification words it

    The specification gives [determineState] as a priority list evaluated
    top to bottom, first match wins, over the character's flags, the
    recorded attack override, whether a weapon is equipped, and the body
    velocity. *)

Record StateInputs := mkStateInputs {
  in_setToKill : bool;
  in_gettingUpFromFalling : bool;
  in_attacking : bool;
  in_overridingAttackState : option State;
  in_weaponEquipped : bool;
  in_dodgingBackward : bool;
  in_dodgingForward : bool;
  in_jumping : bool;
  in_crouching : bool;
  in_startRunning : bool;
  in_stopRunning : bool
}.

Definition stateInputs (c : Character) : StateInputs :=
  {| in_setToKill := f_isSetToKill (flags c);
     in_gettingUpFromFalling := f_isGettingUpFromFalling (flags c);
     in_attacking := f_isAttacking (flags c);
     in_overridingAttackState := overridingAttackState c;
     in_weaponEquipped :=
       bool_decide (is_Some (equipmentSlots (bag c) EQUIPMENT_WEAPON));
     in_dodgingBackward := f_isDodgingBackward (flags c);
     in_dodgingForward := f_isDodgingForward (flags c);
     in_jumping := f_isJumping (flags c);
     in_crouching := f_isCrouching (flags c);
     in_startRunning := f_isStartRunning (flags c);
     in_stopRunning := f_isStopRunning (flags c) |}.

(** The attacking variant: a recorded override, else by equipped weapon,
    crouch, mid-air. *)
Definition attackingVariant (i : StateInputs) : State :=
  match in_overridingAttackState i with
  | Some s => s
  | None =>
      if negb (in_weaponEquipped i) then ATTACKING_UNARMED
      else if in_crouching i then ATTACKING_CROUCH
      else if in_jumping i then ATTACKING_MIDAIR
      else ATTACKING
  end.

Definition priorityList (i : StateInputs) (v : b2Vec2) : list (bool * State) :=
  [ (in_setToKill i, KILLED);
    (in_gettingUpFromFalling i, FALLING_GETUP);
    (in_attacking i, attackingVariant i);
    (in_dodgingBackward i, DODGING_BACKWARD);
    (in_dodgingForward i, DODGING_FORWARD);
    (PrimFloat.ltb (snd v) (-2.5)%float, FALLING);
    (in_jumping i, JUMPING);
    (in_crouching i, CROUCHING);
    (in_startRunning i, RUNNING_START);
    (in_stopRunning i, RUNNING_STOP);
    (PrimFloat.ltb kRunningVelocityX (PrimFloat.abs (fst v)), RUNNING) ].

Fixpoint firstMatch (rules : list (bool * State)) (default : State) : State :=
  match rules with
  | [] => default
  | (guard, s) :: rest => if guard then s else firstMatch rest default
  end.

(** ** Concrete objects used by the examples *)

Definition exProfile (health fullHealth : Z) : Profile :=
  {| level := 1; exp := 0;
     fullHealth := fullHealth; fullStamina := 100; fullMagicka := 100;
     health := health; stamina := 100; magicka := 100;
     strength := 5; dexterity := 5; intelligence := 5; luck := 5;
     moveSpeed := 1%float; jumpHeight := 3%float;
     baseMeleeDamage := 10;
     sfxFileNames := λ _, EmptyString |}.

Definition exFlags : Flags :=
  {| f_isFacingRight := true; f_isStartRunning := false;
     f_isStopRunning := false; f_isJumping := false;
     f_isCrouching := false; f_isGettingUpFromFalling := false;
     f_isAttacking := false; f_isDodgingBackward := false;
     f_isDodgingForward := false; f_isInvincible := false;
     f_isTakingDamage := false; f_isAlerted := false;
     f_isKilled := false; f_isSetToKill := false |}.

Definition exFixture (s : Shape) (category mask : Z) (owner : ptr) : Fixture :=
  {| shape := s; categoryBits := category; maskBits := mask;
     isSensor := true; hasDensity := false; userData := owner |}.

(** A body carrying a BODY, a FEET and a WEAPON fixture at addresses
    0, 1 and 2, moving at horizontal velocity [vx]. *)
Definition exBody (owner : ptr) (vx : float) : Body :=
  {| fixtureList :=
       <[0%nat := exFixture (BodyPolygon false) 8 3 owner]>
         (<[1%nat := exFixture FeetCircle 4 7 owner]>
            (<[2%nat := exFixture (WeaponPolygon true false) 16 9 owner]> ∅));
     nextFixture := 3%nat;
     linearVelocity := (vx, 0%float);
     impulses := [] |}.

Definition exFixtures (ty : FixtureType) : option ptr :=
  match ty with
  | BODY => Some 0%nat
  | FEET => Some 1%nat
  | WEAPON => Some 2%nat
  end.

Definition exCharacter (owner : ptr) (health fullHealth : Z) (vx : float)
    (t : Targets) : Character :=
  {| characterProfile := exProfile health fullHealth;
     flags := exFlags;
     overridingAttackState := None;
     sprite := {| attackAnimationIdx := 0; kAttackAnimationIdxMax := 3;
                  bodyAnimationDuration := λ _, 0.5%float;
                  spriteAction := None |};
     physics := {| body := Some (exBody owner vx); fixtures := exFixtures |};
     targets := t;
     bag := {| inventory := λ _, ∅; itemMapper := ∅;
               equipmentSlots := λ _, None |} |}.

Definition noTargets : Targets :=
  {| lockedOnTarget := None; inRangeTargets := ∅; party := None |}.

(** ** Experience thresholds, as the specification counts them

    The sum of the thresholds of the [n] levels gained from [level] on. *)

Fixpoint thresholdSum (getNextLevelExp : Z → Z) (level : Z) (n : nat) : Z :=
  match n with
  | O => 0
  | S n' =>
      getNextLevelExp level + thresholdSum getNextLevelExp (level + 1) n'
  end.

(** A character whose attack animation index is [idx] out of [idxMax]. *)
Definition exAttacker (idx idxMax : Z) : Character :=
  upd_sprite
    (λ s, {| attackAnimationIdx := idx; kAttackAnimationIdxMax := idxMax;
             bodyAnimationDuration := bodyAnimationDuration s;
             spriteAction := spriteAction s |})
    (exCharacter 1 10 50 0%float noTargets).

(** An experience table with 100 points per level. *)
Definition exNextLevelExp (level : Z) : Z := 100.

(** A world holding one character, at address 1, moving at horizontal
    velocity [vx] with [moveSpeed] 1. *)
Definition exWorld1 (vx : float) : World :=
  {| characters := {[ 1%nat := exCharacter 1 10 50 vx noTargets ]};
     items := ∅; callbacks := []; events := [] |}.

(** ** The effects of the combat methods, character by character *)

(** The effect of a loop whose body rewrites the character it visits. *)
Definition alterAll (g : ptr → Character → Character) (l : list ptr)
    (m : gmap ptr Character) : gmap ptr Character :=
  foldl (λ m a, alter (g a) a m) m l.

(** The effect on a source's ally of the body of the loop in the lethal
    branch of [receiveDamage]. *)
Definition clearTarget (target : ptr) (c : Character) : Character :=
  let c := eraseInRangeTarget target c in
  if bool_decide (getLockedOnTarget c = Some target)
  then setLockedOnTarget None c
  else c.

(** The effect of [lockOn] on the character it is called on. *)
Definition lockedOn (target : option ptr) (c : Character) : Character :=
  setLockedOnTarget target (upd_flags (set_f_isAlerted true) c).

(** The notifications [receiveDamage] sends once damage was taken. *)
Definition damageEvents (this : ptr) (damage : Z) (c : Character) : list Event :=
  [CreateHitFx this; ShowFloatingDamage this damage]
  ++ match getSfxFileName SFX_HURT c with
     | Some sfxFileName => [PlaySfx (SfxPath sfxFileName)]
     | None => []
     end.

(** The first two statements of [receiveDamage] past its guards. *)
Definition hurt (damage : Z) (c : Character) : Character :=
  upd_flags (set_f_isTakingDamage true)
    (upd_characterProfile (λ p, set_health (Int32.sub (health p) damage) p) c).

(** What the lethal branch of [receiveDamage] does to the character at
    address [p]: the receiver [this] is hurt and its health floored, the
    source forgets it as an in-range target, each ally of the source
    forgets it as in-range and locked-on target, and the receiver's BODY
    fixture [f] is flagged and the receiver is set to kill. *)
Definition lethalDamage (kDestroyed : Z) (this src : ptr) (allies : gset ptr)
    (damage : Z) (b : Body) (f : ptr) (fx : Fixture)
    (p : ptr) (c : Character) : Character :=
  let c := if decide (p = this)
           then upd_characterProfile (set_health 0) (hurt damage c) else c in
  let c := if decide (p = src) then eraseInRangeTarget this c else c in
  let c := if decide (p ∈ allies) then clearTarget this c else c in
  if decide (p = this)
  then upd_flags (set_f_isSetToKill true)
         (upd_physics
            (set_body
               (Some (set_fixtureList
                        (<[f := set_categoryBits kDestroyed fx]> (fixtureList b))
                        b))) c)
  else c.

(** Scenario 1: the receiver (address 1, health 10 of 50) is tracked by the
    attacker (address 2) and by the attacker's party member (address 3). *)
Definition exParty : Party := {| getLeader := 2%nat; getMembers := [3%nat] |}.

Definition exTracker : Targets :=
  {| lockedOnTarget := Some 1%nat; inRangeTargets := {[1%nat]};
     party := Some exParty |}.

Definition exWorld3 : World :=
  {| characters :=
       <[1%nat := exCharacter 1 10 50 0%float noTargets]>
         (<[2%nat := exCharacter 2 80 80 0%float exTracker]>
            (<[3%nat := exCharacter 3 60 60 0%float exTracker]> ∅));
     items := ∅; callbacks := []; events := [] |}.

(** ** The head of [Character::update]

    [Character::update] from its guard to the regeneration of the stats;
    the call into the combo system and the state machine follow and are
    not modelled.  The members that only [update] reads are passed in and
    handed back: [_isShownOnMap], the flip of the body sprite
    ([_bodySprite->isFlippedX()]), the regeneration timer and the three base
    amounts.  [_body->GetPosition()] dereferences the body; the position
    handed to the sprite is not kept. *)

Record UpdateMembers := mkUpdateMembers {
  isShownOnMap : bool;
  isFlippedX : bool;
  statsRegenTimer : float;
  baseRegenDeltaHealth : Z;
  baseRegenDeltaMagicka : Z;
  baseRegenDeltaStamina : Z
}.

Definition set_isFlippedX (x : bool) (u : UpdateMembers) : UpdateMembers :=
  {| isShownOnMap := isShownOnMap u; isFlippedX := x;
     statsRegenTimer := statsRegenTimer u;
     baseRegenDeltaHealth := baseRegenDeltaHealth u;
     baseRegenDeltaMagicka := baseRegenDeltaMagicka u;
     baseRegenDeltaStamina := baseRegenDeltaStamina u |}.

Definition set_statsRegenTimer (x : float) (u : UpdateMembers) : UpdateMembers :=
  {| isShownOnMap := isShownOnMap u; isFlippedX := isFlippedX u;
     statsRegenTimer := x;
     baseRegenDeltaHealth := baseRegenDeltaHealth u;
     baseRegenDeltaMagicka := baseRegenDeltaMagicka u;
     baseRegenDeltaStamina := baseRegenDeltaStamina u |}.

Section Update.
(** [category_bits::kMeleeWeapon] of Constants.h, and the default argument
    of [redefineWeaponFixture], declared in Character.h. *)
Variable kMeleeWeapon : Z.
Variable kDefaultWeaponMaskBits : Z.

Definition update_head (this : ptr) (delta : float) (u : UpdateMembers)
  : M UpdateMembers :=
  me ← getCharacter this;
  if negb (isShownOnMap u) || isKilled me then mret u
  else
    u ← (if negb (isFacingRight me) && negb (isFlippedX u) then
           updateCharacter this
             (redefineWeaponFixture kMeleeWeapon this kDefaultWeaponMaskBits);;
           mret (set_isFlippedX true u)
         else if isFacingRight me && isFlippedX u then
           updateCharacter this
             (redefineWeaponFixture kMeleeWeapon this kDefaultWeaponMaskBits);;
           mret (set_isFlippedX false u)
         else mret u);
    me ← getCharacter this;
    _ ← deref (body (physics me));
    let u := set_statsRegenTimer (float_add (statsRegenTimer u) delta) u in
    if PrimFloat.leb 5%float (statsRegenTimer u) then
      modifyCharacter this (regenHealth (baseRegenDeltaHealth u));;
      modifyCharacter this (regenMagicka (baseRegenDeltaMagicka u));;
      modifyCharacter this (regenStamina (baseRegenDeltaStamina u));;
      notify UpdateStatusBars;;
      mret (set_statsRegenTimer 0%float u)
    else mret u.

End Update.

(** ** Operations on health

    The three ways health changes: damage receipt, the periodic
    regeneration of [update], consumable use. *)

Inductive HealthOp : Type :=
  | OpReceiveDamage (this : ptr) (source : option ptr) (damage : Z)
  | OpUpdate (this : ptr) (delta : float) (u : UpdateMembers)
  | OpUseItem (this : ptr) (consumable : ptr).

Section HealthOps.
(** [category_bits::kDestroyed] and [category_bits::kMeleeWeapon] of
    Constants.h, and the default argument of [redefineWeaponFixture],
    declared in Character.h. *)
Variables kDestroyed kMeleeWeapon kDefaultWeaponMaskBits : Z.

Definition runHealthOp (op : HealthOp) : M unit :=
  match op with
  | OpReceiveDamage this source damage =>
      receiveDamage kDestroyed this source damage;; mret tt
  | OpUpdate this delta u =>
      update_head kMeleeWeapon kDefaultWeaponMaskBits this delta u;; mret tt
  | OpUseItem this consumable => useItem this consumable
  end.

Definition runHealthOps (ops : list HealthOp) : M unit :=
  forEach ops runHealthOp.
End HealthOps.

Definition isDamage (op : HealthOp) : bool :=
  match op with
  | OpReceiveDamage _ _ _ => true
  | _ => false
  end.

(** A consumable use by the character at [p]. *)
Definition usesItem (p : ptr) (op : HealthOp) : bool :=
  match op with
  | OpUseItem this _ => bool_decide (this = p)
  | _ => false
  end.

(** Every character's health lies between 0 and its full health. *)
Definition healthInvariant (w : World) : Prop :=
  ∀ (p : ptr) (c : Character),
    characters w !! p = Some c → 0 ≤ getHealth c ≤ getFullHealth c.

(** Amounts are non-negative and the sums the operation forms stay within
    [int].  Full health and the profiles of consumables never change, so
    the condition is read off the initial world. *)
Definition admissible (w : World) (op : HealthOp) : Prop :=
  match op with
  | OpReceiveDamage this _ damage =>
      0 ≤ damage ≤ Int32.max_int
      ∧ ∀ c : Character,
          characters w !! this = Some c →
          getFullHealth c ≤ Int32.max_int
  | OpUpdate this _ u =>
      0 ≤ baseRegenDeltaHealth u
      ∧ ∀ c : Character,
          characters w !! this = Some c →
          getFullHealth c + baseRegenDeltaHealth u ≤ Int32.max_int
  | OpUseItem this consumable =>
      ∀ (c : Character) (it : Item) (cp : ConsumableProfile),
        characters w !! this = Some c →
        items w !! consumable = Some it →
        itemKind it = ConsumableItem cp →
        0 ≤ restoreHealth cp
        ∧ getFullHealth c + restoreHealth cp ≤ Int32.max_int
  end.

(** What the health properties observe of a character. *)
Record Vitals := mkVitals {
  v_health : Z;
  v_fullHealth : Z;
  v_isSetToKill : bool;
  v_isKilled : bool
}.

Definition vitals (c : Character) : Vitals :=
  {| v_health := getHealth c; v_fullHealth := getFullHealth c;
     v_isSetToKill := isSetToKill c; v_isKilled := isKilled c |}.

Definition vitalsOf (w : World) : gmap ptr Vitals := vitals <$> characters w.

Definition kindsOf (w : World) : gmap ptr ItemKind := itemKind <$> items w.

(** A healing potion, at address 10. *)
Definition exPotionProfile : ConsumableProfile :=
  {| restoreHealth := 20; restoreMagicka := 0; restoreStamina := 0;
     consumableBonusPhysicalDamage := 0;
     bonusStr := 0; bonusDex := 0; bonusInt := 0; bonusLuk := 0;
     bonusMoveSpeed := 0%float; bonusJumpHeight := 0%float |}.

Definition exPotion (n : Z) : Item :=
  {| itemProfile := {| jsonFileName := "Resources/Database/item/potion.json";
                       itemType := 1%nat |};
     itemKind := ConsumableItem exPotionProfile;
     amount := n |}.

Definition exBag (ty : ItemType) (name : string) (i : ptr) : Bag :=
  {| inventory := <[ty := {[i]}]> (λ _, ∅);
     itemMapper := {[ name := i ]};
     equipmentSlots := λ _, None |}.

(** A character that is killed and set to kill, at health 0 of 50, owning
    one potion. *)
Definition exDead : Character :=
  upd_bag (λ _, exBag 1%nat "Resources/Database/item/potion.json" 10%nat)
    (upd_flags (λ fl, {| f_isFacingRight := f_isFacingRight fl;
                         f_isStartRunning := false; f_isStopRunning := false;
                         f_isJumping := false; f_isCrouching := false;
                         f_isGettingUpFromFalling := false;
                         f_isAttacking := false;
                         f_isDodgingBackward := false;
                         f_isDodgingForward := false;
                         f_isInvincible := false; f_isTakingDamage := false;
                         f_isAlerted := false;
                         f_isKilled := true; f_isSetToKill := true |})
       (exCharacter 1 0 50 0%float noTargets)).

Definition exWorldDead : World :=
  {| characters := {[ 1%nat := exDead ]};
     items := {[ 10%nat := exPotion 1 ]};
     callbacks := []; events := [] |}.

(** The same character next to a live one (address 2, health 80 of 80). *)
Definition exWorldDeadHit : World :=
  {| characters :=
       <[1%nat := exDead]>
         {[ 2%nat := exCharacter 2 80 80 0%float noTargets ]};
     items := {[ 10%nat := exPotion 1 ]};
     callbacks := []; events := [] |}.

(** The members of [update] on a shown character whose timer is about to
    expire, with base regeneration amounts of 5. *)
Definition exMembers : UpdateMembers :=
  {| isShownOnMap := true; isFlippedX := false;
     statsRegenTimer := 4.5%float;
     baseRegenDeltaHealth := 5; baseRegenDeltaMagicka := 5;
     baseRegenDeltaStamina := 5 |}.

(** Two worlds that the health properties cannot tell apart. *)
Definition sameVitals (w w' : World) : Prop :=
  vitalsOf w' = vitalsOf w ∧ kindsOf w' = kindsOf w.

Definition preservesVitals {A : Type} (m : M A) : Prop :=
  ∀ (w : World) (a : A) (w' : World), m w = Some (a, w') → sameVitals w w'.

(** The effect of the three operations on what is observed. *)
Definition damagedVitals (damage : Z) (v : Vitals) : Vitals :=
  let h := Int32.sub (v_health v) damage in
  {| v_health := if h <=? 0 then 0 else h;
     v_fullHealth := v_fullHealth v;
     v_isSetToKill := (h <=? 0) || v_isSetToKill v;
     v_isKilled := v_isKilled v |}.

Definition restoredVitals (delta : Z) (v : Vitals) : Vitals :=
  let h := Int32.add (v_health v) delta in
  {| v_health := if v_fullHealth v <? h then v_fullHealth v else h;
     v_fullHealth := v_fullHealth v;
     v_isSetToKill := v_isSetToKill v;
     v_isKilled := v_isKilled v |}.

(** Health within bounds, on what is observed. *)
Definition vitalsInvariant (m : gmap ptr Vitals) : Prop :=
  ∀ (p : ptr) (v : Vitals), m !! p = Some v → 0 ≤ v_health v ≤ v_fullHealth v.

(** What no operation undoes: full health, the killed flag, and a raised
    set-to-kill flag. *)
Definition vitalsKept (v v' : Vitals) : Prop :=
  v_fullHealth v' = v_fullHealth v
  ∧ v_isKilled v' = v_isKilled v
  ∧ (v_isSetToKill v = true → v_isSetToKill v' = true).

Definition healthNotRaised (v v' : Vitals) : Prop :=
  v_health v' ≤ v_health v.

(** [update] regenerates the health of a character that is not killed. *)
Definition regeneratedVitals (delta : Z) (v : Vitals) : Vitals :=
  if v_isKilled v then v else restoredVitals delta v.

(** The health of a killed character is not raised. *)
Definition killedNotRaised (v v' : Vitals) : Prop :=
  vitalsKept v v' ∧ (v_isKilled v = true → v_health v' ≤ v_health v).

Definition pointwise (P : Vitals → Vitals → Prop) (m m' : gmap ptr Vitals) : Prop :=
  ∀ p : ptr, option_Forall2 P (m !! p) (m' !! p).

(** ** Operations on the item store *)

Inductive ItemOp : Type :=
  | OpAddItem (item : ptr) (amt : Z)
  | OpRemoveItem (item : ptr) (amt : Z).

Definition opItem (op : ItemOp) : ptr :=
  match op with
  | OpAddItem item _ => item
  | OpRemoveItem item _ => item
  end.

Definition runItemOp (this : ptr) (op : ItemOp) : M unit :=
  match op with
  | OpAddItem item amt => addItem this (Some item) amt
  | OpRemoveItem item amt => removeItem this (Some item) amt
  end.

Definition runItemOps (this : ptr) (ops : list ItemOp) : M unit :=
  forEach ops (runItemOp this).

Fixpoint addedAmount (ops : list ItemOp) : Z :=
  match ops with
  | [] => 0
  | OpAddItem _ amt :: rest => amt + addedAmount rest
  | OpRemoveItem _ _ :: rest => addedAmount rest
  end.

Fixpoint removedAmount (ops : list ItemOp) : Z :=
  match ops with
  | [] => 0
  | OpAddItem _ _ :: rest => removedAmount rest
  | OpRemoveItem _ amt :: rest => amt + removedAmount rest
  end.

(** Starting from an owned quantity [q]: amounts are non-negative, no
    removal exceeds the quantity owned at that point, and the quantity
    stays within [int]. *)
Fixpoint validItemOps (q : Z) (ops : list ItemOp) : Prop :=
  match ops with
  | [] => True
  | OpAddItem _ amt :: rest =>
      0 ≤ amt ∧ q + amt ≤ Int32.max_int ∧ validItemOps (q + amt) rest
  | OpRemoveItem _ amt :: rest =>
      0 ≤ amt ≤ q ∧ validItemOps (q - amt) rest
  end.

Definition profilesOf (w : World) : gmap ptr ItemProfile :=
  itemProfile <$> items w.

(** Every instance of the identifier of [prof] found in the inventory of
    [c] is the canonical instance of the owning map, indexed under its own
    item type. *)
Definition singleInstance (prof : ItemProfile) (w : World) (c : Character) : Prop :=
  ∀ (ty : ItemType) (i : ptr) (it : Item),
    i ∈ inventory (bag c) ty →
    items w !! i = Some it →
    jsonFileName (itemProfile it) = jsonFileName prof →
    itemMapper (bag c) !! jsonFileName prof = Some i ∧ ty = itemType prof.

(** The character at [this] owns the quantity [q] of the item [prof]:
    either no instance is stored and [q] is 0, or the canonical instance
    carries [q] and, when [q] is positive, is listed in the inventory. *)
Definition ownsQuantity (this : ptr) (prof : ItemProfile) (q : Z) (w : World)
  : Prop :=
  0 ≤ q ≤ Int32.max_int
  ∧ ∃ c : Character,
      characters w !! this = Some c
      ∧ match itemMapper (bag c) !! jsonFileName prof with
        | Some e =>
            ∃ it : Item,
              items w !! e = Some it ∧ itemProfile it = prof ∧ amount it = q
              ∧ (0 < q → e ∈ inventory (bag c) (itemType prof))
        | None => q = 0
        end
      ∧ singleInstance prof w c.

(** Scenario 2: a character with an empty bag (address 1) and two potion
    objects of the same definition (addresses 10 and 11). *)
Definition exWorldItems : World :=
  {| characters := {[ 1%nat := exCharacter 1 10 50 0%float noTargets ]};
     items := <[10%nat := exPotion 0]> (<[11%nat := exPotion 0]> ∅);
     callbacks := []; events := [] |}.

(** Scenario 3: a dagger (address 20) in the weapon slot, [n] swords
    (address 21) in the inventory. *)
Definition exWeapon (name : string) (n : Z) : Item :=
  {| itemProfile := {| jsonFileName := name; itemType := 0%nat |};
     itemKind := EquipmentItem {| equipmentType := EQUIPMENT_WEAPON;
                                  bonusPhysicalDamage := 5 |};
     amount := n |}.

Definition exArmed : Character :=
  upd_bag
    (λ _, {| inventory := <[0%nat := {[21%nat]}]> (λ _, ∅);
             itemMapper := <["dagger.json" := 20%nat]> {["sword.json" := 21%nat]};
             equipmentSlots := <[EQUIPMENT_WEAPON := Some 20%nat]> (λ _, None) |})
    (exCharacter 1 10 50 0%float noTargets).

Definition exWorldArmed (n : Z) : World :=
  {| characters := {[ 1%nat := exArmed ]};
     items := <[20%nat := exWeapon "dagger.json" 0]>
                {[ 21%nat := exWeapon "sword.json" n ]};
     callbacks := []; events := [] |}.

(** ** The map manager

    [GameMapManager] (map/GameMapManager.cc): the NPC spawning blacklist and
    the saved lock states of the portals of every map.  The blacklist is an
    [unordered_set] of file names; the portal states are an [unordered_map]
    from the file name of a map to a [vector] of (portal id, locked) pairs,
    kept in insertion order.  The other members ([_layer], [_world],
    [_gameMap], [_player], [_areNpcsAllowedToAct]) are not touched by the
    methods below. *)

Record GameMapManager := mkGameMapManager {
  npcSpawningBlacklist : gset string;
  allPortalStates : gmap string (list (Z * bool))
}.

Definition set_npcSpawningBlacklist (x : gset string) (m : GameMapManager)
  : GameMapManager :=
  {| npcSpawningBlacklist := x; allPortalStates := allPortalStates m |}.

Definition set_allPortalStates (x : gmap string (list (Z * bool)))
    (m : GameMapManager) : GameMapManager :=
  {| npcSpawningBlacklist := npcSpawningBlacklist m; allPortalStates := x |}.

Definition isNpcAllowedToSpawn (npcJsonFileName : string) (m : GameMapManager)
  : bool :=
  bool_decide (npcJsonFileName ∉ npcSpawningBlacklist m).

Definition setNpcAllowedToSpawn (npcJsonFileName : string) (canSpawn : bool)
    (m : GameMapManager) : GameMapManager :=
  if negb canSpawn && isNpcAllowedToSpawn npcJsonFileName m then
    set_npcSpawningBlacklist (npcSpawningBlacklist m ∪ {[npcJsonFileName]}) m
  else if canSpawn && negb (isNpcAllowedToSpawn npcJsonFileName m) then
    set_npcSpawningBlacklist (npcSpawningBlacklist m ∖ {[npcJsonFileName]}) m
  else m.

(** [std::find_if] over the vector, compared with its end. *)
Definition hasSavedPortalLockUnlockState (tmxMapFileName : string)
    (targetPortalId : Z) (m : GameMapManager) : bool :=
  match allPortalStates m !! tmxMapFileName with
  | None => false
  | Some v =>
      bool_decide
        (is_Some (list_find (λ entry : Z * bool, entry.1 = targetPortalId) v))
  end.

(** The loop of [isPortalLocked]: the lock state of the first entry with
    the given id. *)
Fixpoint isPortalLocked_loop (targetPortalId : Z) (v : list (Z * bool))
  : option bool :=
  match v with
  | [] => None
  | entry :: rest =>
      if entry.1 =? targetPortalId then Some entry.2
      else isPortalLocked_loop targetPortalId rest
  end.

(** [isPortalLocked] returns the lock state together with the warnings it
    logs. *)
Definition isPortalLocked (tmxMapFileName : string) (targetPortalId : Z)
    (m : GameMapManager) : bool * list Event :=
  match allPortalStates m !! tmxMapFileName with
  | None =>
      (false,
       [VGLOG LOG_WARN "Unable to find the corresponding portal vector"])
  | Some v =>
      match isPortalLocked_loop targetPortalId v with
      | Some locked => (locked, [])
      | None =>
          (false,
           [VGLOG LOG_WARN
              "Unable to find the corresponding entry in the portal vector"])
      end
  end.

(** The loop of [setPortalLocked]: the vector with the first entry of the
    given id rewritten, when there is one. *)
Fixpoint setPortalLocked_loop (targetPortalId : Z) (locked : bool)
    (v : list (Z * bool)) : option (list (Z * bool)) :=
  match v with
  | [] => None
  | entry :: rest =>
      if entry.1 =? targetPortalId then Some ((entry.1, locked) :: rest)
      else (entry ::.) <$> setPortalLocked_loop targetPortalId locked rest
  end.

Definition setPortalLocked (tmxMapFileName : string) (targetPortalId : Z)
    (locked : bool) (m : GameMapManager) : GameMapManager :=
  match allPortalStates m !! tmxMapFileName with
  | None =>
      set_allPortalStates
        (<[tmxMapFileName := [(targetPortalId, locked)]]> (allPortalStates m)) m
  | Some v =>
      match setPortalLocked_loop targetPortalId locked v with
      | Some v' =>
          set_allPortalStates (<[tmxMapFileName := v']> (allPortalStates m)) m
      | None =>
          set_allPortalStates
            (<[tmxMapFileName := v ++ [(targetPortalId, locked)]]>
               (allPortalStates m)) m
      end
  end.

(** The portal ids saved for a map, in the order of its vector. *)
Definition savedPortalIds (tmxMapFileName : string) (m : GameMapManager)
  : list Z :=
  match allPortalStates m !! tmxMapFileName with
  | None => []
  | Some v => v.*1
  end.

(** No vector holds two entries for one portal. *)
Definition portalIdsUnique (m : GameMapManager) : Prop :=
  ∀ tmxMapFileName : string, NoDup (savedPortalIds tmxMapFileName m).

(** A manager with one blacklisted NPC and the portals 0 (locked) and 1
    (unlocked) of one map saved. *)
Definition exGameMapManager : GameMapManager :=
  {| npcSpawningBlacklist := {["Resources/Database/character/slime.json"]};
     allPortalStates :=
       {["Map/prison_cell1.tmx" := [(0, true); (1, false)]]} |}.

(** ** Body definition and posture

    [Character::defineBody], [crouch], [getUpFromCrouching]. *)

Definition set_f_isCrouching (x : bool) (r : Flags) : Flags :=
  {| f_isFacingRight := f_isFacingRight r;
     f_isStartRunning := f_isStartRunning r;
     f_isStopRunning := f_isStopRunning r; f_isJumping := f_isJumping r;
     f_isCrouching := x;
     f_isGettingUpFromFalling := f_isGettingUpFromFalling r;
     f_isAttacking := f_isAttacking r;
     f_isDodgingBackward := f_isDodgingBackward r;
     f_isDodgingForward := f_isDodgingForward r;
     f_isInvincible := f_isInvincible r;
     f_isTakingDamage := f_isTakingDamage r; f_isAlerted := f_isAlerted r;
     f_isKilled := f_isKilled r; f_isSetToKill := f_isSetToKill r |}.

Section Posture.
(** [category_bits::kFeet] and [category_bits::kMeleeWeapon] of
    Constants.h. *)
Variables kFeet kMeleeWeapon : Z.

(** The default arguments of [redefineBodyFixture] and
    [redefineWeaponFixture], declared in Character.h. *)
Variables kDefaultBodyCategoryBits kDefaultBodyMaskBits : Z.
Variable kDefaultWeaponMaskBits : Z.

(** [newBody] is the body that [B2BodyBuilder::buildBody] returns for the
    requested type and position. *)
Definition defineBody (this : ptr) (newBody : Body)
    (bodyCategoryBits bodyMaskBits feetMaskBits weaponMaskBits : Z)
    (c : Character) : option Character :=
  let c := upd_physics (set_body (Some newBody)) c in
  c ← redefineBodyFixture this bodyCategoryBits bodyMaskBits c;
  c ← redefineFeetFixture kFeet this feetMaskBits c;
  redefineWeaponFixture kMeleeWeapon this weaponMaskBits c.

Definition crouch (this : ptr) (c : Character) : option Character :=
  if isCrouching c || isJumping c then Some c
  else
    let c := upd_flags (set_f_isCrouching true) c in
    c ← redefineBodyFixture this kDefaultBodyCategoryBits kDefaultBodyMaskBits c;
    redefineWeaponFixture kMeleeWeapon this kDefaultWeaponMaskBits c.

Definition getUpFromCrouching (this : ptr) (c : Character) : option Character :=
  if negb (isCrouching c) then Some c
  else
    let c := upd_flags (set_f_isCrouching false) c in
    c ← redefineBodyFixture this kDefaultBodyCategoryBits kDefaultBodyMaskBits c;
    redefineWeaponFixture kMeleeWeapon this kDefaultWeaponMaskBits c.
End Posture.

(** The fixture a slot of [_fixtures] points to, when the slot is set and
    the fixture is attached to the body. *)
Definition getFixture (ty : FixtureType) (c : Character) : option Fixture :=
  f ← fixtures (physics c) ty;
  b ← body (physics c);
  fixtureList b !! f.

(** The number of fixtures attached to the body. *)
Definition fixtureCount (c : Character) : option nat :=
  (λ b, size (fixtureList b)) <$> body (physics c).

(** The fixture allocator of the body hands out addresses not in use. *)
Definition freshFixtures (b : Body) : Prop :=
  ∀ g : ptr, (nextFixture b ≤ g)%nat → fixtureList b !! g = None.

(** A body as the builder returns it: no fixture attached yet. *)
Definition exNewBody : Body :=
  {| fixtureList := ∅; nextFixture := 0%nat;
     linearVelocity := (0%float, 0%float); impulses := [] |}.

(** A character before [defineBody]: no body, every fixture slot null. *)
Definition exUndefined : Character :=
  upd_physics (λ _, {| body := None; fixtures := λ _, None |})
    (exCharacter 1 10 50 0%float noTargets).

(** Two characters that differ at most in their physics. *)
Definition sameButPhysics (c c' : Character) : Prop :=
  characterProfile c' = characterProfile c ∧ flags c' = flags c
  ∧ overridingAttackState c' = overridingAttackState c
  ∧ sprite c' = sprite c ∧ targets c' = targets c ∧ bag c' = bag c.

(** The fixture slots of a character with a body: the allocator of the
    body hands out fresh addresses, every slot that is set holds an address
    handed out before, and no two slots share a fixture. *)
Definition fixturesWellFormed (c : Character) : Prop :=
  ∃ b : Body,
    body (physics c) = Some b
    ∧ freshFixtures b
    ∧ (∀ (ty : FixtureType) (f : ptr),
         fixtures (physics c) ty = Some f → (f < nextFixture b)%nat)
    ∧ (∀ (ty ty' : FixtureType) (f : ptr),
         fixtures (physics c) ty = Some f →
         fixtures (physics c) ty' = Some f → ty = ty').

(** ** What a call leaves alone

    A call preserves the observation [obs] at the addresses satisfying [P]
    when no run of it changes what [obs] sees of the characters there (nor
    makes one of them appear or disappear). *)

Definition preservesAt {X A : Type} (P : ptr → Prop) (obs : Character → X)
    (m : M A) : Prop :=
  ∀ (w : World) (a : A) (w' : World),
    m w = Some (a, w') →
    ∀ p : ptr, P p → obs <$> characters w' !! p = obs <$> characters w !! p.

Definition everywhere : ptr → Prop := λ _, True.

(** Scenario 3 before the dagger was bought: one sword (address 21) in the
    inventory, the weapon slot empty. *)
Definition exSwordOwner : Character :=
  upd_bag
    (λ _, {| inventory := <[0%nat := {[21%nat]}]> (λ _, ∅);
             itemMapper := {["sword.json" := 21%nat]};
             equipmentSlots := λ _, None |})
    (exCharacter 1 10 50 0%float noTargets).

Definition exWorldSword : World :=
  {| characters := {[ 1%nat := exSwordOwner ]};
     items := {[ 21%nat := exWeapon "sword.json" 1 ]};
     callbacks := []; events := [] |}.

(** ** Gold

    [Character::getGoldBalance], [addGold], [removeGold].  Each creates a
    gold coin object with [Item::create(assets::kGoldCoin)] and hands it to
    the inventory calls.  [Item::create] is defined in item/Item.cc: the
    object it returns for [assets::kGoldCoin] is the parameter [kGoldCoin],
    placed at an address of the item store not in use.  Objects are never
    taken out of the store: one that no owning map holds is garbage. *)

Definition createItem (it : Item) : M ptr :=
  w ← getWorld;
  let i := fresh (dom (items w)) in
  modifyWorld (λ w, set_items (<[i := it]> (items w)) w);;
  mret i.

Section Gold.
Variable kGoldCoin : Item.

Definition getGoldBalance (this : ptr) : M Z :=
  i ← createItem kGoldCoin;
  it ← getItem i;
  getItemAmount this (jsonFileName (itemProfile it)).

Definition addGold (this : ptr) (amt : Z) : M unit :=
  i ← createItem kGoldCoin;
  addItem this (Some i) amt.

Definition removeGold (this : ptr) (amt : Z) : M unit :=
  i ← createItem kGoldCoin;
  removeItem this (Some i) amt.
End Gold.

(** Every pointer in the inventory of the character at [this] points to an
    object of the item store. *)
Definition inventoryAlive (this : ptr) (w : World) : Prop :=
  ∀ (c : Character) (ty : ItemType) (j : ptr),
    characters w !! this = Some c →
    j ∈ inventory (bag c) ty → is_Some (items w !! j).

(** A gold coin object as [Item::create] returns it. *)
Definition exGoldCoin : Item :=
  {| itemProfile := {| jsonFileName := "Resources/Database/item/misc/gold_coin.json";
                       itemType := 2%nat |};
     itemKind := MiscItem;
     amount := 1 |}.

(** What [receiveDamage] and [inflictDamage] never touch of a character,
    and what they touch of the receiver only. *)
Definition belongings (c : Character)
  : Bag * Sprite * option State * option Party :=
  (bag c, sprite c, overridingAttackState c, party (targets c)).

Definition condition (c : Character) : Profile * Flags * Physics :=
  (characterProfile c, flags c, physics c).

(** ** Skills

    [Character::addSkill], [removeSkill].  A [Skill] is read through
    [getName()] and [getSkillProfile().skillType] only.  [_skillBook] holds
    the learned skills by type, [_skillMapper] owns them by name.  As with
    items, objects are never taken out of the store. *)

Abbreviation SkillType := nat (only parsing).

Record Skill := mkSkill {
  getName : string;
  skillType : SkillType
}.

(** The members of [Character] the two methods touch, the skill objects
    they reach, and the log. *)
Record Skills := mkSkills {
  skillObjects : gmap ptr Skill;
  skillBook : SkillType → gset ptr;
  skillMapper : gmap string ptr;
  skillLog : list Event
}.

Definition set_skillBook (x : SkillType → gset ptr) (s : Skills) : Skills :=
  {| skillObjects := skillObjects s; skillBook := x;
     skillMapper := skillMapper s; skillLog := skillLog s |}.

Definition set_skillMapper (x : gmap string ptr) (s : Skills) : Skills :=
  {| skillObjects := skillObjects s; skillBook := skillBook s;
     skillMapper := x; skillLog := skillLog s |}.

Definition set_skillLog (x : list Event) (s : Skills) : Skills :=
  {| skillObjects := skillObjects s; skillBook := skillBook s;
     skillMapper := skillMapper s; skillLog := x |}.

(** [assert(skill)] fails on a null pointer. *)
Definition addSkill (skill : option ptr) (s : Skills) : option Skills :=
  p ← skill;
  sk ← skillObjects s !! p;
  match skillMapper s !! getName sk with
  | Some _ =>
      Some (set_skillLog
              (skillLog s
               ++ [VGLOG LOG_WARN
                     ("This character has already learned the skill: "
                      +:+ getName sk)]) s)
  | None =>
      let s := set_skillBook
                 (<[skillType sk := skillBook s (skillType sk) ∪ {[p]}]>
                    (skillBook s)) s in
      Some (set_skillMapper (<[getName sk := p]> (skillMapper s)) s)
  end.

Definition removeSkill (skill : option ptr) (s : Skills) : option Skills :=
  p ← skill;
  sk ← skillObjects s !! p;
  match skillMapper s !! getName sk with
  | None =>
      Some (set_skillLog
              (skillLog s
               ++ [VGLOG LOG_WARN
                     ("This character has not yet learned the skill: "
                      +:+ getName sk)]) s)
  | Some _ =>
      let s := set_skillBook
                 (<[skillType sk := skillBook s (skillType sk) ∖ {[p]}]>
                    (skillBook s)) s in
      Some (set_skillMapper (delete (getName sk) (skillMapper s)) s)
  end.

(** The skill book and the owning map agree: the skill owned under a name
    bears that name and is listed under its type, and every skill listed
    under a type is of that type and is the one owned under its name. *)
Definition skillsConsistent (s : Skills) : Prop :=
  (∀ (name : string) (p : ptr),
     skillMapper s !! name = Some p →
     ∃ sk : Skill,
       skillObjects s !! p = Some sk ∧ getName sk = name
       ∧ p ∈ skillBook s (skillType sk))
  ∧ (∀ (ty : SkillType) (p : ptr),
       p ∈ skillBook s ty →
       ∃ sk : Skill,
         skillObjects s !! p = Some sk ∧ skillType sk = ty
         ∧ skillMapper s !! getName sk = Some p).

(** Two objects of the skill "Forward Slash" (addresses 30 and 31) and one
    of "Heal" (address 32); nothing learned yet. *)
Definition exSkills : Skills :=
  {| skillObjects :=
       <[30%nat := {| getName := "Forward Slash"; skillType := 0%nat |}]>
         (<[31%nat := {| getName := "Forward Slash"; skillType := 0%nat |}]>
            {[32%nat := {| getName := "Heal"; skillType := 1%nat |}]});
     skillBook := λ _, ∅; skillMapper := ∅; skillLog := [] |}.

(** ** Jumping, landing and stopping

    [Character::jump], [doubleJump], [jumpDown], [getUpFromFalling],
    [onFallToGroundOrPlatform], [stopRunning] and
    [maybeOverrideCurrentStateWithStopRunningState].  These methods touch
    the character alone.  A [Mover] is the character together with what
    only these methods use: the profile's [canDoubleJump], the members
    [_isJumpingDisallowed], [_isDoubleJumping], [_isOnPlatform] and
    [_previousBodyVelocity], the callbacks handed to
    [CallbackManager::runAfter] and the sounds played. *)

Definition set_f_isStopRunning (x : bool) (r : Flags) : Flags :=
  {| f_isFacingRight := f_isFacingRight r;
     f_isStartRunning := f_isStartRunning r;
     f_isStopRunning := x; f_isJumping := f_isJumping r;
     f_isCrouching := f_isCrouching r;
     f_isGettingUpFromFalling := f_isGettingUpFromFalling r;
     f_isAttacking := f_isAttacking r;
     f_isDodgingBackward := f_isDodgingBackward r;
     f_isDodgingForward := f_isDodgingForward r;
     f_isInvincible := f_isInvincible r;
     f_isTakingDamage := f_isTakingDamage r; f_isAlerted := f_isAlerted r;
     f_isKilled := f_isKilled r; f_isSetToKill := f_isSetToKill r |}.

Definition set_f_isJumping (x : bool) (r : Flags) : Flags :=
  {| f_isFacingRight := f_isFacingRight r;
     f_isStartRunning := f_isStartRunning r;
     f_isStopRunning := f_isStopRunning r; f_isJumping := x;
     f_isCrouching := f_isCrouching r;
     f_isGettingUpFromFalling := f_isGettingUpFromFalling r;
     f_isAttacking := f_isAttacking r;
     f_isDodgingBackward := f_isDodgingBackward r;
     f_isDodgingForward := f_isDodgingForward r;
     f_isInvincible := f_isInvincible r;
     f_isTakingDamage := f_isTakingDamage r; f_isAlerted := f_isAlerted r;
     f_isKilled := f_isKilled r; f_isSetToKill := f_isSetToKill r |}.

Definition set_f_isGettingUpFromFalling (x : bool) (r : Flags) : Flags :=
  {| f_isFacingRight := f_isFacingRight r;
     f_isStartRunning := f_isStartRunning r;
     f_isStopRunning := f_isStopRunning r; f_isJumping := f_isJumping r;
     f_isCrouching := f_isCrouching r;
     f_isGettingUpFromFalling := x;
     f_isAttacking := f_isAttacking r;
     f_isDodgingBackward := f_isDodgingBackward r;
     f_isDodgingForward := f_isDodgingForward r;
     f_isInvincible := f_isInvincible r;
     f_isTakingDamage := f_isTakingDamage r; f_isAlerted := f_isAlerted r;
     f_isKilled := f_isKilled r; f_isSetToKill := f_isSetToKill r |}.

Definition set_linearVelocity (x : b2Vec2) (r : Body) : Body :=
  {| fixtureList := fixtureList r; nextFixture := nextFixture r;
     linearVelocity := x; impulses := impulses r |}.

Definition set_isSensor (x : bool) (f : Fixture) : Fixture :=
  {| shape := shape f; categoryBits := categoryBits f; maskBits := maskBits f;
     isSensor := x; hasDensity := hasDensity f; userData := userData f |}.

(** The closures these methods hand to [CallbackManager::runAfter]. *)
Inductive Closure : Set :=
  | ClearStopRunning
  | ClearGettingUpFromFalling
  | ClearJumpingDisallowed
  | JumpAgain
  | ClearFeetSensor.

Record Mover := mkMover {
  self : Character;
  canDoubleJump : bool;
  isJumpingDisallowed : bool;
  isDoubleJumping : bool;
  isOnPlatform : bool;
  previousBodyVelocity : b2Vec2;
  scheduled : list (Closure * float);
  played : list string
}.

Definition set_self (x : Character) (s : Mover) : Mover :=
  {| self := x; canDoubleJump := canDoubleJump s;
     isJumpingDisallowed := isJumpingDisallowed s;
     isDoubleJumping := isDoubleJumping s; isOnPlatform := isOnPlatform s;
     previousBodyVelocity := previousBodyVelocity s;
     scheduled := scheduled s; played := played s |}.

Definition upd_self (f : Character → Character) (s : Mover) : Mover :=
  set_self (f (self s)) s.

Definition set_isJumpingDisallowed (x : bool) (s : Mover) : Mover :=
  {| self := self s; canDoubleJump := canDoubleJump s;
     isJumpingDisallowed := x;
     isDoubleJumping := isDoubleJumping s; isOnPlatform := isOnPlatform s;
     previousBodyVelocity := previousBodyVelocity s;
     scheduled := scheduled s; played := played s |}.

Definition set_isDoubleJumping (x : bool) (s : Mover) : Mover :=
  {| self := self s; canDoubleJump := canDoubleJump s;
     isJumpingDisallowed := isJumpingDisallowed s;
     isDoubleJumping := x; isOnPlatform := isOnPlatform s;
     previousBodyVelocity := previousBodyVelocity s;
     scheduled := scheduled s; played := played s |}.

(** [CallbackManager::the().runAfter(closure, delay)]. *)
Definition schedule (cl : Closure) (delay : float) (s : Mover) : Mover :=
  {| self := self s; canDoubleJump := canDoubleJump s;
     isJumpingDisallowed := isJumpingDisallowed s;
     isDoubleJumping := isDoubleJumping s; isOnPlatform := isOnPlatform s;
     previousBodyVelocity := previousBodyVelocity s;
     scheduled := scheduled s ++ [(cl, delay)]; played := played s |}.

(** [Audio::the().playSfx(fileName)]. *)
Definition playSfx (fileName : string) (s : Mover) : Mover :=
  {| self := self s; canDoubleJump := canDoubleJump s;
     isJumpingDisallowed := isJumpingDisallowed s;
     isDoubleJumping := isDoubleJumping s; isOnPlatform := isOnPlatform s;
     previousBodyVelocity := previousBodyVelocity s;
     scheduled := scheduled s; played := played s ++ [fileName] |}.

Definition stopRunning (s : Mover) : Mover :=
  schedule ClearStopRunning
    (bodyAnimationDuration (sprite (self s)) RUNNING_STOP)
    (upd_self (upd_flags (set_f_isStopRunning true)) s).

Definition getUpFromFalling (s : Mover) : Mover :=
  schedule ClearGettingUpFromFalling
    (bodyAnimationDuration (sprite (self s)) FALLING_GETUP)
    (upd_self (upd_flags (set_f_isGettingUpFromFalling true)) s).

(** [-4.5f] *)
Definition kHardLandingVelocityY : float := (-4.5)%float.

Definition onFallToGroundOrPlatform (s : Mover) : option Mover :=
  v ← GetLinearVelocity (self s);
  let s := if PrimFloat.ltb (snd v) kHardLandingVelocityY
           then getUpFromFalling s else s in
  Some (match getSfxFileName SFX_JUMP (self s) with
        | Some sfxFileName => playSfx sfxFileName s
        | None => s
        end).

Definition maybeOverrideCurrentStateWithStopRunningState (s : Mover)
  : option Mover :=
  let needToStopRunning := true in
  currentBodyVelocity ← GetLinearVelocity (self s);
  let needToStopRunning :=
    if PrimFloat.leb
         (PrimFloat.mul (moveSpeed (characterProfile (self s))) 4%float)
         (PrimFloat.abs (fst currentBodyVelocity))
    then true else needToStopRunning in
  if negb needToStopRunning then Some s
  else
    let kThreshold := kRunningVelocityX in
    let isMovingForward :=
      (isFacingRight (self s) && PrimFloat.ltb 0%float (fst currentBodyVelocity))
      || (negb (isFacingRight (self s))
          && PrimFloat.ltb (fst currentBodyVelocity) 0%float) in
    if PrimFloat.leb kThreshold (PrimFloat.abs (fst (previousBodyVelocity s)))
       && PrimFloat.ltb (PrimFloat.abs (fst currentBodyVelocity)) kThreshold
       && isMovingForward
    then Some (stopRunning s)
    else Some s.

(** [.2f] and [.25f] *)
Definition kJumpLockDuration : float := 0x1.99999ap-3%float.
Definition kQuarterSecond : float := 0.25%float.

(** [b2Body::SetLinearVelocity]. *)
Definition SetLinearVelocity (v : b2Vec2) (c : Character) : option Character :=
  b ← body (physics c);
  Some (upd_physics (set_body (Some (set_linearVelocity v b))) c).

(** [_fixtures[ty]->SetSensor(sensor)]. *)
Definition SetSensor (ty : FixtureType) (sensor : bool) (c : Character)
  : option Character :=
  f ← fixtures (physics c) ty;
  b ← body (physics c);
  fx ← fixtureList b !! f;
  Some (upd_physics
          (set_body
             (Some (set_fixtureList
                      (<[f := set_isSensor sensor fx]> (fixtureList b)) b)))
          c).

(** An impulse applied at the world centre of the body is an impulse to
    its centre. *)
Definition jump (s : Mover) : option Mover :=
  if isJumpingDisallowed s
     || (negb (canDoubleJump s) && isJumping (self s))
     || (canDoubleJump s && isDoubleJumping s)
  then Some s
  else
    s ← (if isJumping (self s) then
           let s := set_isDoubleJumping true s in
           let s := upd_self (runAnimation JUMPING false) s in
           velocity ← GetLinearVelocity (self s);
           c ← SetLinearVelocity (fst velocity, 0%float) (self s);
           Some (set_self c s)
         else Some s);
    let s := set_isJumpingDisallowed true s in
    let s := schedule ClearJumpingDisallowed kJumpLockDuration s in
    let s := upd_self (upd_flags (set_f_isJumping true)) s in
    c ← ApplyLinearImpulseToCenter
           (0%float, jumpHeight (characterProfile (self s))) (self s);
    Some (set_self c s).

Definition doubleJump (s : Mover) : option Mover :=
  s ← jump s;
  Some (schedule JumpAgain kQuarterSecond s).

Definition jumpDown (s : Mover) : option Mover :=
  if negb (isOnPlatform s) then Some s
  else
    c ← SetSensor FEET true (self s);
    Some (schedule ClearFeetSensor kQuarterSecond (set_self c s)).

(** Running a scheduled closure. *)
Definition fire (cl : Closure) (s : Mover) : option Mover :=
  match cl with
  | ClearStopRunning =>
      Some (upd_self (upd_flags (set_f_isStopRunning false)) s)
  | ClearGettingUpFromFalling =>
      Some (upd_self (upd_flags (set_f_isGettingUpFromFalling false)) s)
  | ClearJumpingDisallowed => Some (set_isJumpingDisallowed false s)
  | JumpAgain => jump s
  | ClearFeetSensor =>
      c ← SetSensor FEET false (self s);
      Some (set_self c s)
  end.

(** The calls a mover receives, in a sequence. *)
Inductive Move : Set :=
  | DoJump
  | DoDoubleJump
  | DoJumpDown
  | DoLand
  | DoMaybeStopRunning
  | DoFire (cl : Closure).

Definition runMove (mv : Move) (s : Mover) : option Mover :=
  match mv with
  | DoJump => jump s
  | DoDoubleJump => doubleJump s
  | DoJumpDown => jumpDown s
  | DoLand => onFallToGroundOrPlatform s
  | DoMaybeStopRunning => maybeOverrideCurrentStateWithStopRunningState s
  | DoFire cl => fire cl s
  end.

Fixpoint runMoves (mvs : list Move) (s : Mover) : option Mover :=
  match mvs with
  | [] => Some s
  | mv :: rest => s' ← runMove mv s; runMoves rest s'
  end.

(** When [jump] returns at once. *)
Definition jumpBlocked (s : Mover) : bool :=
  isJumpingDisallowed s
  || (negb (canDoubleJump s) && isJumping (self s))
  || (canDoubleJump s && isDoubleJumping s).

(** A mover at rest before, moving at velocity [v] now. *)
Definition exMover (canDoubleJump isOnPlatform : bool) (v : b2Vec2) : Mover :=
  {| self :=
       upd_physics
         (λ ph, {| body := set_linearVelocity v <$> body ph;
                   fixtures := fixtures ph |})
         (exCharacter 1 10 50 0%float noTargets);
     canDoubleJump := canDoubleJump;
     isJumpingDisallowed := false; isDoubleJumping := false;
     isOnPlatform := isOnPlatform;
     previousBodyVelocity := (0%float, 0%float);
     scheduled := []; played := [] |}.

(** * Properties *)

(** ** Machine integers *)

Lemma wrap_in_range (z : Z) : Int32.in_range z → Int32.wrap z = z.
Proof.
  unfold Int32.in_range, Int32.min_int, Int32.max_int, Int32.wrap.
  intros H. rewrite Z.mod_small; lia.
Qed.

Lemma wrap_range (z : Z) : Int32.in_range (Int32.wrap z).
Proof.
  unfold Int32.in_range, Int32.min_int, Int32.max_int, Int32.wrap.
  pose proof (Z.mod_pos_bound (z + 2 ^ 31) (2 ^ 32)). lia.
Qed.

(** ** Machine floats *)

(** [float_add] rounds to binary32 where the binary64 sum would be exact:
    next to 1, whose binary32 neighbour is [1 + 2^-23], the term [2^-30] is
    absorbed, [2^-23] is kept, and the tie [2^-24] goes to the even
    neighbour 1. *)
Lemma float_add_rounds :
  float_add 1%float 0x1p-30%float = 1%float
  ∧ float_add 1%float 0x1p-23%float = 0x1.000002p0%float
  ∧ float_add 1%float 0x1p-24%float = 1%float
  ∧ float_add 3%float 0.5%float = 3.5%float.
Proof. repeat split; vm_compute; reflexivity. Qed.

(** ** State machine *)

(** C5.  With a body moving at velocity [v], [determineState] returns exactly
    the first match of the specification's priority list (KILLED,
    FALLING_GETUP, the attacking variant, DODGING_BACKWARD, DODGING_FORWARD,
    FALLING below -2.5, JUMPING, CROUCHING, RUNNING_START, RUNNING_STOP,
    RUNNING above .01f, else IDLE), and any character with the same flags,
    override, weapon slot occupancy and velocity is given the same state. *)
Theorem determineState_priority (c : Character) (v : b2Vec2) :
  GetLinearVelocity c = Some v →
  determineState c = Some (firstMatch (priorityList (stateInputs c) v) IDLE)
  ∧ ∀ c' : Character,
      stateInputs c' = stateInputs c →
      GetLinearVelocity c' = Some v →
      determineState c' = determineState c.
Proof.
  assert (Hspec : ∀ c0 : Character, GetLinearVelocity c0 = Some v →
            determineState c0
            = Some (firstMatch (priorityList (stateInputs c0) v) IDLE)).
  { intros c0 Hv. unfold determineState, determineAttackState, attackingVariant.
    rewrite Hv. unfold isCrouching, isJumping, kFallingVelocityY. simpl.
    repeat (match goal with |- context [if ?b then _ else _] =>
              destruct b; try reflexivity end). }
  intros Hv. split; [by apply Hspec|].
  intros c' Hin Hv'. rewrite (Hspec c' Hv'), (Hspec c Hv), Hin. reflexivity.
Qed.

Lemma determineState_priority_witness :
  determineState (exCharacter 1 10 50 3%float noTargets) = Some RUNNING.
Proof.
  destruct (determineState_priority (exCharacter 1 10 50 3%float noTargets)
              (3%float, 0%float) eq_refl) as [H _].
  rewrite H. reflexivity.
Defined.

(** ** Attack animation rotation *)

Lemma runAnimation_kAttackAnimationIdxMax (s : State) (loop : bool) (c : Character) :
  kAttackAnimationIdxMax (sprite (runAnimation s loop c))
  = kAttackAnimationIdxMax (sprite c).
Proof. unfold runAnimation. repeat case_decide; reflexivity. Qed.

Lemma runAnimation_attacking_idx (loop : bool) (c : Character) :
  0 < kAttackAnimationIdxMax (sprite c) ≤ Int32.max_int →
  0 ≤ attackAnimationIdx (sprite c) < kAttackAnimationIdxMax (sprite c) →
  attackAnimationIdx (sprite (runAnimation ATTACKING loop c))
  = (attackAnimationIdx (sprite c) + 1) mod kAttackAnimationIdxMax (sprite c).
Proof.
  intros Hmax Hidx. unfold runAnimation.
  repeat case_decide; try congruence. simpl.
  unfold Int32.rem, Int32.add.
  rewrite wrap_in_range
    by (unfold Int32.in_range, Int32.min_int, Int32.max_int in *; lia).
  apply Z.rem_mod_nonneg; lia.
Qed.

Lemma runAnimation_other_idx (s : State) (loop : bool) (c : Character) :
  s ≠ ATTACKING →
  attackAnimationIdx (sprite (runAnimation s loop c))
  = attackAnimationIdx (sprite c).
Proof.
  intros Hs. unfold runAnimation.
  repeat case_decide; try congruence. reflexivity.
Qed.

(** C6 (as amended).  Starting from an index in range, after any list of
    dispatches the attack animation index is the initial index plus the
    number of dispatches of the base ATTACKING state, modulo
    [kAttackAnimationIdxMax]; it therefore stays in
    [[0, kAttackAnimationIdxMax)] whatever states are dispatched, and
    [k] ATTACKING dispatches in a row from index 0 leave it at [k mod
    kAttackAnimationIdxMax]. *)
Theorem attackAnimationIdx_rotation (c : Character) (states : list State) :
  0 < kAttackAnimationIdxMax (sprite c) ≤ Int32.max_int →
  0 ≤ attackAnimationIdx (sprite c) < kAttackAnimationIdxMax (sprite c) →
  let idxMax := kAttackAnimationIdxMax (sprite c) in
  let c' := runAnimations states c in
  kAttackAnimationIdxMax (sprite c') = idxMax
  ∧ attackAnimationIdx (sprite c')
    = (attackAnimationIdx (sprite c)
       + Z.of_nat (count_occ State_eq_dec states ATTACKING)) mod idxMax
  ∧ 0 ≤ attackAnimationIdx (sprite c') < idxMax
  ∧ (attackAnimationIdx (sprite c) = 0 →
     ∀ k : nat,
       attackAnimationIdx (sprite (runAnimations (replicate k ATTACKING) c))
       = Z.of_nat k mod idxMax).
Proof.
  intros Hmax Hidx idxMax c'. subst idxMax c'.
  assert (Hgen : ∀ (l : list State) (c0 : Character),
    0 < kAttackAnimationIdxMax (sprite c0) ≤ Int32.max_int →
    0 ≤ attackAnimationIdx (sprite c0) < kAttackAnimationIdxMax (sprite c0) →
    kAttackAnimationIdxMax (sprite (runAnimations l c0))
    = kAttackAnimationIdxMax (sprite c0)
    ∧ attackAnimationIdx (sprite (runAnimations l c0))
      = (attackAnimationIdx (sprite c0)
         + Z.of_nat (count_occ State_eq_dec l ATTACKING))
        mod kAttackAnimationIdxMax (sprite c0)).
  { induction l as [|s l IH]; intros c0 Hm Hi.
    - simpl. split; [reflexivity|]. rewrite Z.add_0_r, Z.mod_small; lia.
    - cbn [runAnimations count_occ].
      pose proof (runAnimation_kAttackAnimationIdxMax s false c0) as Hk.
      destruct (State_eq_dec s ATTACKING) as [->|Hne].
      + pose proof (runAnimation_attacking_idx false c0 Hm Hi) as Ha.
        destruct (IH (runAnimation ATTACKING false c0)) as [IH1 IH2].
        * rewrite Hk. exact Hm.
        * rewrite Hk, Ha. apply Z.mod_pos_bound. lia.
        * rewrite IH1, IH2, Hk, Ha. split; [reflexivity|].
          rewrite Zplus_mod_idemp_l. f_equal. lia.
      + pose proof (runAnimation_other_idx s false c0 Hne) as Ha.
        destruct (IH (runAnimation s false c0)) as [IH1 IH2].
        * rewrite Hk. exact Hm.
        * rewrite Hk, Ha. exact Hi.
        * rewrite IH1, IH2, Hk, Ha. split; reflexivity. }
  destruct (Hgen states c Hmax Hidx) as [H1 H2].
  split; [exact H1|]. split; [exact H2|]. split.
  - rewrite H2. apply Z.mod_pos_bound. lia.
  - intros H0 k. destruct (Hgen (replicate k ATTACKING) c Hmax Hidx) as [_ H3].
    rewrite H3, H0. f_equal.
    assert (Hcount : ∀ n : nat,
              count_occ State_eq_dec (replicate n ATTACKING) ATTACKING = n).
    { clear. induction n as [|n IHn]; [reflexivity|].
      cbn [replicate count_occ].
      destruct (State_eq_dec ATTACKING ATTACKING); [|congruence].
      by rewrite IHn. }
    rewrite Hcount. lia.
Qed.

Lemma attackAnimationIdx_rotation_witness :
  attackAnimationIdx
    (sprite (runAnimations
               [ATTACKING; ATTACKING_CROUCH; ATTACKING; ATTACKING; ATTACKING]
               (exAttacker 0 3))) = 1.
Proof.
  destruct (attackAnimationIdx_rotation (exAttacker 0 3)
              [ATTACKING; ATTACKING_CROUCH; ATTACKING; ATTACKING; ATTACKING])
    as (_ & H & _).
  - unfold Int32.max_int. simpl. lia.
  - simpl. lia.
  - exact H.
Defined.

(** C6, the claim as worded fails: a dispatch of an attack state other than
    the base ATTACKING one (here ATTACKING_UNARMED, with three attack
    animations and the index at 0) does not advance the index. *)
Lemma attackAnimationIdx_unarmed_counterexample :
  attackAnimationIdx (sprite (runAnimation ATTACKING_UNARMED false (exAttacker 0 3)))
  ≠ (attackAnimationIdx (sprite (exAttacker 0 3)) + 1)
    mod kAttackAnimationIdxMax (sprite (exAttacker 0 3)).
Proof. vm_compute. discriminate. Qed.

(** ** Experience *)

Section ExperienceProperties.
Variable getNextLevelExp : Z → Z.
Hypothesis thresholds_positive : ∀ l : Z, 0 < getNextLevelExp l.

Lemma addExp_loop_spec (k : nat) :
  ∀ thisExp thisLevel : Z,
    thisExp ≤ Z.of_nat k →
    Int32.in_range thisExp →
    Int32.in_range thisLevel →
    thisLevel + Z.max 0 thisExp ≤ Int32.max_int →
    ∃ n : nat,
      (n ≤ k)%nat
      ∧ (∀ fuel : nat, (n ≤ fuel)%nat →
           addExp_loop getNextLevelExp fuel thisExp thisLevel
           = Some (thisExp - thresholdSum getNextLevelExp thisLevel n,
                   thisLevel + Z.of_nat n))
      ∧ thisExp - thresholdSum getNextLevelExp thisLevel n
        < getNextLevelExp (thisLevel + Z.of_nat n)
      ∧ (∀ m : nat, (m < n)%nat →
           thresholdSum getNextLevelExp thisLevel (S m) ≤ thisExp).
Proof.
  induction k as [|k IH]; intros e l Hk He Hl Hsum.
  - exists O. pose proof (thresholds_positive l) as Hpos.
    split; [lia|]. split; [|split].
    + intros fuel _. rewrite Z.sub_0_r, Z.add_0_r.
      destruct fuel; simpl; (destruct (Z.leb_spec (getNextLevelExp l) e); [lia|done]).
    + simpl. rewrite Z.add_0_r. lia.
    + intros m Hm. lia.
  - pose proof (thresholds_positive l) as Hpos.
    destruct (Z.leb_spec (getNextLevelExp l) e) as [Hge|Hlt].
    + assert (Hsub : Int32.sub e (getNextLevelExp l) = e - getNextLevelExp l).
      { apply wrap_in_range. unfold Int32.in_range, Int32.min_int, Int32.max_int in *. lia. }
      assert (Hadd : Int32.add l 1 = l + 1).
      { apply wrap_in_range. unfold Int32.in_range, Int32.min_int, Int32.max_int in *. lia. }
      destruct (IH (e - getNextLevelExp l) (l + 1)) as (n & Hn & Hrun & Hstop & Hcross).
      * lia.
      * unfold Int32.in_range, Int32.min_int, Int32.max_int in *. lia.
      * unfold Int32.in_range, Int32.min_int, Int32.max_int in *. lia.
      * lia.
      * exists (S n). split; [lia|]. split; [|split].
        -- intros fuel Hfuel. destruct fuel as [|fuel]; [lia|].
           cbn [addExp_loop thresholdSum].
           destruct (Z.leb_spec (getNextLevelExp l) e); [|lia].
           rewrite Hsub, Hadd, Hrun by lia. f_equal. f_equal; lia.
        -- cbn [thresholdSum].
           replace (l + Z.of_nat (S n)) with (l + 1 + Z.of_nat n) by lia. lia.
        -- intros m Hm. destruct m as [|m].
           ++ simpl. lia.
           ++ specialize (Hcross m ltac:(lia)).
              change (thresholdSum getNextLevelExp l (S (S m)))
                with (getNextLevelExp l
                      + thresholdSum getNextLevelExp (l + 1) (S m)).
              lia.
    + exists O. split; [lia|]. split; [|split].
      * intros fuel _. rewrite Z.sub_0_r, Z.add_0_r.
        destruct fuel; simpl; (destruct (Z.leb_spec (getNextLevelExp l) e); [lia|done]).
      * simpl. rewrite Z.add_0_r. lia.
      * intros m Hm. lia.
Qed.

End ExperienceProperties.

(** C10.  When every threshold of the experience table is positive and the
    sums stay within [int], [addExp] terminates (any fuel of at least the
    number [n] of levels gained gives the same result); afterwards the
    experience is below the threshold of the new level, the level has grown
    by exactly [n], the number of thresholds crossed, and the experience is
    the old experience plus the gain minus the thresholds of the [n] levels
    gained.  The gain need not even be non-negative. *)
Theorem addExp_levels_up (getNextLevelExp : Z → Z) (c : Character) (gain : Z) :
  (∀ l : Z, 0 < getNextLevelExp l) →
  Int32.in_range (exp (characterProfile c) + gain) →
  Int32.in_range (level (characterProfile c)) →
  level (characterProfile c) + Z.max 0 (exp (characterProfile c) + gain)
    ≤ Int32.max_int →
  ∃ (n : nat) (c' : Character),
    (∀ fuel : nat, (n ≤ fuel)%nat →
       addExp getNextLevelExp fuel gain c = Some c')
    ∧ level (characterProfile c')
      = level (characterProfile c) + Z.of_nat n
    ∧ exp (characterProfile c')
      = exp (characterProfile c) + gain
        - thresholdSum getNextLevelExp (level (characterProfile c)) n
    ∧ exp (characterProfile c')
      < getNextLevelExp (level (characterProfile c'))
    ∧ (∀ m : nat, (m < n)%nat →
         thresholdSum getNextLevelExp (level (characterProfile c)) (S m)
         ≤ exp (characterProfile c) + gain).
Proof.
  intros Hpos Hexp Hlevel Hsum.
  set (e := exp (characterProfile c) + gain) in *.
  set (l := level (characterProfile c)) in *.
  destruct (addExp_loop_spec getNextLevelExp Hpos (Z.to_nat e) e l)
    as (n & _ & Hrun & Hstop & Hcross); [lia|done|done|done|].
  exists n.
  exists (upd_characterProfile
            (λ p, set_level (l + Z.of_nat n)
                    (set_exp (e - thresholdSum getNextLevelExp l n) p)) c).
  split; [|simpl; auto].
  intros fuel Hfuel. unfold addExp.
  replace (Int32.add (exp (characterProfile c)) gain) with e
    by (symmetry; by apply wrap_in_range).
  fold l. rewrite (Hrun fuel Hfuel). reflexivity.
Qed.

Lemma addExp_levels_up_witness :
  ∃ (n : nat) (c' : Character),
    (∀ fuel : nat, (n ≤ fuel)%nat →
       addExp exNextLevelExp fuel 250 (exAttacker 0 3) = Some c')
    ∧ level (characterProfile c') = 1 + Z.of_nat n
    ∧ exp (characterProfile c') = 0 + 250 - thresholdSum exNextLevelExp 1 n
    ∧ exp (characterProfile c') < exNextLevelExp (level (characterProfile c'))
    ∧ (∀ m : nat, (m < n)%nat → thresholdSum exNextLevelExp 1 (S m) ≤ 0 + 250).
Proof.
  apply (addExp_levels_up exNextLevelExp (exAttacker 0 3) 250).
  - intros l. unfold exNextLevelExp. lia.
  - unfold Int32.in_range, Int32.min_int, Int32.max_int. simpl. lia.
  - unfold Int32.in_range, Int32.min_int, Int32.max_int. simpl. lia.
  - unfold Int32.max_int. simpl. lia.
Defined.

Example addExp_250 :
  (λ c, (level (characterProfile c), exp (characterProfile c)))
    <$> addExp exNextLevelExp 2 250 (exAttacker 0 3) = Some (3, 50).
Proof. reflexivity. Qed.

(** ** Running method calls on a world *)

Lemma mbind_Some {A B : Type} (m : M A) (f : A → M B) (w w' : World) (a : A) :
  m w = Some (a, w') → (m ≫= f) w = f a w'.
Proof. intros H. unfold mbind, M_bind. rewrite H. reflexivity. Qed.

Lemma mbind_None {A B : Type} (m : M A) (f : A → M B) (w : World) :
  m w = None → (m ≫= f) w = None.
Proof. intros H. unfold mbind, M_bind. rewrite H. reflexivity. Qed.

Lemma mbind_inv {A B : Type} (m : M A) (f : A → M B) (w w'' : World) (b : B) :
  (m ≫= f) w = Some (b, w'') →
  ∃ (a : A) (w' : World), m w = Some (a, w') ∧ f a w' = Some (b, w'').
Proof.
  unfold mbind, M_bind. destruct (m w) as [[a w']|]; [|discriminate].
  intros H. by exists a, w'.
Qed.

Lemma getCharacter_Some (p : ptr) (w : World) (c : Character) :
  characters w !! p = Some c → getCharacter p w = Some (c, w).
Proof. intros H. unfold getCharacter, getWorld, mbind, M_bind. by rewrite H. Qed.

Lemma getCharacter_inv (p : ptr) (w w' : World) (c : Character) :
  getCharacter p w = Some (c, w') → w' = w ∧ characters w !! p = Some c.
Proof.
  unfold getCharacter, getWorld, mbind, M_bind, deref.
  destruct (characters w !! p); [|discriminate].
  unfold mret, M_ret. intros [= -> ->]. done.
Qed.

Lemma updateCharacter_Some (p : ptr) (f : Character → option Character)
    (w : World) (c c' : Character) :
  characters w !! p = Some c → f c = Some c' →
  updateCharacter p f w
  = Some (tt, set_characters (<[p := c']> (characters w)) w).
Proof.
  intros H Hf. unfold updateCharacter.
  rewrite (mbind_Some _ _ _ _ _ (getCharacter_Some _ _ _ H)).
  rewrite Hf. reflexivity.
Qed.

Lemma updateCharacter_inv (p : ptr) (f : Character → option Character)
    (w w' : World) :
  updateCharacter p f w = Some (tt, w') →
  ∃ c c' : Character,
    characters w !! p = Some c ∧ f c = Some c'
    ∧ w' = set_characters (<[p := c']> (characters w)) w.
Proof.
  unfold updateCharacter. intros H.
  apply mbind_inv in H as (c & w1 & Hget & H).
  apply getCharacter_inv in Hget as [-> Hc].
  destruct (f c) as [c'|] eqn:Hf; [|discriminate].
  exists c, c'. split; [done|]. split; [done|].
  cbn in H. by injection H as <-.
Qed.

Lemma alter_as_insert (f : Character → Character) (p : ptr)
    (m : gmap ptr Character) (c : Character) :
  m !! p = Some c → <[p := f c]> m = alter f p m.
Proof.
  intros H. apply map_eq. intros q. rewrite lookup_alter, lookup_insert.
  case_decide; [subst q; by rewrite H|done].
Qed.

Lemma modifyCharacter_Some (p : ptr) (f : Character → Character)
    (w : World) (c : Character) :
  characters w !! p = Some c →
  modifyCharacter p f w
  = Some (tt, set_characters (alter f p (characters w)) w).
Proof.
  intros H. unfold modifyCharacter.
  rewrite (updateCharacter_Some p _ w c (f c) H eq_refl).
  by rewrite (alter_as_insert f p _ c H).
Qed.

Lemma modifyCharacter_inv (p : ptr) (f : Character → Character) (w w' : World) :
  modifyCharacter p f w = Some (tt, w') →
  ∃ c : Character,
    characters w !! p = Some c
    ∧ w' = set_characters (alter f p (characters w)) w.
Proof.
  unfold modifyCharacter. intros H.
  apply updateCharacter_inv in H as (c & c' & Hc & [= <-] & ->).
  exists c. split; [done|]. by rewrite (alter_as_insert f p _ c Hc).
Qed.

Lemma getItem_Some (p : ptr) (w : World) (i : Item) :
  items w !! p = Some i → getItem p w = Some (i, w).
Proof. intros H. unfold getItem, getWorld, mbind, M_bind. by rewrite H. Qed.

Lemma modifyItem_Some (p : ptr) (f : Item → Item) (w : World) (i : Item) :
  items w !! p = Some i →
  modifyItem p f w = Some (tt, set_items (<[p := f i]> (items w)) w).
Proof.
  intros H. unfold modifyItem.
  by rewrite (mbind_Some _ _ _ _ _ (getItem_Some _ _ _ H)).
Qed.

Lemma lookup_alterAll_notin g (l : list ptr) (m : gmap ptr Character) (p : ptr) :
  p ∉ l → alterAll g l m !! p = m !! p.
Proof.
  revert m. induction l as [|a l IH]; intros m Hp; [done|].
  cbn [alterAll foldl]. fold (alterAll g l (alter (g a) a m)).
  rewrite IH by set_solver. rewrite lookup_alter_ne; [done|set_solver].
Qed.

Lemma lookup_alterAll g (l : list ptr) (m : gmap ptr Character) (p : ptr) :
  NoDup l →
  alterAll g l m !! p = if decide (p ∈ l) then g p <$> m !! p else m !! p.
Proof.
  revert m. induction l as [|a l IH]; intros m Hnd.
  - rewrite decide_False by set_solver. done.
  - apply list.NoDup_cons in Hnd as [Ha Hnd].
    cbn [alterAll foldl]. fold (alterAll g l (alter (g a) a m)).
    destruct (decide (p = a)) as [->|Hne].
    + rewrite lookup_alterAll_notin by done.
      rewrite lookup_alter_eq. rewrite decide_True by apply list_elem_of_here.
      done.
    + rewrite IH by done. rewrite lookup_alter_ne by done.
      destruct (decide (p ∈ l)).
      * rewrite decide_True by (by apply list_elem_of_further). done.
      * rewrite decide_False; [done|].
        intros [->|Hin]%elem_of_cons; done.
Qed.

Lemma forEach_alter (g : ptr → Character → Character) (body : ptr → M unit) :
  (∀ (a : ptr) (w : World) (c : Character),
     characters w !! a = Some c →
     body a w = Some (tt, set_characters (alter (g a) a (characters w)) w)) →
  ∀ (l : list ptr) (w : World),
    (∀ a : ptr, a ∈ l → is_Some (characters w !! a)) →
    forEach l body w
    = Some (tt, set_characters (alterAll g l (characters w)) w).
Proof.
  intros Hbody. induction l as [|a l IH]; intros w Hl.
  - cbn. by destruct w.
  - destruct (Hl a) as [c Hc]; [set_solver|].
    cbn [forEach].
    rewrite (mbind_Some _ _ _ _ _ (Hbody a w c Hc)).
    rewrite IH.
    + reflexivity.
    + intros b Hb. cbn. rewrite lookup_alter.
      case_decide; [subst; rewrite Hc; eauto|apply Hl; set_solver].
Qed.

(** Unfolds the primitives of [M], so that a call on a world given by its
    fields computes. *)
Ltac munfold :=
  unfold modifyCharacter, updateCharacter, getCharacter, getItem, modifyItem,
    notify, runAfter, getWorld, modifyWorld, deref, crash, when,
    mbind, M_bind, mret, M_ret in *.

Lemma lookup_alter_Some (f : Character → Character) (p q : ptr)
    (m : gmap ptr Character) (c : Character) :
  m !! q = Some c →
  alter f p m !! q = Some (if decide (p = q) then f c else c).
Proof.
  intros H. destruct (decide (p = q)) as [->|Hne].
  - by rewrite lookup_alter_eq, H.
  - by rewrite lookup_alter_ne.
Qed.

Lemma lookup_alterAll_Some g (l : list ptr) (m : gmap ptr Character)
    (q : ptr) (c : Character) :
  NoDup l → m !! q = Some c →
  alterAll g l m !! q = Some (if decide (q ∈ l) then g q c else c).
Proof.
  intros Hnd H. rewrite lookup_alterAll by done. case_decide; by rewrite H.
Qed.

Lemma mbind_assoc_at {A B C : Type} (m : M A) (f : A → M B) (g : B → M C)
    (w : World) :
  ((m ≫= f) ≫= g) w = (m ≫= (λ a, f a ≫= g)) w.
Proof. unfold mbind, M_bind. by destruct (m w) as [[a w']|]. Qed.

(** Steps through a call one statement at a time: [run lem] rewrites the
    first statement with the equation [lem] of a primitive, [run_with]
    with any tactic proving what that statement returns. *)
Ltac step_world :=
  unfold set_callbacks, set_events, set_characters, set_items;
  cbn [characters items callbacks events].

Ltac run_with tac :=
  rewrite ?mbind_assoc_at;
  erewrite mbind_Some; [|tac];
  step_world.

Lemma lookup_alter_Some_eq (f : Character → Character) (p : ptr)
    (m : gmap ptr Character) (c : Character) :
  m !! p = Some c → alter f p m !! p = Some (f c).
Proof. intros H. by rewrite lookup_alter_eq, H. Qed.

(** Looks a character up through the updates made so far. *)
Ltac solve_lookup :=
  repeat first
    [ eassumption
    | eapply lookup_alter_Some_eq
    | eapply lookup_alter_Some
    | eapply lookup_alterAll_Some; [apply NoDup_elements|] ].

Ltac run lem :=
  run_with ltac:(eapply lem; step_world; try eassumption; try reflexivity).

(** Inverts a successful run of [m ≫= f] into runs of [m] and of [f]. *)
Tactic Notation "minv" hyp(H) "as" ident(a) ident(w) ident(H1) :=
  apply mbind_inv in H as (a & w & H1 & H);
  match type of a with unit => destruct a | _ => idtac end.

Ltac mexec := repeat (progress (cbn; rewrite ?lookup_insert_eq)).

(** ** Fixtures *)

(** The sibling [redefineWeaponFixture] destroys and rebuilds its own
    fixture: the BODY and FEET slots keep their fixtures, which stay
    attached. *)
Lemma redefineWeaponFixture_frame (kMeleeWeapon : Z) (this : ptr) (mask : Z)
    (c c' : Character) (ty : FixtureType) :
  redefineWeaponFixture kMeleeWeapon this mask c = Some c' →
  ty ≠ WEAPON →
  fixtures (physics c') ty = fixtures (physics c) ty.
Proof.
  unfold redefineWeaponFixture. intros H Hty.
  destruct (fixtures (physics c) WEAPON) as [f|] eqn:Hw; simpl in H.
  - destruct (body (physics c)) as [b|]; [|discriminate]. simpl in H.
    destruct (fixtureList b !! f) as [fx|]; [|discriminate]. simpl in H.
    injection H as <-. simpl.
    unfold insert, fn_insert. repeat case_decide; congruence.
  - destruct (body (physics c)) as [b|]; [|discriminate]. simpl in H.
    injection H as <-. simpl.
    unfold insert, fn_insert. repeat case_decide; congruence.
Qed.

(** C9 (the code departs from the claim).  On a character whose FEET and
    BODY fixtures are both defined and attached, [redefineFeetFixture]
    detaches the BODY fixture and nulls the BODY slot; the old FEET fixture
    stays attached to the body, and a new FEET fixture that inherits the old
    mask bits is added.  Only the WEAPON slot is left as it was. *)
Theorem redefineFeetFixture_destroys_body (kFeet : Z) (this : ptr) (mask : Z)
    (c : Character) (b : Body) (feet bodyFixture : ptr) (ffx bfx : Fixture) :
  body (physics c) = Some b →
  fixtures (physics c) FEET = Some feet →
  fixtures (physics c) BODY = Some bodyFixture →
  fixtureList b !! feet = Some ffx →
  fixtureList b !! bodyFixture = Some bfx →
  feet ≠ bodyFixture →
  fixtureList b !! nextFixture b = None →
  ∃ (c' : Character) (b' : Body),
    redefineFeetFixture kFeet this mask c = Some c'
    ∧ body (physics c') = Some b'
    ∧ fixtures (physics c') BODY = None
    ∧ fixtureList b' !! bodyFixture = None
    ∧ fixtureList b' !! feet = Some ffx
    ∧ fixtures (physics c') FEET = Some (nextFixture b)
    ∧ maskBits <$> fixtureList b' !! nextFixture b = Some (maskBits ffx)
    ∧ fixtures (physics c') WEAPON = fixtures (physics c) WEAPON.
Proof.
  intros Hb Hfeet Hbody Hffx Hbfx Hne Hfresh.
  assert (nextFixture b ≠ feet) by congruence.
  assert (nextFixture b ≠ bodyFixture) by congruence.
  unfold redefineFeetFixture. rewrite Hfeet, Hbody. simpl.
  rewrite Hb. simpl. rewrite Hffx. simpl.
  rewrite bool_decide_true by (rewrite Hbfx; eauto). simpl.
  eexists _, _. split; [reflexivity|].
  split; [reflexivity|]. simpl.
  split; [reflexivity|].
  split; [by rewrite lookup_insert_ne, lookup_delete_eq|].
  split; [by rewrite lookup_insert_ne, lookup_delete_ne|].
  split; [reflexivity|].
  split; [by rewrite lookup_insert_eq|].
  reflexivity.
Qed.

Lemma redefineFeetFixture_destroys_body_witness :
  ∃ (c' : Character) (b' : Body),
    redefineFeetFixture 4 1%nat 0 (exCharacter 1 10 50 0%float noTargets)
    = Some c'
    ∧ body (physics c') = Some b'
    ∧ fixtures (physics c') BODY = None
    ∧ fixtureList b' !! 0%nat = None
    ∧ fixtureList b' !! 1%nat = Some (exFixture FeetCircle 4 7 1%nat)
    ∧ fixtures (physics c') FEET = Some 3%nat
    ∧ maskBits <$> fixtureList b' !! 3%nat = Some 7
    ∧ fixtures (physics c') WEAPON = Some 2%nat.
Proof.
  apply (redefineFeetFixture_destroys_body 4 1%nat 0
           (exCharacter 1 10 50 0%float noTargets)
           (exBody 1%nat 0%float) 1%nat 0%nat
           (exFixture FeetCircle 4 7 1%nat)
           (exFixture (BodyPolygon false) 8 3 1%nat));
    try reflexivity.
  lia.
Defined.

(** ** Movement *)

(** What [moveLeft] and [moveRight] share: face the given side, and unless
    crouching or getting up, start running from rest and hand [impulse] to
    the body when [gate] holds. *)
Lemma move_common (this : ptr) (cs : gmap ptr Character) (its : gmap ptr Item)
    (cbs : list (Callback * float)) (evs : list Event)
    (c : Character) (b : Body) (facing gate : bool) (impulse : b2Vec2) :
  cs !! this = Some c →
  body (physics c) = Some b →
  ∃ (w' : World) (c' : Character) (b' : Body),
    (modifyCharacter this (upd_flags (set_f_isFacingRight facing));;
     me ← getCharacter this;
     if isCrouching me || f_isGettingUpFromFalling (flags me) then mret tt
     else
       velocity ← deref (GetLinearVelocity me);
       when (PrimFloat.eqb (fst velocity) 0%float) (startRunning this);;
       when gate (updateCharacter this (ApplyLinearImpulseToCenter impulse)))
      (mkWorld cs its cbs evs) = Some (tt, w')
    ∧ characters w' !! this = Some c' ∧ body (physics c') = Some b'
    ∧ impulses b'
      = impulses b
        ++ (if negb (isCrouching c || f_isGettingUpFromFalling (flags c))
               && gate
            then [impulse] else [])
    ∧ isStartRunning c'
      = negb (isCrouching c || f_isGettingUpFromFalling (flags c))
        && PrimFloat.eqb (fst (linearVelocity b)) 0%float
        || isStartRunning c
    ∧ isFacingRight c' = facing
    ∧ callbacks w'
      = cbs ++ (if negb (isCrouching c || f_isGettingUpFromFalling (flags c))
                   && PrimFloat.eqb (fst (linearVelocity b)) 0%float
                then [(ClearStartRunning this,
                       bodyAnimationDuration (sprite c) RUNNING_START)]
                else []).
Proof.
  intros Hc Hb.
  unfold startRunning, GetLinearVelocity, ApplyLinearImpulseToCenter, isCrouching.
  munfold. cbn. rewrite Hc. cbn. rewrite lookup_insert_eq. cbn.
  destruct (f_isCrouching (flags c) || f_isGettingUpFromFalling (flags c));
    cbn.
  - eexists _, _, b. split; [reflexivity|]. cbn. rewrite lookup_insert_eq.
    split; [reflexivity|]. split; [done|]. rewrite !app_nil_r. done.
  - rewrite Hb. cbn.
    destruct (PrimFloat.eqb (fst (linearVelocity b)) 0%float); cbn;
      rewrite ?lookup_insert_eq; cbn; rewrite ?lookup_insert_eq; cbn;
      destruct gate; cbn; rewrite ?lookup_insert_eq; cbn; rewrite ?Hb; cbn;
      eexists _, _, _; (split; [reflexivity|]); cbn; rewrite ?lookup_insert_eq;
      (split; [reflexivity|]); cbn; rewrite ?Hb; (split; [reflexivity|]);
      cbn; rewrite ?app_nil_r; done.
Qed.

(** C8 (as amended).  On a character with a body, [moveLeft] hands the
    impulse [(-moveSpeed, 0)] to the body exactly when the character is
    neither crouching nor getting up and [velocity.x >= -moveSpeed * 2];
    [moveRight] hands over [(moveSpeed, 0)] exactly when
    [velocity.x <= moveSpeed * 2].  Both raise the start-running flag, and
    schedule its clearance after the RUNNING_START animation, exactly when
    the character is free to move and its horizontal velocity is zero. *)
Theorem move_applies_impulse (this : ptr) (w : World) (c : Character) (b : Body) :
  characters w !! this = Some c →
  body (physics c) = Some b →
  let vx := fst (linearVelocity b) in
  let moveSpeed := moveSpeed (characterProfile c) in
  let free := negb (isCrouching c || f_isGettingUpFromFalling (flags c)) in
  let starts := free && PrimFloat.eqb vx 0%float in
  let clearance :=
    if starts
    then [(ClearStartRunning this, bodyAnimationDuration (sprite c) RUNNING_START)]
    else [] in
  ∃ (wl wr : World) (cl cr : Character) (bl br : Body),
    (moveLeft this w = Some (tt, wl)
     ∧ characters wl !! this = Some cl ∧ body (physics cl) = Some bl
     ∧ impulses bl
       = impulses b
         ++ (if free && PrimFloat.leb
                          (PrimFloat.mul (PrimFloat.opp moveSpeed) 2%float) vx
             then [(PrimFloat.opp moveSpeed, 0%float)] else [])
     ∧ isStartRunning cl = starts || isStartRunning c
     ∧ isFacingRight cl = false
     ∧ callbacks wl = callbacks w ++ clearance)
    ∧ (moveRight this w = Some (tt, wr)
       ∧ characters wr !! this = Some cr ∧ body (physics cr) = Some br
       ∧ impulses br
         = impulses b
           ++ (if free && PrimFloat.leb vx (PrimFloat.mul moveSpeed 2%float)
               then [(moveSpeed, 0%float)] else [])
       ∧ isStartRunning cr = starts || isStartRunning c
       ∧ isFacingRight cr = true
       ∧ callbacks wr = callbacks w ++ clearance).
Proof.
  intros Hc Hb vx ms free starts clearance.
  subst vx ms free starts clearance.
  destruct w as [cs its cbs evs]. cbn in Hc.
  destruct (move_common this cs its cbs evs c b false
              (PrimFloat.leb
                 (PrimFloat.mul (PrimFloat.opp (moveSpeed (characterProfile c)))
                    2%float)
                 (fst (linearVelocity b)))
              (PrimFloat.opp (moveSpeed (characterProfile c)), 0%float) Hc Hb)
    as (wl & cl & bl & Hrunl & Hl).
  destruct (move_common this cs its cbs evs c b true
              (PrimFloat.leb (fst (linearVelocity b))
                 (PrimFloat.mul (moveSpeed (characterProfile c)) 2%float))
              (moveSpeed (characterProfile c), 0%float) Hc Hb)
    as (wr & cr & br & Hrunr & Hr).
  exists wl, wr, cl, cr, bl, br. split.
  - split; [|exact Hl]. rewrite <- Hrunl.
    unfold moveLeft, GetLinearVelocity, isCrouching. munfold. cbn.
    rewrite Hc. cbn. rewrite lookup_insert_eq. cbn. rewrite Hb. reflexivity.
  - split; [|exact Hr]. rewrite <- Hrunr.
    unfold moveRight, GetLinearVelocity, isCrouching. munfold. cbn.
    rewrite Hc. cbn. rewrite lookup_insert_eq. cbn. rewrite Hb. reflexivity.
Qed.

Lemma move_applies_impulse_witness :
  ∃ (wl : World) (cl : Character) (bl : Body),
    moveLeft 1%nat (exWorld1 (-3)%float) = Some (tt, wl)
    ∧ characters wl !! 1%nat = Some cl ∧ body (physics cl) = Some bl
    ∧ impulses bl = [].
Proof.
  destruct (move_applies_impulse 1%nat (exWorld1 (-3)%float)
              (exCharacter 1 10 50 (-3)%float noTargets)
              (exBody 1%nat (-3)%float) eq_refl eq_refl)
    as (wl & _ & cl & _ & bl & _ & (H1 & H2 & H3 & H4 & _) & _).
  exists wl, cl, bl. repeat (split; [assumption|]). exact H4.
Defined.

(** C8, the claim as worded fails.  With [moveSpeed] 1: at velocity -2 the
    speed magnitude is at the bound 2 and [moveLeft] still applies its
    impulse; at velocity +5 the magnitude is above the bound and [moveLeft]
    applies its impulse as well (the test is one-sided). *)
Lemma moveLeft_at_bound_counterexample :
  (∃ (w' : World) (c' : Character) (b' : Body),
     PrimFloat.leb (PrimFloat.mul 1%float 2%float)
                   (PrimFloat.abs (-2)%float) = true
     ∧ moveLeft 1%nat (exWorld1 (-2)%float) = Some (tt, w')
     ∧ characters w' !! 1%nat = Some c' ∧ body (physics c') = Some b'
     ∧ impulses b' = [((-1)%float, 0%float)])
  ∧ (∃ (w' : World) (c' : Character) (b' : Body),
       PrimFloat.leb (PrimFloat.mul 1%float 2%float)
                     (PrimFloat.abs 5%float) = true
       ∧ moveLeft 1%nat (exWorld1 5%float) = Some (tt, w')
       ∧ characters w' !! 1%nat = Some c' ∧ body (physics c') = Some b'
       ∧ impulses b' = [((-1)%float, 0%float)]).
Proof.
  split; eexists _, _, _; (split; [reflexivity|]);
    (split; [vm_compute; reflexivity|]);
    (split; [reflexivity|]); (split; [reflexivity|]); reflexivity.
Qed.

(** ** Combat *)

Lemma clearTarget_loop (this : ptr) (a : ptr) (w : World) (c : Character) :
  characters w !! a = Some c →
  (modifyCharacter a (eraseInRangeTarget this);;
   x ← getCharacter a;
   when (bool_decide (getLockedOnTarget x = Some this))
     (modifyCharacter a (setLockedOnTarget None))) w
  = Some (tt, set_characters (alter (clearTarget this) a (characters w)) w).
Proof.
  intros Hc. destruct w as [cs its cbs evs]. cbn in Hc.
  munfold. cbn. rewrite Hc. cbn. rewrite lookup_insert_eq. cbn.
  rewrite <- (alter_as_insert (clearTarget this) a cs c Hc).
  unfold clearTarget, getLockedOnTarget. cbn.
  destruct (bool_decide (lockedOnTarget (targets c) = Some this)); cbn.
  - rewrite lookup_insert_eq. cbn. by rewrite insert_insert_eq.
  - done.
Qed.

Lemma getAllies_party (p : ptr) (c1 c2 : Character) :
  party (targets c1) = party (targets c2) → getAllies p c1 = getAllies p c2.
Proof. unfold getAllies. by intros ->. Qed.

Lemma receiveDamage_lethal kDestroyed (this src : ptr) (damage : Z)
    (cs : gmap ptr Character) its cbs evs (s me : Character)
    (b : Body) (f : ptr) (fx : Fixture) :
  cs !! src = Some s → cs !! this = Some me →
  isSetToKill s || isKilled s = false →
  isInvincible me = false →
  Int32.sub (health (characterProfile me)) damage ≤ 0 →
  (∀ a : ptr, a ∈ getAllies src s → is_Some (cs !! a)) →
  body (physics me) = Some b →
  fixtures (physics me) BODY = Some f →
  fixtureList b !! f = Some fx →
  ∃ cs' : gmap ptr Character,
    receiveDamage kDestroyed this (Some src) damage (mkWorld cs its cbs evs)
    = Some (true,
            mkWorld cs' its
              (cbs ++ [(ClearTakingDamage this, kTakingDamageDuration)])
              (evs ++ damageEvents this damage me))
    ∧ ∀ p : ptr,
        cs' !! p
        = lethalDamage kDestroyed this src (getAllies src s) damage b f fx p
            <$> cs !! p.
Proof.
  intros Hs Hme Halive Hinv Hle Hallies Hb Hf Hfx.
  unfold receiveDamage.
  run getCharacter_Some. rewrite Halive.
  run getCharacter_Some. rewrite Hinv.
  run modifyCharacter_Some.
  run modifyCharacter_Some; [|solve_lookup].
  run_with ltac:(reflexivity).
  run getCharacter_Some; [|solve_lookup].
  unfold getHealth.
  cbn [characterProfile upd_flags upd_characterProfile health set_health].
  destruct (Z.leb_spec (Int32.sub (health (characterProfile me)) damage) 0)
    as [_|?]; [|lia].
  unfold when.
  run modifyCharacter_Some; [|solve_lookup].
  run modifyCharacter_Some; [|solve_lookup].
  run getCharacter_Some; [|solve_lookup].
  match goal with |- context [getAllies src ?x] =>
    rewrite (getAllies_party src x s) by (repeat case_decide; reflexivity) end.
  run_with ltac:(
    apply (forEach_alter (λ _, clearTarget this));
    [intros a w c Hc; exact (clearTarget_loop this a w c Hc)
    |intros a Ha; step_world; apply elem_of_elements in Ha;
     destruct (Hallies a Ha) as [c Hc];
     eexists; solve_lookup]).
  run getCharacter_Some; [|solve_lookup].
  match goal with |- context [setCategoryBits (fixtures (physics ?x) BODY)] =>
    remember x as cur eqn:Hcur end.
  assert (Hph : physics cur = physics me)
    by (rewrite Hcur; unfold clearTarget; repeat case_decide;
        repeat case_bool_decide; reflexivity).
  assert (Hsfx : getSfxFileName SFX_HURT cur = getSfxFileName SFX_HURT me)
    by (rewrite Hcur; unfold clearTarget; repeat case_decide;
        repeat case_bool_decide; reflexivity).
  rewrite Hph, Hf.
  run updateCharacter_Some; [|solve_lookup|].
  2:{ cbn beta. rewrite <- Hcur. unfold setCategoryBits. cbn. rewrite Hph, Hb. cbn. rewrite Hfx. reflexivity. }
  run modifyCharacter_Some; [|apply lookup_insert_eq].
  unfold notify.
  run_with ltac:(reflexivity).
  run_with ltac:(reflexivity).
  run getCharacter_Some; [|solve_lookup; apply lookup_insert_eq].
  match goal with |- context [getSfxFileName SFX_HURT ?x] =>
    change (getSfxFileName SFX_HURT x) with (getSfxFileName SFX_HURT cur) end.
  rewrite Hsfx.
  eexists. split.
  - unfold damageEvents.
    destruct (getSfxFileName SFX_HURT me) as [file|].
    + run_with ltac:(reflexivity). unfold mret, M_ret.
      rewrite <- !app_assoc. reflexivity.
    + unfold mbind, M_bind, mret, M_ret. rewrite <- !app_assoc. reflexivity.
  - intros p. unfold lethalDamage.
    destruct (decide (p = this)) as [->|Hp].
    + rewrite lookup_alter_eq, lookup_insert_eq, Hme, Hcur. cbn.
      repeat case_decide; try reflexivity; exfalso; set_solver.
    + rewrite lookup_alter_ne, lookup_insert_ne by done.
      rewrite lookup_alterAll by apply NoDup_elements.
      destruct (decide (p = src)) as [->|Hps].
      * rewrite lookup_alter_eq, !lookup_alter_ne by done.
        destruct (cs !! src); cbn;
          repeat case_decide; try reflexivity; exfalso; set_solver.
      * rewrite !lookup_alter_ne by done.
        destruct (cs !! p); cbn;
          repeat case_decide; try reflexivity; exfalso; set_solver.
Qed.

Lemma receiveDamage_dying kDestroyed (this src : ptr) (damage : Z) (w : World)
    (s : Character) :
  characters w !! src = Some s →
  isSetToKill s || isKilled s = true →
  receiveDamage kDestroyed this (Some src) damage w = Some (false, w).
Proof.
  intros Hs Hd. unfold receiveDamage.
  erewrite mbind_Some; [|by apply getCharacter_Some].
  by rewrite Hd.
Qed.

Lemma receiveDamage_invincible kDestroyed (this src : ptr) (damage : Z)
    (w : World) (s me : Character) :
  characters w !! src = Some s →
  characters w !! this = Some me →
  isSetToKill s || isKilled s = false →
  isInvincible me = true →
  receiveDamage kDestroyed this (Some src) damage w = Some (true, w).
Proof.
  intros Hs Hme Hd Hinv. unfold receiveDamage.
  erewrite mbind_Some; [|by apply getCharacter_Some]. rewrite Hd.
  erewrite mbind_Some; [|by apply getCharacter_Some]. by rewrite Hinv.
Qed.

Lemma receiveDamage_survived kDestroyed (this src : ptr) (damage : Z)
    (cs : gmap ptr Character) its cbs evs (s me : Character) :
  cs !! src = Some s → cs !! this = Some me →
  isSetToKill s || isKilled s = false →
  isInvincible me = false →
  0 < Int32.sub (health (characterProfile me)) damage →
  receiveDamage kDestroyed this (Some src) damage (mkWorld cs its cbs evs)
  = Some (true,
          mkWorld (<[this := hurt damage me]> cs) its
            (cbs ++ [(ClearTakingDamage this, kTakingDamageDuration)])
            (evs ++ damageEvents this damage me)).
Proof.
  intros Hs Hme Hd Hinv Hpos. unfold receiveDamage.
  run getCharacter_Some. rewrite Hd.
  run getCharacter_Some. rewrite Hinv.
  assert (Hleb : (Int32.sub (health (characterProfile me)) damage <=? 0) = false)
    by lia.
  unfold getHealth.
  munfold. cbn. rewrite Hme.
  repeat (progress (cbn; rewrite ?lookup_insert_eq)).
  rewrite Hleb.
  repeat (progress (cbn; rewrite ?lookup_insert_eq)).
  rewrite !insert_insert_eq.
  unfold damageEvents, getSfxFileName. cbn.
  destruct (0 <? String.length (sfxFileNames (characterProfile me) SFX_HURT))%nat
    eqn:Hlen; cbn in *; rewrite Hlen; cbn; rewrite <- ?app_assoc; reflexivity.
Qed.
Lemma lethalDamage_this kDestroyed (this src : ptr) (allies : gset ptr)
    (damage : Z) (b : Body) (f : ptr) (fx : Fixture) (c : Character) :
  let c' := lethalDamage kDestroyed this src allies damage b f fx this c in
  getHealth c' = 0 ∧ isTakingDamage c' = true ∧ isSetToKill c' = true
  ∧ body (physics c')
    = Some (set_fixtureList
              (<[f := set_categoryBits kDestroyed fx]> (fixtureList b)) b).
Proof.
  unfold lethalDamage, clearTarget. rewrite !decide_True by done.
  repeat case_decide; repeat case_bool_decide; cbn; done.
Qed.




Example scenario1_lockOn_cleared :
  (λ r, (getLockedOnTarget <$> characters r.2 !! 2%nat,
         getLockedOnTarget <$> characters r.2 !! 3%nat))
    <$> receiveDamage 0 1%nat (Some 2%nat) 15 exWorld3
  = Some (Some (Some 1%nat), Some None).
Proof. vm_compute. reflexivity. Qed.

Lemma lockOn_Some (this : ptr) (target : option ptr) (w : World) (c : Character) :
  characters w !! this = Some c →
  lockOn this target w
  = Some (tt, set_characters (alter (lockedOn target) this (characters w)) w).
Proof.
  intros Hc. destruct w as [cs its cbs evs]. cbn in Hc.
  unfold lockOn. munfold. cbn. rewrite Hc. cbn. rewrite lookup_insert_eq. cbn.
  rewrite insert_insert_eq.
  by rewrite <- (alter_as_insert (lockedOn target) this cs c Hc).
Qed.

(** [receiveDamage] returns, and leaves every character where it was and in
    the party it was in. *)
Lemma receiveDamage_frame kDestroyed (this src : ptr) (damage : Z) (w : World)
    (s me : Character) (b : Body) (f : ptr) (fx : Fixture) :
  characters w !! src = Some s →
  characters w !! this = Some me →
  getAllies src s ⊆ dom (characters w) →
  body (physics me) = Some b →
  fixtures (physics me) BODY = Some f →
  fixtureList b !! f = Some fx →
  ∃ (r : bool) (w' : World),
    receiveDamage kDestroyed this (Some src) damage w = Some (r, w')
    ∧ ∀ p : ptr,
        (λ c, party (targets c)) <$> characters w' !! p
        = (λ c, party (targets c)) <$> characters w !! p.
Proof.
  intros Hs Hme Hallies Hb Hf Hfx.
  destruct (isSetToKill s || isKilled s) eqn:Hd.
  { exists false, w. split; [by eapply receiveDamage_dying|done]. }
  destruct (isInvincible me) eqn:Hinv.
  { exists true, w. split; [by eapply receiveDamage_invincible|done]. }
  destruct w as [cs its cbs evs]. cbn in Hs, Hme, Hallies.
  destruct (Z.le_gt_cases (Int32.sub (health (characterProfile me)) damage) 0)
    as [Hle|Hgt].
  - destruct (receiveDamage_lethal kDestroyed this src damage cs its cbs evs
                s me b f fx) as (cs' & Hrun & Hcs'); try done.
    { intros a Ha. apply elem_of_dom. by apply Hallies. }
    eexists _, _. split; [exact Hrun|]. intros p. cbn. rewrite Hcs'.
    destruct (cs !! p) as [c|]; [|done]. cbn. f_equal.
    unfold lethalDamage, clearTarget.
    repeat case_decide; repeat case_bool_decide; reflexivity.
  - eexists _, _. split.
    + by apply (receiveDamage_survived kDestroyed this src damage cs its cbs
                  evs s me).
    + intros p. cbn. destruct (decide (p = this)) as [->|Hne].
      * by rewrite lookup_insert_eq, Hme.
      * by rewrite lookup_insert_ne.
Qed.

(** C4 (as amended).  With both characters and their allies in the world,
    [inflictDamage(A, B)] returns true and alerts and locks on every member
    of the two ally groups and B: every member of B's ally group is locked
    onto A; every member of A's ally group that is not in B's ally group is
    locked onto B; and B, when in neither group, is locked onto A.  For
    disjoint ally groups that do not contain B this is the mutual group
    lock-on. *)
Theorem inflictDamage_lockOn (kDestroyed : Z) (this tgt : ptr) (damage : Z)
    (w : World) (me t : Character) (b : Body) (f : ptr) (fx : Fixture) :
  characters w !! this = Some me →
  characters w !! tgt = Some t →
  getAllies this me ⊆ dom (characters w) →
  getAllies tgt t ⊆ dom (characters w) →
  body (physics t) = Some b →
  fixtures (physics t) BODY = Some f →
  fixtureList b !! f = Some fx →
  ∃ w' : World,
    inflictDamage kDestroyed this (Some tgt) damage w = Some (true, w')
    ∧ ∀ p : ptr,
        p ∈ getAllies this me ∨ p ∈ getAllies tgt t ∨ p = tgt →
        ∃ c' : Character,
          characters w' !! p = Some c'
          ∧ isAlerted c' = true
          ∧ getLockedOnTarget c'
            = if decide (p ∈ getAllies tgt t) then Some this
              else if decide (p ∈ getAllies this me) then Some tgt
              else Some this.
Proof.
  intros Hme Ht Hallies Halliest Hb Hf Hfx.
  destruct (receiveDamage_frame kDestroyed tgt this damage w me t b f fx)
    as (r & w1 & Hrun & Hframe); try done.
  unfold inflictDamage.
  run_with ltac:(exact Hrun).
  destruct w1 as [cs1 its1 cbs1 evs1]. cbn in Hframe.
  assert (Hlook : ∀ p c, characters w !! p = Some c →
            ∃ c1, cs1 !! p = Some c1 ∧ party (targets c1) = party (targets c)).
  { intros p c Hc. specialize (Hframe p). rewrite Hc in Hframe.
    destruct (cs1 !! p) as [c1|]; [|discriminate].
    exists c1. split; [done|]. by injection Hframe. }
  destruct (Hlook _ _ Hme) as (me1 & Hme1 & Hpme).
  destruct (Hlook _ _ Ht) as (t1 & Ht1 & Hpt).
  run lockOn_Some.
  run getCharacter_Some; [|solve_lookup].
  match goal with |- context [getAllies this ?x] =>
    rewrite (getAllies_party this x me)
      by (repeat case_decide; cbn; congruence) end.
  run_with ltac:(
    apply (forEach_alter (λ _, lockedOn (Some tgt)));
    [intros a w0 c Hc; exact (lockOn_Some a (Some tgt) w0 c Hc)
    |intros a Ha; step_world; apply elem_of_elements in Ha;
     apply Hallies, elem_of_dom in Ha as [c Hc];
     destruct (Hlook _ _ Hc) as (c1 & Hc1 & _);
     eexists; solve_lookup]).
  run getCharacter_Some; [|solve_lookup].
  cbn beta.
  match goal with |- context [getAllies tgt ?x] =>
    rewrite (getAllies_party tgt x t)
      by (repeat case_decide; cbn; congruence) end.
  erewrite mbind_Some;
    [|apply (forEach_alter (λ _, lockedOn (Some this)));
      [intros a w0 c Hc; exact (lockOn_Some a (Some this) w0 c Hc)
      |intros a Ha; step_world; apply elem_of_elements in Ha;
       apply Halliest, elem_of_dom in Ha as [c Hc];
       destruct (Hlook _ _ Hc) as (c1 & Hc1 & _);
       eexists; solve_lookup]].
  step_world. eexists. split; [reflexivity|]. cbn.
  intros p Hp.
  assert (Hin : is_Some (characters w !! p)).
  { destruct Hp as [Hp|[Hp|Hp]].
    - by apply elem_of_dom, Hallies.
    - by apply elem_of_dom, Halliest.
    - subst p. eauto. }
  destruct Hin as [c Hc]. destruct (Hlook _ _ Hc) as (c1 & Hc1 & _).
  eexists. split; [solve_lookup|]. cbn beta.
  repeat case_decide; cbn; try done; exfalso; set_solver.
Qed.
Lemma inflictDamage_lockOn_witness :
  ∃ w' : World,
    inflictDamage 0 2%nat (Some 1%nat) 5 exWorld3 = Some (true, w')
    ∧ ∀ p : ptr,
        p ∈ getAllies 2%nat (exCharacter 2 80 80 0%float exTracker)
        ∨ p ∈ getAllies 1%nat (exCharacter 1 10 50 0%float noTargets)
        ∨ p = 1%nat →
        ∃ c' : Character,
          characters w' !! p = Some c'
          ∧ isAlerted c' = true
          ∧ getLockedOnTarget c'
            = if decide (p ∈ getAllies 1%nat
                               (exCharacter 1 10 50 0%float noTargets))
              then Some 2%nat
              else if decide (p ∈ getAllies 2%nat
                                    (exCharacter 2 80 80 0%float exTracker))
                   then Some 1%nat
                   else Some 2%nat.
Proof.
  apply (inflictDamage_lockOn 0 2%nat 1%nat 5 exWorld3
           (exCharacter 2 80 80 0%float exTracker)
           (exCharacter 1 10 50 0%float noTargets)
           (exBody 1%nat 0%float) 0%nat
           (exFixture (BodyPolygon false) 8 3 1%nat)).
  - reflexivity.
  - reflexivity.
  - refine (bool_decide_unpack _ _). vm_compute. exact I.
  - refine (bool_decide_unpack _ _). vm_compute. exact I.
  - reflexivity.
  - reflexivity.
  - reflexivity.
Defined.

(** C4, the claim as worded fails inside a party: the leader (address 2)
    damaging its party member (address 3).  The member belongs to the
    attacker's ally group, yet ends up locked onto the attacker, not onto
    the target (itself): the loop over the target's allies runs last. *)
Lemma inflictDamage_same_party_counterexample :
  ∃ (w' : World) (c3 : Character),
    inflictDamage 0 2%nat (Some 3%nat) 15 exWorld3 = Some (true, w')
    ∧ 3%nat ∈ getAllies 2%nat (exCharacter 2 80 80 0%float exTracker)
    ∧ characters w' !! 3%nat = Some c3
    ∧ getLockedOnTarget c3 = Some 2%nat
    ∧ getLockedOnTarget c3 ≠ Some 3%nat.
Proof.
  eexists _, _. split; [vm_compute; reflexivity|].
  split; [refine (bool_decide_unpack _ _); vm_compute; exact I|].
  split; [vm_compute; reflexivity|].
  split; [reflexivity|discriminate].
Qed.

(** ** Health *)

Lemma sameVitals_refl (w : World) : sameVitals w w.
Proof. by split. Qed.

Lemma sameVitals_trans (w1 w2 w3 : World) :
  sameVitals w1 w2 → sameVitals w2 w3 → sameVitals w1 w3.
Proof. intros [H1 H2] [H3 H4]. split; congruence. Qed.

Lemma pv_ret {A : Type} (a : A) : preservesVitals (mret a).
Proof. intros w a' w' [= _ <-]. apply sameVitals_refl. Qed.

Lemma pv_crash {A : Type} : preservesVitals (@crash A).
Proof. intros w a w' [=]. Qed.

Lemma pv_bind {A B : Type} (m : M A) (f : A → M B) :
  preservesVitals m → (∀ a : A, preservesVitals (f a)) →
  preservesVitals (m ≫= f).
Proof.
  intros Hm Hf w b w' H. apply mbind_inv in H as (a & w1 & H1 & H2).
  eapply sameVitals_trans; [by eapply Hm|by eapply Hf].
Qed.

Lemma pv_deref {A : Type} (o : option A) : preservesVitals (deref o).
Proof. destruct o; [apply pv_ret|apply pv_crash]. Qed.

Lemma pv_getCharacter (p : ptr) : preservesVitals (getCharacter p).
Proof. intros w c w' H. apply getCharacter_inv in H as [-> _]. apply sameVitals_refl. Qed.

Lemma pv_getItem (p : ptr) : preservesVitals (getItem p).
Proof.
  intros w i w'. unfold getItem, getWorld, mbind, M_bind, deref.
  destruct (items w !! p); [|discriminate].
  intros [= _ <-]. apply sameVitals_refl.
Qed.

Lemma pv_modifyWorld (f : World → World) :
  (∀ w : World, characters (f w) = characters w ∧ items (f w) = items w) →
  preservesVitals (modifyWorld f).
Proof.
  intros Hf w [] w' [= <-]. destruct (Hf w) as [Hc Hi].
  unfold sameVitals, vitalsOf, kindsOf. by rewrite Hc, Hi.
Qed.

Lemma pv_notify (e : Event) : preservesVitals (notify e).
Proof. apply pv_modifyWorld. intros w. by split. Qed.

Lemma pv_runAfter (cb : Callback) (delay : float) : preservesVitals (runAfter cb delay).
Proof. apply pv_modifyWorld. intros w. by split. Qed.

Lemma pv_when (b : bool) (m : M unit) :
  preservesVitals m → preservesVitals (when b m).
Proof. destruct b; [done|intros _; apply pv_ret]. Qed.

Lemma pv_forEach {A : Type} (l : list A) (body : A → M unit) :
  (∀ a : A, preservesVitals (body a)) → preservesVitals (forEach l body).
Proof.
  intros Hbody. induction l as [|a l IH]; cbn [forEach].
  - apply pv_ret.
  - apply pv_bind; [apply Hbody|intros _; apply IH].
Qed.

(** The vitals after an update of the character at [p]. *)
Lemma updateCharacter_vitals (p : ptr) (f : Character → option Character)
    (F : Vitals → Vitals) (w w' : World) :
  (∀ c c' : Character, f c = Some c' → vitals c' = F (vitals c)) →
  updateCharacter p f w = Some (tt, w') →
  vitalsOf w' = alter F p (vitalsOf w) ∧ kindsOf w' = kindsOf w.
Proof.
  intros HF H. apply updateCharacter_inv in H as (c & c' & Hc & Hf & ->).
  split; [|reflexivity]. unfold vitalsOf. cbn.
  apply map_eq. intros q. rewrite lookup_fmap.
  destruct (decide (q = p)) as [->|Hne].
  - rewrite lookup_insert_eq, lookup_alter_eq, lookup_fmap, Hc. cbn.
    f_equal. by apply HF.
  - by rewrite lookup_insert_ne, lookup_alter_ne, lookup_fmap.
Qed.

Lemma modifyCharacter_vitals (p : ptr) (f : Character → Character)
    (F : Vitals → Vitals) (w w' : World) :
  (∀ c : Character, vitals (f c) = F (vitals c)) →
  modifyCharacter p f w = Some (tt, w') →
  vitalsOf w' = alter F p (vitalsOf w) ∧ kindsOf w' = kindsOf w.
Proof.
  intros HF. apply updateCharacter_vitals. intros c c' [= <-]. apply HF.
Qed.

Lemma alter_id_vitals (p : ptr) (m : gmap ptr Vitals) : alter (λ v, v) p m = m.
Proof.
  apply map_eq. intros q. destruct (decide (q = p)) as [->|Hne].
  - rewrite lookup_alter_eq. by destruct (m !! p).
  - by rewrite lookup_alter_ne.
Qed.

Lemma pv_updateCharacter (p : ptr) (f : Character → option Character) :
  (∀ c c' : Character, f c = Some c' → vitals c' = vitals c) →
  preservesVitals (updateCharacter p f).
Proof.
  intros Hf w [] w' H.
  destruct (updateCharacter_vitals p f (λ v, v) w w' Hf H) as [H1 H2].
  split; [|done]. by rewrite H1, alter_id_vitals.
Qed.

Lemma pv_modifyCharacter (p : ptr) (f : Character → Character) :
  (∀ c : Character, vitals (f c) = vitals c) →
  preservesVitals (modifyCharacter p f).
Proof. intros Hf. apply pv_updateCharacter. intros c c' [= <-]. apply Hf. Qed.

Lemma pv_modifyItem (p : ptr) (f : Item → Item) :
  (∀ i : Item, itemKind (f i) = itemKind i) →
  preservesVitals (modifyItem p f).
Proof.
  intros Hf w [] w'. unfold modifyItem. intros H.
  apply mbind_inv in H as (i & w1 & H1 & H2).
  unfold getItem, getWorld, mbind, M_bind, deref in H1.
  destruct (items w !! p) as [i'|] eqn:Hi; [|discriminate].
  injection H1 as <- <-. injection H2 as <-.
  split; [reflexivity|]. unfold kindsOf. cbn.
  apply map_eq. intros q. rewrite !lookup_fmap.
  destruct (decide (q = p)) as [->|Hne].
  - by rewrite lookup_insert_eq, Hi; cbn; rewrite Hf.
  - by rewrite lookup_insert_ne.
Qed.

Ltac pv_auto :=
  repeat first
    [ apply pv_ret | apply pv_crash | apply pv_getCharacter | apply pv_getItem
    | apply pv_notify | apply pv_runAfter | apply pv_deref
    | apply pv_when
    | apply pv_modifyCharacter; intros ?; reflexivity
    | apply pv_modifyItem; intros ?; reflexivity
    | apply pv_forEach; intros ?
    | apply pv_bind; [|intros ?]
    | match goal with
      | |- preservesVitals (match ?x with _ => _ end) => destruct x
      | |- preservesVitals (if ?x then _ else _) => destruct x
      end ].

Lemma pv_getExistingItemObj (this : ptr) (item : option ptr) :
  preservesVitals (getExistingItemObj this item).
Proof. unfold getExistingItemObj. pv_auto. Qed.

Lemma pv_removeItem (this : ptr) (item : option ptr) (amt : Z) :
  preservesVitals (removeItem this item amt).
Proof.
  unfold removeItem.
  apply pv_bind; [apply pv_getExistingItemObj|intros existing].
  pv_auto.
Qed.

Lemma alter_alter_vitals (F G : Vitals → Vitals) (p : ptr) (m : gmap ptr Vitals) :
  alter F p (alter G p m) = alter (λ v, F (G v)) p m.
Proof.
  apply map_eq. intros q. destruct (decide (q = p)) as [->|Hne].
  - rewrite !lookup_alter_eq. by destruct (m !! p).
  - by rewrite !lookup_alter_ne.
Qed.

Lemma receiveDamage_vitals kDestroyed (this : ptr) (source : option ptr)
    (damage : Z) (w w' : World) (r : bool) :
  receiveDamage kDestroyed this source damage w = Some (r, w') →
  kindsOf w' = kindsOf w
  ∧ (vitalsOf w' = vitalsOf w
     ∨ vitalsOf w' = alter (damagedVitals damage) this (vitalsOf w)).
Proof.
  unfold receiveDamage. intros H.
  destruct source as [src|].
  2:{ minv H as u w1 H1. apply pv_notify in H1 as [Hv Hk]. injection H as _ <-.
      by split; [|left]. }
  minv H as s w1 H1. apply getCharacter_inv in H1 as [-> Hs].
  destruct (isSetToKill s || isKilled s).
  { injection H as _ <-. by split; [|left]. }
  minv H as me w1 H1. apply getCharacter_inv in H1 as [-> Hme].
  destruct (isInvincible me).
  { injection H as _ <-. by split; [|left]. }
  minv H as u w1 H1.
  apply (modifyCharacter_vitals this _
           (λ v, {| v_health := Int32.sub (v_health v) damage;
                    v_fullHealth := v_fullHealth v;
                    v_isSetToKill := v_isSetToKill v;
                    v_isKilled := v_isKilled v |})) in H1 as [Hv1 Hk1];
    [|reflexivity].
  minv H as u w2 H2. apply pv_modifyCharacter in H2 as [Hv2 Hk2]; [|reflexivity].
  minv H as u w3 H3. apply pv_runAfter in H3 as [Hv3 Hk3].
  minv H as me3 w3' H3. apply getCharacter_inv in H3 as [-> Hme3].
  assert (Hvme : vitalsOf w3 !! this = Some (vitals me3)).
  { unfold vitalsOf. by rewrite lookup_fmap, Hme3. }
  rewrite Hv3, Hv2, Hv1 in Hvme.
  rewrite lookup_alter_eq in Hvme.
  destruct (vitalsOf w !! this) as [v|] eqn:Hv; [|discriminate].
  cbn in Hvme.
  assert (Hh : getHealth me3 = Int32.sub (v_health v) damage).
  { change (getHealth me3) with (v_health (vitals me3)).
    apply (f_equal (λ o, v_health <$> o)) in Hvme. cbn in Hvme.
    injection Hvme as Hvme. symmetry. exact Hvme. }
  minv H as u w4 H4.
  assert (Hrest : sameVitals w4 w').
  { revert H. generalize w4 r w'. change (preservesVitals
      (notify (CreateHitFx this);;
       notify (ShowFloatingDamage this damage);;
       me ← getCharacter this;
       match getSfxFileName SFX_HURT me with
       | Some sfxFileName => notify (PlaySfx (SfxPath sfxFileName))
       | None => mret ()
       end;; mret true)).
    pv_auto. }
  destruct Hrest as [Hv5 Hk5]. clear H.
  unfold when in H4.
  destruct (getHealth me3 <=? 0) eqn:Hcond.
  - minv H4 as u w5 H5.
    apply (modifyCharacter_vitals this _
             (λ v, {| v_health := 0;
                      v_fullHealth := v_fullHealth v;
                      v_isSetToKill := v_isSetToKill v;
                      v_isKilled := v_isKilled v |})) in H5 as [Hv6 Hk6];
      [|reflexivity].
    minv H4 as u w6 H6. apply pv_modifyCharacter in H6 as [Hv7 Hk7]; [|reflexivity].
    minv H4 as s6 w6' H6. apply getCharacter_inv in H6 as [-> _].
    minv H4 as u w7 H7.
    apply pv_forEach in H7 as [Hv8 Hk8].
    2:{ intros ally. pv_auto. }
    minv H4 as me7 w7' H7. apply getCharacter_inv in H7 as [-> _].
    minv H4 as u w8 H8.
    apply pv_updateCharacter in H8 as [Hv9 Hk9].
    2:{ intros c c'. unfold setCategoryBits.
        destruct (fixtures (physics me7) BODY); [|discriminate]. cbn.
        destruct (body (physics c)); [|discriminate]. cbn.
        destruct (fixtureList _ !! _); [|discriminate]. cbn.
        by intros [= <-]. }
    apply (modifyCharacter_vitals this _
             (λ v, {| v_health := v_health v;
                      v_fullHealth := v_fullHealth v;
                      v_isSetToKill := true;
                      v_isKilled := v_isKilled v |})) in H4 as [Hv10 Hk10];
      [|reflexivity].
    split; [congruence|]. right.
    rewrite Hv5, Hv10, Hv9, Hv8, Hv7, Hv6, Hv3, Hv2, Hv1.
    rewrite !alter_alter_vitals.
    apply map_eq. intros q. destruct (decide (q = this)) as [->|Hne].
    + rewrite !lookup_alter_eq, Hv. cbn. f_equal.
      unfold damagedVitals. cbn.
      rewrite <- Hh, Hcond. reflexivity.
    + by rewrite !lookup_alter_ne.
  - injection H4 as <-.
    split; [congruence|]. right.
    rewrite Hv5, Hv3, Hv2, Hv1.
    apply map_eq. intros q. destruct (decide (q = this)) as [->|Hne].
    + rewrite !lookup_alter_eq, Hv. cbn. f_equal.
      unfold damagedVitals. cbn.
      rewrite <- Hh, Hcond. cbn. by rewrite Hh.
    + by rewrite !lookup_alter_ne.
Qed.

Lemma redefineWeaponFixture_vitals (kMeleeWeapon : Z) (this : ptr) (mask : Z)
    (c c' : Character) :
  redefineWeaponFixture kMeleeWeapon this mask c = Some c' →
  vitals c' = vitals c.
Proof.
  unfold redefineWeaponFixture. intros H.
  destruct (fixtures (physics c) WEAPON) as [f|] eqn:Hw; simpl in H.
  - destruct (body (physics c)) as [b|]; [|discriminate]. simpl in H.
    destruct (fixtureList b !! f) as [fx|]; [|discriminate]. simpl in H.
    by injection H as <-.
  - destruct (body (physics c)) as [b|]; [|discriminate]. simpl in H.
    by injection H as <-.
Qed.

Lemma alter_ext_vitals (F G : Vitals → Vitals) (p : ptr) (m : gmap ptr Vitals) :
  (∀ v : Vitals, m !! p = Some v → F v = G v) →
  alter F p m = alter G p m.
Proof.
  intros HFG. apply map_eq. intros q. destruct (decide (q = p)) as [->|Hne].
  - rewrite !lookup_alter_eq. destruct (m !! p) as [v|] eqn:Hv; [|done].
    cbn. f_equal. by apply HFG.
  - by rewrite !lookup_alter_ne.
Qed.

(** The head of [update] regenerates the health of a character that is on
    the map and not killed, when the timer expires; it changes nothing else
    of what is observed. *)
Lemma update_head_vitals (kMeleeWeapon kDefaultWeaponMaskBits : Z) (this : ptr)
    (delta : float) (u u' : UpdateMembers) (w w' : World) :
  update_head kMeleeWeapon kDefaultWeaponMaskBits this delta u w
  = Some (u', w') →
  kindsOf w' = kindsOf w
  ∧ (vitalsOf w' = vitalsOf w
     ∨ vitalsOf w'
       = alter (regeneratedVitals (baseRegenDeltaHealth u)) this (vitalsOf w)).
Proof.
  unfold update_head. intros H.
  minv H as me w1 H1. apply getCharacter_inv in H1 as [-> Hme].
  destruct (negb (isShownOnMap u) || isKilled me) eqn:Hguard.
  { injection H as _ <-. by split; [|left]. }
  apply orb_false_elim in Hguard as [_ Hkilled].
  minv H as u1 w1 H1.
  assert (Hflip : sameVitals w w1
                  ∧ baseRegenDeltaHealth u1 = baseRegenDeltaHealth u).
  { destruct (negb (isFacingRight me) && negb (isFlippedX u)).
    - minv H1 as x w2 H2. injection H1 as <- <-. split; [|reflexivity].
      apply pv_updateCharacter in H2; [done|].
      intros c c'. apply redefineWeaponFixture_vitals.
    - destruct (isFacingRight me && isFlippedX u).
      + minv H1 as x w2 H2. injection H1 as <- <-. split; [|reflexivity].
        apply pv_updateCharacter in H2; [done|].
        intros c c'. apply redefineWeaponFixture_vitals.
      + injection H1 as <- <-. by split. }
  destruct Hflip as [[Hv1 Hk1] Hdelta]. clear H1.
  minv H as me1 w1' H1. apply getCharacter_inv in H1 as [-> Hme1].
  minv H as b w2 H2. apply pv_deref in H2 as [Hv2 Hk2].
  cbn in H.
  destruct (PrimFloat.leb 5%float (float_add (statsRegenTimer u1) delta)).
  - minv H as x w3 H3.
    apply (modifyCharacter_vitals this _
             (restoredVitals (baseRegenDeltaHealth u1))) in H3 as [Hv3 Hk3];
      [|reflexivity].
    minv H as x w4 H4.
    apply pv_modifyCharacter in H4 as [Hv4 Hk4]; [|reflexivity].
    minv H as x w5 H5.
    apply pv_modifyCharacter in H5 as [Hv5 Hk5]; [|reflexivity].
    minv H as x w6 H6. apply pv_notify in H6 as [Hv6 Hk6].
    injection H as _ <-.
    split; [congruence|]. right.
    rewrite Hv6, Hv5, Hv4, Hv3, Hv2, Hv1, Hdelta.
    apply alter_ext_vitals. intros v. unfold vitalsOf.
    rewrite lookup_fmap, Hme. cbn.
    intros [= <-]. unfold regeneratedVitals. cbn.
    by rewrite Hkilled.
  - injection H as _ <-. split; [congruence|]. left. congruence.
Qed.

Lemma runHealthOp_vitals (kDestroyed kMeleeWeapon kDefaultWeaponMaskBits : Z)
    (op : HealthOp) (w w' : World) :
  runHealthOp kDestroyed kMeleeWeapon kDefaultWeaponMaskBits op w
  = Some (tt, w') →
  kindsOf w' = kindsOf w
  ∧ match op with
    | OpReceiveDamage this _ damage =>
        vitalsOf w' = vitalsOf w
        ∨ vitalsOf w' = alter (damagedVitals damage) this (vitalsOf w)
    | OpUpdate this _ u =>
        vitalsOf w' = vitalsOf w
        ∨ vitalsOf w'
          = alter (regeneratedVitals (baseRegenDeltaHealth u)) this
              (vitalsOf w)
    | OpUseItem this consumable =>
        ∃ cp : ConsumableProfile,
          kindsOf w !! consumable = Some (ConsumableItem cp)
          ∧ vitalsOf w'
            = alter (restoredVitals (restoreHealth cp)) this (vitalsOf w)
    end.
Proof.
  destruct op as [this source damage|this delta u|this consumable]; cbn.
  - intros H. minv H as r w1 H1. injection H as <-.
    by apply receiveDamage_vitals in H1.
  - intros H. minv H as u' w1 H1. injection H as <-.
    by apply update_head_vitals in H1.
  - unfold useItem. intros H. minv H as it w1 H1.
    assert (Hit : items w !! consumable = Some it ∧ w1 = w).
    { unfold getItem, getWorld, mbind, M_bind, deref in H1.
      destruct (items w !! consumable); [|discriminate].
      by injection H1 as -> ->. }
    destruct Hit as [Hit ->].
    destruct (itemKind it) as [|ep|cp] eqn:Hkind; try discriminate.
    minv H as u w2 H2.
    apply (modifyCharacter_vitals this _ (restoredVitals (restoreHealth cp)))
      in H2 as [Hv2 Hk2]; [|reflexivity].
    minv H as u w3 H3. apply pv_removeItem in H3 as [Hv3 Hk3].
    apply pv_notify in H as [Hv4 Hk4].
    split; [congruence|]. exists cp. split; [|congruence].
    unfold kindsOf. by rewrite lookup_fmap, Hit; cbn; rewrite Hkind.
Qed.

Lemma pointwise_refl (P : Vitals → Vitals → Prop) (m : gmap ptr Vitals) :
  (∀ v, P v v) → pointwise P m m.
Proof. intros HP p. destruct (m !! p); constructor. apply HP. Qed.

Lemma pointwise_trans (P : Vitals → Vitals → Prop) (m1 m2 m3 : gmap ptr Vitals) :
  (∀ v1 v2 v3, P v1 v2 → P v2 v3 → P v1 v3) →
  pointwise P m1 m2 → pointwise P m2 m3 → pointwise P m1 m3.
Proof.
  intros HP H1 H2 p. specialize (H1 p). specialize (H2 p).
  destruct H1 as [v1 v2 H12|]; inversion H2; subst; constructor. eauto.
Qed.

Lemma pointwise_alter (P : Vitals → Vitals → Prop) (F : Vitals → Vitals)
    (this : ptr) (m : gmap ptr Vitals) :
  (∀ v, P v v) →
  (∀ v, m !! this = Some v → P v (F v)) →
  pointwise P m (alter F this m).
Proof.
  intros Hrefl HF p. destruct (decide (p = this)) as [->|Hne].
  - rewrite lookup_alter_eq. destruct (m !! this) as [v|] eqn:Hv; constructor.
    by apply HF.
  - rewrite lookup_alter_ne by done. destruct (m !! p); constructor. apply Hrefl.
Qed.

Lemma vitalsInvariant_alter (F : Vitals → Vitals) (this : ptr)
    (m : gmap ptr Vitals) :
  vitalsInvariant m →
  (∀ v, m !! this = Some v → 0 ≤ v_health (F v) ≤ v_fullHealth (F v)) →
  vitalsInvariant (alter F this m).
Proof.
  intros Hinv HF p v'. destruct (decide (p = this)) as [->|Hne].
  - rewrite lookup_alter_eq. destruct (m !! this) as [v|] eqn:Hv; [|done].
    cbn. intros [= <-]. by apply HF.
  - rewrite lookup_alter_ne by done. apply Hinv.
Qed.

Lemma vitalsKept_refl (v : Vitals) : vitalsKept v v.
Proof. by repeat split. Qed.

Lemma vitalsKept_trans (v1 v2 v3 : Vitals) :
  vitalsKept v1 v2 → vitalsKept v2 v3 → vitalsKept v1 v3.
Proof.
  intros (H1 & H2 & H3) (H4 & H5 & H6).
  split; [congruence|]. split; [congruence|auto].
Qed.

Lemma damagedVitals_spec (damage : Z) (v : Vitals) :
  0 ≤ damage ≤ Int32.max_int →
  v_fullHealth v ≤ Int32.max_int →
  0 ≤ v_health v ≤ v_fullHealth v →
  0 ≤ v_health (damagedVitals damage v) ≤ v_health v
  ∧ vitalsKept v (damagedVitals damage v).
Proof.
  intros Hd Hfull Hh. unfold damagedVitals, vitalsKept. cbn.
  assert (Hsub : Int32.sub (v_health v) damage = v_health v - damage).
  { apply wrap_in_range.
    unfold Int32.in_range, Int32.min_int, Int32.max_int in *. lia. }
  rewrite Hsub.
  destruct (Z.leb_spec (v_health v - damage) 0); cbn;
    repeat split; (lia || done || auto).
Qed.

Lemma restoredVitals_spec (delta : Z) (v : Vitals) :
  0 ≤ delta →
  v_fullHealth v + delta ≤ Int32.max_int →
  0 ≤ v_health v ≤ v_fullHealth v →
  v_health v ≤ v_health (restoredVitals delta v) ≤ v_fullHealth v
  ∧ vitalsKept v (restoredVitals delta v).
Proof.
  intros Hd Hfull Hh. unfold restoredVitals, vitalsKept. cbn.
  assert (Hadd : Int32.add (v_health v) delta = v_health v + delta).
  { apply wrap_in_range.
    unfold Int32.in_range, Int32.min_int, Int32.max_int in *. lia. }
  rewrite Hadd.
  destruct (Z.ltb_spec (v_fullHealth v) (v_health v + delta)); cbn;
    repeat split; (lia || done || auto).
Qed.

Lemma lookup_vitalsOf (w : World) (p : ptr) :
  vitalsOf w !! p = vitals <$> characters w !! p.
Proof. unfold vitalsOf. apply lookup_fmap. Qed.

Lemma regeneratedVitals_spec (delta : Z) (v : Vitals) :
  0 ≤ delta →
  v_fullHealth v + delta ≤ Int32.max_int →
  0 ≤ v_health v ≤ v_fullHealth v →
  v_health v ≤ v_health (regeneratedVitals delta v) ≤ v_fullHealth v
  ∧ killedNotRaised v (regeneratedVitals delta v).
Proof.
  intros Hd Hfull Hh. unfold regeneratedVitals, killedNotRaised.
  destruct (v_isKilled v) eqn:Hkilled.
  - split; [lia|]. split; [apply vitalsKept_refl|]. lia.
  - destruct (restoredVitals_spec delta v Hd Hfull Hh) as [H1 H2].
    split; [exact H1|]. split; [exact H2|]. intros [=].
Qed.

Lemma killedNotRaised_refl (v : Vitals) : killedNotRaised v v.
Proof. split; [apply vitalsKept_refl|]. lia. Qed.

Lemma killedNotRaised_trans (v1 v2 v3 : Vitals) :
  killedNotRaised v1 v2 → killedNotRaised v2 v3 → killedNotRaised v1 v3.
Proof.
  intros [Hk1 H1] [Hk2 H2]. split; [by eapply vitalsKept_trans|].
  intros Hkilled. destruct Hk1 as (_ & Hk & _).
  rewrite Hkilled in Hk. specialize (H1 Hkilled). specialize (H2 Hk). lia.
Qed.

Lemma runHealthOps_invariant (kDestroyed kMeleeWeapon kDefaultWeaponMaskBits : Z)
    (ops : list HealthOp) :
  ∀ w0 w w' : World,
    pointwise vitalsKept (vitalsOf w0) (vitalsOf w) →
    kindsOf w = kindsOf w0 →
    vitalsInvariant (vitalsOf w) →
    Forall (admissible w0) ops →
    runHealthOps kDestroyed kMeleeWeapon kDefaultWeaponMaskBits ops w
    = Some (tt, w') →
    vitalsInvariant (vitalsOf w')
    ∧ pointwise vitalsKept (vitalsOf w) (vitalsOf w')
    ∧ (forallb isDamage ops = true →
       pointwise healthNotRaised (vitalsOf w) (vitalsOf w'))
    ∧ (∀ p : ptr,
         forallb (λ op, negb (usesItem p op)) ops = true →
         option_Forall2 killedNotRaised (vitalsOf w !! p) (vitalsOf w' !! p)).
Proof.
  induction ops as [|op ops IH]; intros w0 w w' Hkept Hkinds Hinv Hadm Hrun.
  { injection Hrun as <-. split; [done|].
    split; [apply pointwise_refl, vitalsKept_refl|]. split.
    - intros _. apply pointwise_refl. intros v. unfold healthNotRaised. lia.
    - intros p _. apply (pointwise_refl killedNotRaised).
      apply killedNotRaised_refl. }
  apply list.Forall_cons in Hadm as [Hop Hadm].
  unfold runHealthOps in Hrun. cbn [forEach] in Hrun.
  minv Hrun as u w1 H1.
  apply runHealthOp_vitals in H1 as [Hk1 Hv1].
  (* the full health of a character of the current world, in the initial one *)
  assert (Hfull : ∀ this v, vitalsOf w !! this = Some v →
            ∃ c0, characters w0 !! this = Some c0
                  ∧ getFullHealth c0 = v_fullHealth v).
  { intros this v Hv. specialize (Hkept this). rewrite Hv in Hkept.
    inversion Hkept as [v0 ? Hk Hv0|]; subst.
    symmetry in Hv0. rewrite lookup_vitalsOf in Hv0.
    destruct (characters w0 !! this) as [c0|]; [|discriminate].
    cbn in Hv0. injection Hv0 as Hv0.
    exists c0. split; [done|].
    destruct Hk as [Hk _]. rewrite Hk, <- Hv0. reflexivity. }
  assert (Hstep : vitalsInvariant (vitalsOf w1)
                  ∧ pointwise vitalsKept (vitalsOf w) (vitalsOf w1)
                  ∧ (isDamage op = true →
                     pointwise healthNotRaised (vitalsOf w) (vitalsOf w1))
                  ∧ (∀ p : ptr, usesItem p op = false →
                       option_Forall2 killedNotRaised
                         (vitalsOf w !! p) (vitalsOf w1 !! p))).
  { assert (Hle : ∀ v, healthNotRaised v v)
      by (intros v; unfold healthNotRaised; lia).
    destruct op as [this source damage|this delta um|this consumable];
      cbn in Hop, Hv1.
    - destruct Hop as [Hd Hmax].
      destruct Hv1 as [->| ->].
      { split; [done|]. split; [apply pointwise_refl, vitalsKept_refl|].
        split; [intros _; by apply pointwise_refl|].
        intros p _. apply (pointwise_refl killedNotRaised).
        apply killedNotRaised_refl. }
      assert (Hspec : ∀ v, vitalsOf w !! this = Some v →
                0 ≤ v_health (damagedVitals damage v) ≤ v_health v
                ∧ vitalsKept v (damagedVitals damage v)).
      { intros v Hv. destruct (Hfull this v Hv) as (c0 & Hc0 & Hf0).
        apply damagedVitals_spec; [done|rewrite <- Hf0; by eapply Hmax|].
        by eapply Hinv. }
      split; [|split; [|split]].
      + apply vitalsInvariant_alter; [done|]. intros v Hv.
        destruct (Hspec v Hv) as [Hh (Hf & _)]. rewrite Hf.
        pose proof (Hinv this v Hv). lia.
      + apply pointwise_alter; [apply vitalsKept_refl|].
        intros v Hv. by destruct (Hspec v Hv).
      + intros _. apply pointwise_alter; [done|].
        intros v Hv. destruct (Hspec v Hv) as [Hh _].
        unfold healthNotRaised. lia.
      + intros p _. apply (pointwise_alter killedNotRaised);
          [apply killedNotRaised_refl|].
        intros v Hv. destruct (Hspec v Hv) as [Hh Hvk].
        split; [exact Hvk|]. intros _. lia.
    - destruct Hop as [Hd Hmax].
      destruct Hv1 as [->| ->].
      { split; [done|]. split; [apply pointwise_refl, vitalsKept_refl|].
        split; [done|].
        intros p _. apply (pointwise_refl killedNotRaised).
        apply killedNotRaised_refl. }
      assert (Hspec : ∀ v, vitalsOf w !! this = Some v →
                v_health v
                  ≤ v_health (regeneratedVitals (baseRegenDeltaHealth um) v)
                  ≤ v_fullHealth v
                ∧ killedNotRaised v
                    (regeneratedVitals (baseRegenDeltaHealth um) v)).
      { intros v Hv. destruct (Hfull this v Hv) as (c0 & Hc0 & Hf0).
        apply regeneratedVitals_spec; [done|rewrite <- Hf0; by eapply Hmax|].
        by eapply Hinv. }
      split; [|split; [|split; [done|]]].
      + apply vitalsInvariant_alter; [done|]. intros v Hv.
        destruct (Hspec v Hv) as [Hh [(Hf & _) _]]. rewrite Hf.
        pose proof (Hinv this v Hv). lia.
      + apply pointwise_alter; [apply vitalsKept_refl|].
        intros v Hv. by destruct (Hspec v Hv) as [_ [? _]].
      + intros p _. apply (pointwise_alter killedNotRaised);
          [apply killedNotRaised_refl|].
        intros v Hv. by destruct (Hspec v Hv).
    - destruct Hv1 as (cp & Hcp & Hv1).
      rewrite Hkinds in Hcp. unfold kindsOf in Hcp. rewrite lookup_fmap in Hcp.
      destruct (items w0 !! consumable) as [it|] eqn:Hit; [|discriminate].
      injection Hcp as Hcp.
      assert (Hspec : ∀ v, vitalsOf w !! this = Some v →
                v_health v ≤ v_health (restoredVitals (restoreHealth cp) v)
                  ≤ v_fullHealth v
                ∧ vitalsKept v (restoredVitals (restoreHealth cp) v)).
      { intros v Hv. destruct (Hfull this v Hv) as (c0 & Hc0 & Hf0).
        destruct (Hop c0 it cp Hc0 eq_refl Hcp) as [Hr Hmax].
        apply restoredVitals_spec; [done|by rewrite <- Hf0|].
        by eapply Hinv. }
      rewrite Hv1. split; [|split; [|split; [done|]]].
      + apply vitalsInvariant_alter; [done|]. intros v Hv.
        destruct (Hspec v Hv) as [Hh (Hf & _)]. rewrite Hf.
        pose proof (Hinv this v Hv). lia.
      + apply pointwise_alter; [apply vitalsKept_refl|].
        intros v Hv. by destruct (Hspec v Hv).
      + intros p Hp. apply bool_decide_eq_false in Hp.
        rewrite lookup_alter_ne by done.
        apply (pointwise_refl killedNotRaised). apply killedNotRaised_refl. }
  destruct Hstep as (Hinv1 & Hkept1 & Hle1 & Hkilled1).
  destruct (IH w0 w1 w') as (Hinv' & Hkept' & Hle' & Hkilled'); try done.
  { eapply pointwise_trans; [apply vitalsKept_trans|done|done]. }
  { congruence. }
  split; [done|]. split; [|split].
  - eapply pointwise_trans; [apply vitalsKept_trans|done|done].
  - cbn [forallb]. intros [Hop1 Hops]%andb_prop.
    eapply pointwise_trans; [|by apply Hle1|by apply Hle'].
    unfold healthNotRaised. intros; lia.
  - cbn [forallb]. intros p [Hop1 Hops]%andb_prop.
    apply negb_true_iff in Hop1.
    specialize (Hkilled1 p Hop1). specialize (Hkilled' p Hops).
    destruct Hkilled1 as [v1 v2 H12|]; inversion Hkilled'; subst; constructor.
    by eapply killedNotRaised_trans.
Qed.

(** [receiveDamage] floors health at 0 whatever the damage, negative or
    overflowing. *)
Lemma receiveDamage_floor (kDestroyed : Z) (this : ptr) (source : option ptr)
    (damage : Z) (w w' : World) (r : bool) :
  (∀ (p : ptr) (c : Character), characters w !! p = Some c → 0 ≤ getHealth c) →
  receiveDamage kDestroyed this source damage w = Some (r, w') →
  ∀ (p : ptr) (c' : Character), characters w' !! p = Some c' → 0 ≤ getHealth c'.
Proof.
  intros Hlow Hrun p c' Hc'.
  assert (Hlow' : ∀ v : Vitals, vitalsOf w !! p = Some v → 0 ≤ v_health v).
  { intros v. rewrite lookup_vitalsOf.
    destruct (characters w !! p) as [c|] eqn:Hc; [|done].
    intros [= <-]. by apply (Hlow p c). }
  assert (Hv' : vitalsOf w' !! p = Some (vitals c'))
    by (by rewrite lookup_vitalsOf, Hc').
  change (0 ≤ v_health (vitals c')).
  apply receiveDamage_vitals in Hrun as [_ [Hsame|Hhit]].
  - rewrite Hsame in Hv'. by apply Hlow'.
  - rewrite Hhit in Hv'. destruct (decide (p = this)) as [->|Hne].
    + rewrite lookup_alter_eq in Hv'.
      destruct (vitalsOf w !! this) as [v|]; [|done].
      apply (inj Some) in Hv'. rewrite <- Hv'. unfold damagedVitals. cbn.
      destruct (Z.leb_spec (Int32.sub (v_health v) damage) 0); lia.
    + rewrite lookup_alter_ne in Hv' by done. by apply Hlow'.
Qed.

(** C1 (as amended).  Along any run of damage receipts, heads of [update]
    and consumable uses with non-negative amounts (and sums within [int]),
    every character's health stays within [[0, fullHealth]], full health
    and the killed flag do not change, and a raised set-to-kill flag stays
    raised.  Damage never raises health: along a run of damage receipts
    only, no character's health increases.  [update] skips a killed
    character: once the killed flag is set, a run in which the character
    uses no consumable does not raise its health, so a health of 0 stays 0.
    A damage receipt of any amount, negative or not, leaves no health below
    0.  Negative damage and consumable use are not gated on the flags (see
    the counterexample below). *)
Theorem health_stays_in_range
    (kDestroyed kMeleeWeapon kDefaultWeaponMaskBits : Z)
    (ops : list HealthOp) (w w' : World) :
  healthInvariant w →
  Forall (admissible w) ops →
  runHealthOps kDestroyed kMeleeWeapon kDefaultWeaponMaskBits ops w
  = Some (tt, w') →
  healthInvariant w'
  ∧ (∀ (p : ptr) (c' : Character),
      characters w' !! p = Some c' →
      ∃ c : Character,
        characters w !! p = Some c
        ∧ getFullHealth c' = getFullHealth c
        ∧ isKilled c' = isKilled c
        ∧ (isSetToKill c = true → isSetToKill c' = true)
        ∧ (forallb isDamage ops = true → getHealth c' ≤ getHealth c)
        ∧ (isKilled c = true →
           forallb (λ op, negb (usesItem p op)) ops = true →
           getHealth c' ≤ getHealth c
           ∧ (getHealth c = 0 → getHealth c' = 0)))
  ∧ ∀ (this : ptr) (source : option ptr) (damage : Z) (w1 w2 : World)
      (r : bool),
      (∀ (p : ptr) (c : Character),
         characters w1 !! p = Some c → 0 ≤ getHealth c) →
      receiveDamage kDestroyed this source damage w1 = Some (r, w2) →
      ∀ (p : ptr) (c : Character),
        characters w2 !! p = Some c → 0 ≤ getHealth c.
Proof.
  intros Hinv Hadm Hrun.
  assert (HinvV : vitalsInvariant (vitalsOf w)).
  { intros p v. rewrite lookup_vitalsOf.
    destruct (characters w !! p) as [c|] eqn:Hc; [|done].
    intros [= <-]. by apply (Hinv p c). }
  destruct (runHealthOps_invariant kDestroyed kMeleeWeapon
              kDefaultWeaponMaskBits ops w w w')
    as (Hinv' & Hkept & Hle & Hkilled); try done.
  { apply pointwise_refl, vitalsKept_refl. }
  assert (Hinv'' : healthInvariant w').
  { intros p c' Hc'. apply (Hinv' p (vitals c')).
    by rewrite lookup_vitalsOf, Hc'. }
  split; [exact Hinv''|].
  split; [|intros this source damage w1 w2 r; apply receiveDamage_floor].
  intros p c' Hc'. specialize (Hkept p).
  rewrite !lookup_vitalsOf, Hc' in Hkept.
  destruct (characters w !! p) as [c|] eqn:Hc; [|inversion Hkept].
  exists c. split; [done|].
  inversion Hkept as [? ? (Hf & Hk & Hs)|]; subst.
  split; [exact Hf|]. split; [exact Hk|]. split; [exact Hs|]. split.
  - intros Hdmg. specialize (Hle Hdmg p).
    rewrite !lookup_vitalsOf, Hc, Hc' in Hle.
    by inversion Hle.
  - intros Hdead Hops. specialize (Hkilled p Hops).
    rewrite !lookup_vitalsOf, Hc, Hc' in Hkilled.
    inversion Hkilled as [? ? [_ Hnr]|]; subst.
    specialize (Hnr Hdead). cbn in Hnr.
    split; [exact Hnr|].
    intros Hzero. pose proof (Hinv'' p c' Hc'). lia.
Qed.

Lemma health_stays_in_range_witness :
  match runHealthOps 0 16 9 [OpReceiveDamage 1%nat (Some 2%nat) 15;
                             OpUpdate 2%nat 1%float exMembers;
                             OpReceiveDamage 1%nat (Some 3%nat) 4] exWorld3 with
  | Some (_, w') => healthInvariant w'
  | None => False
  end.
Proof.
  destruct (runHealthOps 0 16 9 [OpReceiveDamage 1%nat (Some 2%nat) 15;
                                 OpUpdate 2%nat 1%float exMembers;
                                 OpReceiveDamage 1%nat (Some 3%nat) 4] exWorld3)
    as [[[] w']|] eqn:Hrun; [|vm_compute in Hrun; discriminate].
  refine (proj1 (health_stays_in_range 0 16 9 _ exWorld3 w' _ _ Hrun)).
  - intros p c Hc. unfold exWorld3 in Hc. cbn in Hc.
    repeat (rewrite lookup_insert in Hc; case_decide;
            [injection Hc as <-; cbn; lia|]).
    by rewrite lookup_empty in Hc.
  - assert (Hfull : ∀ (p : ptr) (c : Character) (n : Z),
              characters exWorld3 !! p = Some c → 0 ≤ n ≤ 5 →
              getFullHealth c + n ≤ Int32.max_int).
    { intros p c n Hc Hn. unfold exWorld3 in Hc. cbn in Hc.
      unfold Int32.max_int.
      repeat (rewrite lookup_insert in Hc; case_decide;
              [injection Hc as <-; cbn; lia|]).
      by rewrite lookup_empty in Hc. }
    apply List.Forall_cons.
    { cbn. split; [unfold Int32.max_int; lia|].
      intros c Hc. specialize (Hfull _ c 0 Hc). lia. }
    apply List.Forall_cons.
    { cbn. split; [lia|]. intros c Hc. apply (Hfull _ c 5 Hc). lia. }
    apply List.Forall_cons.
    { cbn. split; [unfold Int32.max_int; lia|].
      intros c Hc. specialize (Hfull _ c 0 Hc). lia. }
    apply List.Forall_nil.
Defined.

(** C1, the claim as worded fails on two paths.  [useItem] has no guard: a
    character that is killed and set to kill, at health 0 of 50, uses a
    potion restoring 20 and is at health 20.  [receiveDamage] has no upper
    clamp and no guard on the receiver: a damage of -2 (the damage output
    is the base damage plus a roll between -5 and 5) dealt by a live
    character puts the killed character at health 2, and a live character
    at health 80 of 80 at health 82. *)
Lemma useItem_after_killed_counterexample :
  isKilled exDead = true ∧ isSetToKill exDead = true ∧ getHealth exDead = 0
  ∧ (∃ (w' : World) (c' : Character),
       runHealthOps 0 16 9 [OpUseItem 1%nat 10%nat] exWorldDead = Some (tt, w')
       ∧ characters w' !! 1%nat = Some c'
       ∧ isKilled c' = true ∧ getHealth c' = 20)
  ∧ (∃ (w' : World) (c' : Character),
       runHealthOps 0 16 9 [OpReceiveDamage 1%nat (Some 2%nat) (-2)]
         exWorldDeadHit = Some (tt, w')
       ∧ characters w' !! 1%nat = Some c'
       ∧ isKilled c' = true ∧ getHealth c' = 2)
  ∧ (∃ (w' : World) (c c' : Character),
       runHealthOps 0 16 9 [OpReceiveDamage 2%nat (Some 3%nat) (-2)]
         exWorld3 = Some (tt, w')
       ∧ characters exWorld3 !! 2%nat = Some c
       ∧ getHealth c = 80 ∧ getFullHealth c = 80
       ∧ characters w' !! 2%nat = Some c'
       ∧ getHealth c' = 82 ∧ getFullHealth c' = 80).
Proof.
  split; [reflexivity|]. split; [reflexivity|]. split; [reflexivity|].
  split; [|split].
  - eexists _, _. split; [vm_compute; reflexivity|].
    split; [vm_compute; reflexivity|]. split; reflexivity.
  - eexists _, _. split; [vm_compute; reflexivity|].
    split; [vm_compute; reflexivity|]. split; reflexivity.
  - eexists _, _, _. split; [vm_compute; reflexivity|].
    split; [vm_compute; reflexivity|]. split; [reflexivity|].
    split; [reflexivity|]. split; [vm_compute; reflexivity|].
    split; reflexivity.
Qed.

(** [update] tests the killed flag, not the set-to-kill flag: between the
    lethal damage and the end of the KILLED animation, which sets the
    killed flag, the character still regenerates.  The receiver of scenario
    1, set to kill at health 0, is at health 5 after the next expiry of the
    timer. *)
Lemma update_regenerates_set_to_kill :
  ∃ (w1 w2 : World) (c1 c2 : Character),
    runHealthOps 0 16 9 [OpReceiveDamage 1%nat (Some 2%nat) 15] exWorld3
    = Some (tt, w1)
    ∧ characters w1 !! 1%nat = Some c1
    ∧ getHealth c1 = 0 ∧ isSetToKill c1 = true ∧ isKilled c1 = false
    ∧ runHealthOps 0 16 9 [OpUpdate 1%nat 1%float exMembers] w1 = Some (tt, w2)
    ∧ characters w2 !! 1%nat = Some c2
    ∧ getHealth c2 = 5 ∧ isSetToKill c2 = true.
Proof.
  eexists _, _, _, _. split; [vm_compute; reflexivity|].
  split; [vm_compute; reflexivity|]. split; [reflexivity|].
  split; [reflexivity|]. split; [reflexivity|].
  split; [vm_compute; reflexivity|].
  split; [vm_compute; reflexivity|]. split; reflexivity.
Qed.

(** ** Inventory *)

Lemma lookup_profilesOf (w : World) (i : ptr) :
  profilesOf w !! i = itemProfile <$> items w !! i.
Proof. unfold profilesOf. apply lookup_fmap. Qed.

Lemma profilesOf_setAmount (its : gmap ptr Item) (e : ptr) (it : Item) (n : Z) :
  its !! e = Some it →
  itemProfile <$> <[e := setAmount n it]> its = itemProfile <$> its.
Proof.
  intros H. apply map_eq. intros q. rewrite !lookup_fmap.
  destruct (decide (q = e)) as [->|Hne].
  - by rewrite lookup_insert_eq, H.
  - by rewrite lookup_insert_ne.
Qed.

Lemma lookup_setAmount_profile (its : gmap ptr Item) (e i : ptr) (it0 it : Item)
    (n : Z) :
  its !! e = Some it0 →
  <[e := setAmount n it0]> its !! i = Some it →
  ∃ it' : Item, its !! i = Some it' ∧ itemProfile it = itemProfile it'.
Proof.
  intros He. destruct (decide (i = e)) as [->|Hne].
  - rewrite lookup_insert_eq. intros [= <-]. by exists it0.
  - rewrite lookup_insert_ne by done. intros H. by exists it.
Qed.

Lemma addItem_ownsQuantity (this : ptr) (prof : ItemProfile) (q amt : Z)
    (i : ptr) (w : World) :
  ownsQuantity this prof q w →
  profilesOf w !! i = Some prof →
  0 ≤ amt → q + amt ≤ Int32.max_int →
  ∃ w' : World,
    addItem this (Some i) amt w = Some (tt, w')
    ∧ ownsQuantity this prof (q + amt) w'
    ∧ profilesOf w' = profilesOf w.
Proof.
  intros (Hq & c & Hc & Hcanon & Hsingle) Hi Hamt Hmax.
  rewrite lookup_profilesOf in Hi.
  destruct (items w !! i) as [it|] eqn:Hit; [|discriminate].
  cbn in Hi. injection Hi as Hprof.
  destruct w as [cs its cbs evs]. cbn in Hc, Hit.
  unfold addItem. destruct (Z.eqb_spec amt 0) as [->|Hnz].
  { eexists. split; [reflexivity|]. split; [|reflexivity].
    rewrite Z.add_0_r. split; [done|]. exists c. by split. }
  unfold getExistingItemObj. munfold. munfold. cbn in Hcanon |- *.
  rewrite Hit. cbn. rewrite Hc. cbn. rewrite Hprof.
  destruct (itemMapper (bag c) !! jsonFileName prof) as [e|] eqn:He.
  - destruct Hcanon as (eit & Heit & Hep & Heq & Hin).
    repeat (progress (cbn; rewrite ?lookup_insert_eq, ?Hc, ?Heit)).
    eexists. split; [reflexivity|]. split.
    + split; [lia|]. eexists. split; [apply lookup_insert_eq|].
      cbn. rewrite He. split.
      * eexists. split; [cbn; apply lookup_insert_eq|]. cbn.
        split; [done|]. split.
        -- rewrite Heq. apply wrap_in_range.
           unfold Int32.in_range, Int32.min_int, Int32.max_int in *. lia.
        -- intros _. rewrite Hep. unfold insert, fn_insert.
           rewrite decide_True by done. set_solver.
      * unfold singleInstance. cbn. rewrite ?He, ?Hprof, ?lookup_insert_eq.
        intros ty i' it' Hin' Hit' Hname.
        destruct (lookup_setAmount_profile _ _ _ _ _ _ Heit Hit')
          as (it0 & Hit0 & Hp0).
        rewrite Hep in Hin'. unfold insert, fn_insert in Hin'.
        destruct (decide (itemType prof = ty)) as [<-|Hty].
        -- apply elem_of_union in Hin' as [Hin'|Hin'].
           ++ destruct (Hsingle _ _ it0 Hin' Hit0) as [Hm Hty'];
                [by rewrite <- Hp0|]. by rewrite He in Hm.
           ++ apply elem_of_singleton in Hin' as ->. done.
        -- destruct (Hsingle _ _ it0 Hin' Hit0) as [Hm Hty'];
             [by rewrite <- Hp0|]. by rewrite He in Hm.
    + unfold profilesOf. cbn. by apply profilesOf_setAmount.
  - subst q.
    repeat (progress (cbn; rewrite ?lookup_insert_eq, ?Hc, ?Hit)).
    eexists. split; [reflexivity|]. split.
    + split; [lia|]. eexists. split; [apply lookup_insert_eq|].
      cbn. rewrite Hprof, lookup_insert_eq. split.
      * eexists. split; [cbn; apply lookup_insert_eq|]. cbn.
        split; [done|]. split; [lia|].
        intros _. unfold insert, fn_insert.
        rewrite decide_True by done. set_solver.
      * unfold singleInstance. cbn. rewrite ?He, ?Hprof, ?lookup_insert_eq.
        intros ty i' it' Hin' Hit' Hname.
        destruct (lookup_setAmount_profile _ _ _ _ _ _ Hit Hit')
          as (it0 & Hit0 & Hp0).
        unfold insert, fn_insert in Hin'.
        destruct (decide (itemType prof = ty)) as [<-|Hty].
        -- apply elem_of_union in Hin' as [Hin'|Hin'].
           ++ destruct (Hsingle _ _ it0 Hin' Hit0) as [Habs _];
                [by rewrite <- Hp0|]. congruence.
           ++ apply elem_of_singleton in Hin' as ->. done.
        -- destruct (Hsingle _ _ it0 Hin' Hit0) as [Habs _];
             [by rewrite <- Hp0|]. congruence.
    + unfold profilesOf. cbn. by apply profilesOf_setAmount.
Qed.

Lemma removeItem_ownsQuantity (this : ptr) (prof : ItemProfile) (q amt : Z)
    (i : ptr) (w : World) :
  ownsQuantity this prof q w →
  profilesOf w !! i = Some prof →
  0 ≤ amt ≤ q →
  ∃ w' : World,
    removeItem this (Some i) amt w = Some (tt, w')
    ∧ ownsQuantity this prof (q - amt) w'
    ∧ profilesOf w' = profilesOf w.
Proof.
  intros (Hq & c & Hc & Hcanon & Hsingle) Hi Hamt.
  rewrite lookup_profilesOf in Hi.
  destruct (items w !! i) as [it|] eqn:Hit; [|discriminate].
  cbn in Hi. injection Hi as Hprof.
  destruct w as [cs its cbs evs]. cbn in Hc, Hit, Hcanon.
  unfold removeItem, getExistingItemObj. munfold. munfold. cbn.
  rewrite Hit. cbn. rewrite Hc. cbn. rewrite Hprof.
  destruct (itemMapper (bag c) !! jsonFileName prof) as [e|] eqn:He.
  2:{ subst q. assert (amt = 0) as -> by lia.
      eexists. split; [reflexivity|]. split; [|reflexivity].
      split; [lia|]. exists c. split; [done|]. rewrite He. by split. }
  destruct Hcanon as (eit & Heit & Hep & Heq & Hin).
  destruct (Z.eqb_spec amt 0) as [->|Hnz].
  { eexists. split; [reflexivity|]. split; [|reflexivity].
    rewrite Z.sub_0_r. split; [done|]. exists c. split; [done|].
    rewrite He. split; [|done]. by exists eit. }
  cbn. rewrite Heit. cbn.
  assert (Hsub : Int32.sub (amount eit) amt = q - amt).
  { rewrite Heq. apply wrap_in_range.
    unfold Int32.in_range, Int32.min_int, Int32.max_int in *. lia. }
  rewrite Hsub.
  destruct (Z.ltb_spec (q - amt) 0) as [?|_]; [lia|].
  cbn.
  assert (Hsingle' : ∀ x, singleInstance prof
            (mkWorld cs (<[e := setAmount (q - amt) eit]> its) cbs evs) x
            ↔ singleInstance prof (mkWorld cs its cbs evs) x).
  { intros x. unfold singleInstance. cbn. split; intros H ty i' it' Hin' Hit'.
    - destruct (decide (i' = e)) as [->|Hne].
      + rewrite Heit in Hit'. injection Hit' as <-. intros Hn.
        eapply (H ty e); [done|apply lookup_insert_eq|done].
      + intros Hn. eapply (H ty i'); [done| |done].
        by rewrite lookup_insert_ne.
    - intros Hn.
      destruct (lookup_setAmount_profile _ _ _ _ _ _ Heit Hit')
        as (it0 & Hit0 & Hp0).
      eapply (H ty i'); [done|done|]. by rewrite <- Hp0. }
  destruct (Z.eqb_spec (q - amt) 0) as [Hz|Hpos].
  - (* the last copy leaves the inventory *)
    assert (Hit' : ∃ it', <[e := setAmount (q - amt) eit]> its !! i = Some it'
                          ∧ itemProfile it' = prof).
    { destruct (decide (i = e)) as [->|Hne].
      - rewrite lookup_insert_eq. eexists. split; [done|]. done.
      - rewrite lookup_insert_ne by done. by exists it. }
    destruct Hit' as (it' & Hit' & Hprof').
    repeat (progress (cbn; rewrite ?Hc, ?Heit, ?Hit', ?lookup_insert_eq)).
    rewrite Hprof'.
    assert (Herased : ∀ (ty : ItemType) (i' : ptr),
              i' ∈ (<[itemType prof := inventory (bag c) (itemType prof) ∖ {[e]}]>
                      (inventory (bag c))) ty →
              i' ∈ inventory (bag c) ty ∧ (ty = itemType prof → i' ≠ e)).
    { intros ty i'. unfold insert, fn_insert.
      destruct (decide (itemType prof = ty)) as [<-|Hty]; set_solver. }
    unfold inventoryErase. cbn.
    match goal with |- context [negb ?x] => destruct x end; cbn.
    + eexists. split; [reflexivity|]. split.
      * split; [lia|]. eexists. split; [apply lookup_insert_eq|].
        cbn. rewrite He. split.
        -- eexists. split; [apply lookup_insert_eq|]. cbn.
           split; [done|]. split; [done|lia].
        -- apply Hsingle'. intros ty i' it0 Hin' Hit0 Hn. cbn in Hin', Hit0.
           apply Herased in Hin' as [Hin' _]. cbn. rewrite He.
           rewrite <- He. by eapply Hsingle.
      * unfold profilesOf. cbn. by apply profilesOf_setAmount.
    + rewrite lookup_insert_eq. cbn. rewrite insert_insert_eq.
      eexists. split; [reflexivity|]. split.
      * split; [lia|]. eexists. split; [apply lookup_insert_eq|].
        cbn. rewrite lookup_delete_eq. split; [lia|].
        apply Hsingle'. intros ty i' it0 Hin' Hit0 Hn. cbn in Hin', Hit0.
        apply Herased in Hin' as [Hin' Hne]. exfalso.
        destruct (Hsingle ty i' it0 Hin' Hit0 Hn) as [Hm Hty].
        rewrite He in Hm. injection Hm as <-. by apply Hne.
      * unfold profilesOf. cbn. by apply profilesOf_setAmount.
  - repeat (progress (cbn; rewrite ?Hc, ?Heit, ?lookup_insert_eq)).
    eexists. split; [reflexivity|]. split.
    + split; [lia|]. exists c. split; [done|]. rewrite He. split.
      * eexists. split; [apply lookup_insert_eq|]. cbn.
        split; [done|]. split; [done|]. intros _. apply Hin. lia.
      * by apply Hsingle'.
    + unfold profilesOf. cbn. by apply profilesOf_setAmount.
Qed.

Lemma getItemAmount_ownsQuantity (this : ptr) (prof : ItemProfile) (q : Z)
    (w : World) :
  ownsQuantity this prof q w →
  getItemAmount this (jsonFileName prof) w = Some (q, w).
Proof.
  intros (Hq & c & Hc & Hcanon & _). unfold getItemAmount. munfold. cbn.
  rewrite Hc. cbn.
  destruct (itemMapper (bag c) !! jsonFileName prof) as [e|].
  - destruct Hcanon as (it & Hit & _ & Ham & _). cbn. rewrite Hit. cbn.
    by rewrite Ham.
  - by subst q.
Qed.

(** C2.  Starting from an owned quantity [q] of an item definition, any
    sequence of [addItem]/[removeItem] calls on instances of that
    definition, with non-negative amounts and no removal above the quantity
    owned at that point, runs to completion; afterwards the quantity owned
    is [q] plus the amounts added minus the amounts removed, it is carried
    by the one canonical instance of the owning map (listed in the
    inventory while the quantity is positive), and every instance of the
    definition found in the inventory is that canonical instance. *)
Theorem item_quantity_is_net (this : ptr) (prof : ItemProfile)
    (ops : list ItemOp) (q : Z) (w : World) :
  ownsQuantity this prof q w →
  Forall (λ op, profilesOf w !! opItem op = Some prof) ops →
  validItemOps q ops →
  let net := q + addedAmount ops - removedAmount ops in
  ∃ w' : World,
    runItemOps this ops w = Some (tt, w')
    ∧ ownsQuantity this prof net w'
    ∧ getItemAmount this (jsonFileName prof) w' = Some (net, w').
Proof.
  intros Hown Hitems Hvalid net. subst net.
  assert (Hgen : ∃ w' : World,
            runItemOps this ops w = Some (tt, w')
            ∧ ownsQuantity this prof
                (q + addedAmount ops - removedAmount ops) w').
  { revert q w Hown Hitems Hvalid.
    induction ops as [|op ops IH]; intros q w Hown Hitems Hvalid.
    - exists w. split; [reflexivity|]. cbn.
      by replace (q + 0 - 0) with q by lia.
    - apply list.Forall_cons in Hitems as [Hitem Hitems].
      unfold runItemOps. cbn [forEach].
      destruct op as [i amt|i amt]; cbn in Hvalid, Hitem.
      + destruct Hvalid as (Hamt & Hmax & Hvalid).
        destruct (addItem_ownsQuantity this prof q amt i w Hown Hitem Hamt Hmax)
          as (w1 & Hrun1 & Hown1 & Hprof1).
        destruct (IH (q + amt) w1 Hown1) as (w' & Hrun & Hown');
          [by rewrite Hprof1|done|].
        exists w'. split.
        * cbn [runItemOp]. by rewrite (mbind_Some _ _ _ _ _ Hrun1).
        * cbn [addedAmount removedAmount].
          by replace (q + (amt + addedAmount ops) - removedAmount ops)
            with (q + amt + addedAmount ops - removedAmount ops) by lia.
      + destruct Hvalid as (Hamt & Hvalid).
        destruct (removeItem_ownsQuantity this prof q amt i w Hown Hitem Hamt)
          as (w1 & Hrun1 & Hown1 & Hprof1).
        destruct (IH (q - amt) w1 Hown1) as (w' & Hrun & Hown');
          [by rewrite Hprof1|done|].
        exists w'. split.
        * cbn [runItemOp]. by rewrite (mbind_Some _ _ _ _ _ Hrun1).
        * cbn [addedAmount removedAmount].
          by replace (q + addedAmount ops - (amt + removedAmount ops))
            with (q - amt + addedAmount ops - removedAmount ops) by lia. }
  destruct Hgen as (w' & Hrun & Hown').
  exists w'. split; [done|]. split; [done|].
  by apply getItemAmount_ownsQuantity.
Qed.

(** Scenario 2: [addItem(potion, 3)], [addItem(potion, 2)],
    [removeItem(potion, 4)]. *)
Lemma item_quantity_is_net_witness :
  ∃ w' : World,
    runItemOps 1%nat
      [OpAddItem 10%nat 3; OpAddItem 11%nat 2; OpRemoveItem 11%nat 4]
      exWorldItems = Some (tt, w')
    ∧ ownsQuantity 1%nat (itemProfile (exPotion 0)) 1 w'
    ∧ getItemAmount 1%nat "Resources/Database/item/potion.json" w'
      = Some (1, w').
Proof.
  apply (item_quantity_is_net 1%nat (itemProfile (exPotion 0))
           [OpAddItem 10%nat 3; OpAddItem 11%nat 2; OpRemoveItem 11%nat 4]
           0 exWorldItems).
  - split; [unfold Int32.max_int; lia|].
    exists (exCharacter 1 10 50 0%float noTargets).
    split; [reflexivity|]. split; [reflexivity|].
    intros ty i it Hin. cbn in Hin. set_solver.
  - repeat (apply List.Forall_cons; [reflexivity|]). apply List.Forall_nil.
  - cbn. unfold Int32.max_int. lia.
Defined.

Example scenario2_instance_present :
  (λ r, c ← characters r.2 !! 1%nat;
        i ← itemMapper (bag c) !! "Resources/Database/item/potion.json";
        it ← items r.2 !! i;
        Some (i, amount it, bool_decide (i ∈ inventory (bag c) 1%nat),
              bool_decide (11%nat ∈ inventory (bag c) 1%nat)))
    <$> runItemOps 1%nat
          [OpAddItem 10%nat 3; OpAddItem 11%nat 2; OpRemoveItem 11%nat 4]
          exWorldItems
  = Some (Some (10%nat, 1, true, false)).
Proof. vm_compute. reflexivity. Qed.

(** ** Equipment *)

Ltac solve_inventory :=
  repeat match goal with
         | |- context [decide (?a = ?b)] =>
             let Heq := fresh "Heq" in
             destruct (decide (a = b)) as [Heq|?]; [try rewrite Heq in *|]
         end;
  set_solver.

(** C7 (as amended).  [equip(e)] with another equipment [d] in the slot of
    [e]'s type, both canonical instances of the owning map: [d] goes back
    to the inventory with its quantity raised by one, [e] takes the slot
    and its quantity drops by one.  [e] leaves the inventory exactly when
    that was its last copy; while further copies remain it stays listed
    (and is then both in the slot and in the inventory).  The owning map is
    unchanged. *)
Theorem equip_swaps (kUnequipAudio : bool) (this e d : ptr) (audio : bool)
    (w : World) (c : Character) (eit dit : Item) (ep : EquipmentProfile) :
  characters w !! this = Some c →
  items w !! e = Some eit →
  itemKind eit = EquipmentItem ep →
  items w !! d = Some dit →
  equipmentSlots (bag c) (equipmentType ep) = Some d →
  d ≠ e →
  itemMapper (bag c) !! jsonFileName (itemProfile dit) = Some d →
  itemMapper (bag c) !! jsonFileName (itemProfile eit) = Some e →
  0 ≤ amount dit < Int32.max_int →
  1 ≤ amount eit ≤ Int32.max_int →
  ∃ (w' : World) (c' : Character) (eit' dit' : Item),
    equip kUnequipAudio this e audio w = Some (tt, w')
    ∧ characters w' !! this = Some c'
    ∧ items w' !! e = Some eit'
    ∧ items w' !! d = Some dit'
    ∧ equipmentSlots (bag c') (equipmentType ep) = Some e
    ∧ amount dit' = amount dit + 1
    ∧ d ∈ inventory (bag c') (itemType (itemProfile dit))
    ∧ amount eit' = amount eit - 1
    ∧ (amount eit = 1 → e ∉ inventory (bag c') (itemType (itemProfile eit)))
    ∧ (1 < amount eit →
       e ∈ inventory (bag c) (itemType (itemProfile eit)) →
       e ∈ inventory (bag c') (itemType (itemProfile eit)))
    ∧ itemMapper (bag c') = itemMapper (bag c).
Proof.
  intros Hc He Hkind Hd Hslot Hne Hmd Hme Hda Hea.
  destruct w as [cs its cbs evs]. cbn in Hc, He, Hd.
  assert (Hadd : Int32.add (amount dit) 1 = amount dit + 1).
  { apply wrap_in_range.
    unfold Int32.in_range, Int32.min_int, Int32.max_int in *. lia. }
  assert (Hsub : Int32.sub (amount eit) 1 = amount eit - 1).
  { apply wrap_in_range.
    unfold Int32.in_range, Int32.min_int, Int32.max_int in *. lia. }
  unfold equip, unequip, removeItem, addItem, getExistingItemObj.
  munfold. munfold. cbn.
  assert (Hltb : (amount eit - 1 <? 0) = false) by lia.
  assert (Hslot' : ∀ (f : EquipmentType → option ptr) (x : option ptr),
            (<[equipmentType ep := x]> f) (equipmentType ep) = x).
  { intros f x. unfold insert, fn_insert. by rewrite decide_True. }
  destruct kUnequipAudio, audio;
    repeat (progress (cbn; rewrite ?He, ?Hkind, ?Hc, ?Hslot, ?Hd, ?Hmd, ?Hme,
                        ?Hadd, ?Hsub, ?Hltb, ?Hslot', ?lookup_insert_eq;
                      rewrite ?lookup_insert_ne by done)).
  all: destruct (Z.eqb_spec (amount eit - 1) 0) as [Hz|Hnz];
    repeat (progress (cbn; rewrite ?He, ?Hkind, ?Hc, ?Hslot, ?Hd, ?Hmd, ?Hme,
                        ?Hadd, ?Hsub, ?Hltb, ?Hslot', ?lookup_insert_eq;
                      rewrite ?lookup_insert_ne by done;
                      rewrite ?bool_decide_true by done)).
  all: eexists _, _, _, _; (split; [reflexivity|]); cbn;
    rewrite lookup_insert_eq; (split; [reflexivity|]);
    rewrite lookup_insert_eq; (split; [reflexivity|]);
    rewrite lookup_insert_ne by done; rewrite lookup_insert_eq;
    (split; [reflexivity|]); cbn; rewrite ?Hslot';
    (split; [reflexivity|]); (split; [reflexivity|]);
    unfold inventoryErase, inventoryInsert, insert, fn_insert; cbn;
    (split; [solve_inventory|]);
    (split; [reflexivity|]);
    (split; [intros ?; first [lia|solve_inventory]|]);
    (split; [intros ? ?; first [lia|solve_inventory]|]);
    reflexivity.
Qed.

(** Scenario 3: [equip(sword)] with the dagger in the slot and one sword
    owned. *)
Lemma equip_swaps_witness :
  ∃ (w' : World) (c' : Character) (eit' dit' : Item),
    equip true 1%nat 21%nat true (exWorldArmed 1) = Some (tt, w')
    ∧ characters w' !! 1%nat = Some c'
    ∧ items w' !! 21%nat = Some eit'
    ∧ items w' !! 20%nat = Some dit'
    ∧ equipmentSlots (bag c') EQUIPMENT_WEAPON = Some 21%nat
    ∧ amount dit' = 0 + 1
    ∧ 20%nat ∈ inventory (bag c') 0%nat
    ∧ amount eit' = 1 - 1
    ∧ (1 = 1 → 21%nat ∉ inventory (bag c') 0%nat)
    ∧ (1 < 1 → 21%nat ∈ inventory (bag exArmed) 0%nat →
       21%nat ∈ inventory (bag c') 0%nat)
    ∧ itemMapper (bag c') = itemMapper (bag exArmed).
Proof.
  apply (equip_swaps true 1%nat 21%nat 20%nat true (exWorldArmed 1) exArmed
           (exWeapon "sword.json" 1) (exWeapon "dagger.json" 0)
           {| equipmentType := EQUIPMENT_WEAPON; bonusPhysicalDamage := 5 |}).
  - reflexivity.
  - reflexivity.
  - reflexivity.
  - reflexivity.
  - reflexivity.
  - lia.
  - reflexivity.
  - reflexivity.
  - cbn. unfold Int32.max_int. lia.
  - cbn. unfold Int32.max_int. lia.
Defined.

(** C7, the claim as worded fails when further copies of the equipped item
    remain: with two swords owned, [equip(sword)] leaves the sword instance
    in the weapon slot and, with quantity 1, in the inventory. *)
Lemma equip_stacked_counterexample :
  ∃ (w' : World) (c' : Character) (eit' : Item),
    equip true 1%nat 21%nat true (exWorldArmed 2) = Some (tt, w')
    ∧ characters w' !! 1%nat = Some c'
    ∧ items w' !! 21%nat = Some eit'
    ∧ amount eit' = 1
    ∧ equipmentSlots (bag c') EQUIPMENT_WEAPON = Some 21%nat
    ∧ 21%nat ∈ inventory (bag c') 0%nat.
Proof.
  eexists _, _, _. split; [vm_compute; reflexivity|].
  split; [vm_compute; reflexivity|].
  split; [vm_compute; reflexivity|].
  split; [reflexivity|]. split; [reflexivity|].
  refine (bool_decide_unpack _ _). vm_compute. exact I.
Qed.

(** ** The map manager *)

Lemma isPortalLocked_loop_find (i : Z) (v : list (Z * bool)) :
  is_Some (isPortalLocked_loop i v)
  ↔ is_Some (list_find (λ entry : Z * bool, entry.1 = i) v).
Proof.
  induction v as [|[j b] v IH]; cbn.
  - split; intros [? [=]].
  - destruct (Z.eqb_spec j i) as [->|Hne].
    + rewrite decide_True by done. split; eauto.
    + rewrite decide_False by done. rewrite IH.
      destruct (list_find _ v) as [[n x]|]; cbn; split; intros [? ?]; eauto; done.
Qed.

Lemma setPortalLocked_loop_None (i : Z) (b : bool) (v : list (Z * bool)) :
  setPortalLocked_loop i b v = None ↔ isPortalLocked_loop i v = None.
Proof.
  induction v as [|[j c] v IH]; cbn; [done|].
  destruct (Z.eqb_spec j i); [done|].
  destruct (setPortalLocked_loop i b v); cbn; split; intros H; try done.
  - by apply IH in H.
  - apply IH in H. done.
Qed.

Lemma setPortalLocked_loop_lookup (i i' : Z) (b : bool) (v v' : list (Z * bool)) :
  setPortalLocked_loop i b v = Some v' →
  isPortalLocked_loop i' v'
  = if decide (i' = i) then Some b else isPortalLocked_loop i' v.
Proof.
  revert v'. induction v as [|[j c] v IH]; intros v'; cbn; [done|].
  destruct (Z.eqb_spec j i) as [->|Hne].
  - intros [= <-]. cbn.
    destruct (Z.eqb_spec i i') as [->|Hii].
    + by rewrite decide_True.
    + by rewrite decide_False.
  - destruct (setPortalLocked_loop i b v) as [v0|]; [|done]. cbn.
    intros [= <-]. cbn.
    destruct (Z.eqb_spec j i') as [->|Hji].
    + by rewrite decide_False.
    + by apply IH.
Qed.

Lemma isPortalLocked_loop_app (i' i : Z) (b : bool) (v : list (Z * bool)) :
  isPortalLocked_loop i v = None →
  isPortalLocked_loop i' (v ++ [(i, b)])
  = if decide (i' = i) then Some b else isPortalLocked_loop i' v.
Proof.
  induction v as [|[j c] v IH]; cbn.
  - intros _. destruct (Z.eqb_spec i i') as [->|Hne].
    + by rewrite decide_True.
    + by rewrite decide_False.
  - destruct (Z.eqb_spec j i) as [->|Hne]; [done|]. intros Hv.
    destruct (Z.eqb_spec j i') as [->|Hji].
    + by rewrite decide_False.
    + by apply IH.
Qed.

Lemma setPortalLocked_loop_ids (i : Z) (b : bool) (v v' : list (Z * bool)) :
  setPortalLocked_loop i b v = Some v' → v'.*1 = v.*1.
Proof.
  revert v'. induction v as [|[j c] v IH]; intros v'; cbn; [done|].
  destruct (Z.eqb_spec j i) as [->|Hne].
  - by intros [= <-].
  - destruct (setPortalLocked_loop i b v) as [v0|]; [|done]. cbn.
    intros [= <-]. cbn. f_equal. by apply IH.
Qed.

Lemma isPortalLocked_loop_None_ids (i : Z) (v : list (Z * bool)) :
  isPortalLocked_loop i v = None ↔ i ∉ v.*1.
Proof.
  induction v as [|[j c] v IH]; cbn.
  - split; [intros _; apply not_elem_of_nil|done].
  - rewrite not_elem_of_cons. destruct (Z.eqb_spec j i) as [->|Hne].
    + split; [done|]. intros [? _]. done.
    + rewrite IH. split; [intros ?; split; [congruence|done]|by intros [_ ?]].
Qed.

(** The lock state read back for a portal, without the log. *)
Lemma isPortalLocked_fst (t : string) (i : Z) (m : GameMapManager) :
  (isPortalLocked t i m).1
  = default false (allPortalStates m !! t ≫= isPortalLocked_loop i).
Proof.
  unfold isPortalLocked. destruct (allPortalStates m !! t) as [v|]; cbn; [|done].
  by destruct (isPortalLocked_loop i v).
Qed.

Lemma hasSavedPortalLockUnlockState_loop (t : string) (i : Z) (m : GameMapManager) :
  hasSavedPortalLockUnlockState t i m
  = bool_decide (is_Some (allPortalStates m !! t ≫= isPortalLocked_loop i)).
Proof.
  unfold hasSavedPortalLockUnlockState.
  destruct (allPortalStates m !! t) as [v|]; cbn.
  - apply bool_decide_ext. symmetry. apply isPortalLocked_loop_find.
  - reflexivity.
Qed.

(** What [setPortalLocked] leaves under each map name. *)
Lemma setPortalLocked_states (t t' : string) (i i' : Z) (b : bool)
    (m : GameMapManager) :
  allPortalStates (setPortalLocked t i b m) !! t' ≫= isPortalLocked_loop i'
  = if decide (t' = t ∧ i' = i) then Some b
    else allPortalStates m !! t' ≫= isPortalLocked_loop i'.
Proof.
  unfold setPortalLocked.
  destruct (allPortalStates m !! t) as [v|] eqn:Hv.
  - destruct (setPortalLocked_loop i b v) as [v'|] eqn:Hset; cbn.
    + destruct (decide (t' = t)) as [->|Hne].
      * rewrite lookup_insert_eq, Hv. cbn.
        rewrite (setPortalLocked_loop_lookup _ _ _ _ _ Hset).
        repeat case_decide; try done; naive_solver.
      * rewrite lookup_insert_ne by done.
        rewrite decide_False by naive_solver. done.
    + apply setPortalLocked_loop_None in Hset.
      destruct (decide (t' = t)) as [->|Hne].
      * rewrite lookup_insert_eq, Hv. cbn.
        rewrite isPortalLocked_loop_app by done.
        repeat case_decide; try done; naive_solver.
      * rewrite lookup_insert_ne by done.
        rewrite decide_False by naive_solver. done.
  - cbn. destruct (decide (t' = t)) as [->|Hne].
    + rewrite lookup_insert_eq, Hv. cbn.
      destruct (Z.eqb_spec i i') as [->|Hii].
      * by rewrite decide_True.
      * rewrite decide_False by naive_solver. done.
    + rewrite lookup_insert_ne by done.
      rewrite decide_False by naive_solver. done.
Qed.

(** The blacklist after a call, whichever branch was taken. *)
Lemma setNpcAllowedToSpawn_blacklist (f : string) (canSpawn : bool)
    (m : GameMapManager) :
  setNpcAllowedToSpawn f canSpawn m
  = set_npcSpawningBlacklist
      (if canSpawn then npcSpawningBlacklist m ∖ {[f]}
       else npcSpawningBlacklist m ∪ {[f]}) m.
Proof.
  destruct m as [bl ps].
  unfold setNpcAllowedToSpawn, isNpcAllowedToSpawn, set_npcSpawningBlacklist.
  cbn. destruct (decide (f ∈ bl)) as [Hf|Hf].
  - rewrite (bool_decide_false (f ∉ bl)) by (by intros ?).
    destruct canSpawn; cbn; [reflexivity|]. f_equal. set_solver.
  - rewrite (bool_decide_true (f ∉ bl)) by done.
    destruct canSpawn; cbn; [|reflexivity]. f_equal. set_solver.
Qed.

(** X1.  After [setNpcAllowedToSpawn(f, canSpawn)], [isNpcAllowedToSpawn]
    answers [canSpawn] for [f] and what it answered before for every other
    file; the saved portal states are not touched. *)
Theorem setNpcAllowedToSpawn_isNpcAllowedToSpawn (f g : string) (canSpawn : bool)
    (m : GameMapManager) :
  isNpcAllowedToSpawn g (setNpcAllowedToSpawn f canSpawn m)
  = (if decide (g = f) then canSpawn else isNpcAllowedToSpawn g m)
  ∧ allPortalStates (setNpcAllowedToSpawn f canSpawn m) = allPortalStates m.
Proof.
  destruct m as [bl ps].
  unfold setNpcAllowedToSpawn, isNpcAllowedToSpawn. cbn.
  destruct (decide (f ∈ bl)) as [Hf|Hf].
  - rewrite (bool_decide_false (f ∉ bl)) by (by intros ?).
    destruct canSpawn; cbn; (split; [|reflexivity]);
      destruct (decide (g = f)) as [->|Hne];
      first [ apply bool_decide_eq_true; set_solver
            | apply bool_decide_eq_false; set_solver
            | apply bool_decide_ext; set_solver ].
  - rewrite (bool_decide_true (f ∉ bl)) by done.
    destruct canSpawn; cbn; (split; [|reflexivity]);
      destruct (decide (g = f)) as [->|Hne];
      first [ apply bool_decide_eq_true; set_solver
            | apply bool_decide_eq_false; set_solver
            | apply bool_decide_ext; set_solver ].
Qed.

(** X2.  Calls of [setNpcAllowedToSpawn] compose as assignments: for one
    file the last call decides, a call that asks for the current answer
    changes nothing, and calls for different files commute. *)
Theorem setNpcAllowedToSpawn_compose (f g : string) (b b' : bool)
    (m : GameMapManager) :
  setNpcAllowedToSpawn f b (setNpcAllowedToSpawn f b' m)
  = setNpcAllowedToSpawn f b m
  ∧ setNpcAllowedToSpawn f (isNpcAllowedToSpawn f m) m = m
  ∧ (f ≠ g →
     setNpcAllowedToSpawn f b (setNpcAllowedToSpawn g b' m)
     = setNpcAllowedToSpawn g b' (setNpcAllowedToSpawn f b m)).
Proof.
  rewrite !setNpcAllowedToSpawn_blacklist.
  destruct m as [bl ps]. unfold set_npcSpawningBlacklist, isNpcAllowedToSpawn.
  cbn. split; [|split].
  - f_equal. destruct b, b'; apply set_eq; intros x;
      destruct (decide (x = f)); set_solver.
  - f_equal. destruct (decide (f ∈ bl)) as [Hf|Hf].
    + rewrite bool_decide_false by (by intros ?). set_solver.
    + rewrite bool_decide_true by done. set_solver.
  - intros Hne. f_equal. destruct b, b'; apply set_eq; intros x;
      destruct (decide (x = f)); destruct (decide (x = g)); set_solver.
Qed.

(** X3.  After [setPortalLocked(t, i, locked)], [isPortalLocked] answers
    [locked] for portal [i] of map [t] and [hasSavedPortalLockUnlockState]
    answers true for it; for every other portal, of this map or another,
    both answer as before.  The blacklist is not touched. *)
Theorem setPortalLocked_isPortalLocked (t t' : string) (i i' : Z) (locked : bool)
    (m : GameMapManager) :
  let m' := setPortalLocked t i locked m in
  (isPortalLocked t' i' m').1
  = (if decide (t' = t ∧ i' = i) then locked else (isPortalLocked t' i' m).1)
  ∧ hasSavedPortalLockUnlockState t' i' m'
    = (if decide (t' = t ∧ i' = i) then true
       else hasSavedPortalLockUnlockState t' i' m)
  ∧ npcSpawningBlacklist m' = npcSpawningBlacklist m.
Proof.
  intros m'. subst m'. split; [|split].
  - rewrite !isPortalLocked_fst, setPortalLocked_states. by case_decide.
  - rewrite !hasSavedPortalLockUnlockState_loop, setPortalLocked_states.
    case_decide; [|done]. apply bool_decide_eq_true. eauto.
  - unfold setPortalLocked. destruct (allPortalStates m !! t) as [v|]; [|done].
    by destruct (setPortalLocked_loop i locked v).
Qed.

(** X4.  [isPortalLocked] logs nothing for a portal with a saved state; for
    a portal without one, whether the map is unknown or only the portal, it
    answers false and logs exactly one warning. *)
Theorem isPortalLocked_unsaved (t : string) (i : Z) (m : GameMapManager) :
  if hasSavedPortalLockUnlockState t i m
  then (isPortalLocked t i m).2 = []
  else (isPortalLocked t i m).1 = false
       ∧ ∃ msg : string, (isPortalLocked t i m).2 = [VGLOG LOG_WARN msg].
Proof.
  rewrite hasSavedPortalLockUnlockState_loop. unfold isPortalLocked.
  destruct (allPortalStates m !! t) as [v|]; cbn; [|eauto].
  destruct (isPortalLocked_loop i v) as [b|]; cbn; eauto.
Qed.

(** X5.  [setPortalLocked] rewrites the entry of a saved portal in place
    and appends an entry for an unsaved one: the ids saved for the map are
    the former ones, followed by the new id when it was not saved, and the
    ids of the other maps are as before.  Hence, when no vector held two
    entries for one portal, none does afterwards. *)
Theorem setPortalLocked_portalIdsUnique (t : string) (i : Z) (locked : bool)
    (m : GameMapManager) :
  portalIdsUnique m →
  let m' := setPortalLocked t i locked m in
  portalIdsUnique m'
  ∧ savedPortalIds t m'
    = savedPortalIds t m
      ++ (if hasSavedPortalLockUnlockState t i m then [] else [i])
  ∧ ∀ t' : string, t' ≠ t → savedPortalIds t' m' = savedPortalIds t' m.
Proof.
  intros Huniq m'.
  assert (Hids : savedPortalIds t m'
                 = savedPortalIds t m
                   ++ (if hasSavedPortalLockUnlockState t i m then [] else [i])
                 ∧ ∀ t' : string, t' ≠ t →
                     savedPortalIds t' m' = savedPortalIds t' m).
  { subst m'. rewrite hasSavedPortalLockUnlockState_loop.
    unfold savedPortalIds, setPortalLocked.
    destruct (allPortalStates m !! t) as [v|] eqn:Hv; cbn.
    - destruct (setPortalLocked_loop i locked v) as [v'|] eqn:Hset; cbn.
      + rewrite lookup_insert_eq. split.
        * rewrite (setPortalLocked_loop_ids _ _ _ _ Hset).
          destruct (isPortalLocked_loop i v) as [c|] eqn:Hl.
          -- rewrite bool_decide_true by eauto. by rewrite app_nil_r.
          -- apply (setPortalLocked_loop_None i locked) in Hl. congruence.
        * intros t' Hne. by rewrite lookup_insert_ne.
      + rewrite lookup_insert_eq. split.
        * apply setPortalLocked_loop_None in Hset. rewrite Hset.
          cbn. by rewrite fmap_app.
        * intros t' Hne. by rewrite lookup_insert_ne.
    - rewrite lookup_insert_eq. split; [done|].
      intros t' Hne. by rewrite lookup_insert_ne. }
  split; [|exact Hids]. destruct Hids as [Ht Hother].
  intros t'. destruct (decide (t' = t)) as [->|Hne].
  - rewrite Ht. rewrite hasSavedPortalLockUnlockState_loop.
    specialize (Huniq t). unfold savedPortalIds in *.
    destruct (allPortalStates m !! t) as [v|] eqn:Hv; cbn.
    + destruct (isPortalLocked_loop i v) as [c|] eqn:Hl.
      * rewrite bool_decide_true by eauto. by rewrite app_nil_r.
      * cbn. apply isPortalLocked_loop_None_ids in Hl.
        apply list.NoDup_app. split; [done|]. split; [|apply NoDup_singleton].
        intros x Hx Hi. apply list_elem_of_singleton in Hi as ->. done.
    + cbn. apply NoDup_singleton.
  - rewrite Hother by done. apply Huniq.
Qed.

Lemma setPortalLocked_portalIdsUnique_witness :
  portalIdsUnique (setPortalLocked "Map/prison_cell1.tmx" 2 true exGameMapManager)
  ∧ savedPortalIds "Map/prison_cell1.tmx"
      (setPortalLocked "Map/prison_cell1.tmx" 2 true exGameMapManager)
    = [0; 1; 2].
Proof.
  destruct (setPortalLocked_portalIdsUnique "Map/prison_cell1.tmx" 2 true
              exGameMapManager) as (H1 & H2 & _).
  - intros t. unfold savedPortalIds, exGameMapManager. cbn.
    destruct (decide (t = "Map/prison_cell1.tmx")) as [->|Hne].
    + rewrite lookup_singleton_eq. cbn.
      repeat (apply list.NoDup_cons; split; [set_solver|]). apply NoDup_nil_2.
    + rewrite lookup_singleton_ne by done. apply NoDup_nil_2.
  - split; [exact H1|]. rewrite H2. reflexivity.
Defined.

(** ** Fixtures of the body and of the weapon *)

Lemma fn_insert_lookup {A : Type} (f : FixtureType → A) (ty ty' : FixtureType)
    (x : A) :
  (<[ty := x]> f) ty' = if decide (ty = ty') then x else f ty'.
Proof. reflexivity. Qed.

(** What [redefineBodyFixture] does on a character with a body: the
    fixture of the BODY slot, when there is one, is detached and hands on
    its category and mask bits; the new fixture takes the next address. *)
Lemma redefineBodyFixture_run (this : ptr) (cat mask : Z) (c : Character)
    (b : Body) :
  body (physics c) = Some b →
  (∀ f : ptr, fixtures (physics c) BODY = Some f → is_Some (fixtureList b !! f)) →
  let old := fixtures (physics c) BODY ≫= (fixtureList b !!.) in
  let new :=
    {| shape := BodyPolygon (isCrouching c);
       categoryBits := from_option categoryBits cat old;
       maskBits := from_option maskBits mask old;
       isSensor := true; hasDensity := false; userData := this |} in
  ∃ c' : Character,
    redefineBodyFixture this cat mask c = Some c'
    ∧ sameButPhysics c c'
    ∧ body (physics c')
      = Some (set_nextFixture (S (nextFixture b))
                (set_fixtureList
                   (<[nextFixture b := new]>
                      (from_option (λ f, delete f (fixtureList b))
                         (fixtureList b) (fixtures (physics c) BODY))) b))
    ∧ ∀ ty : FixtureType,
        fixtures (physics c') ty
        = if decide (ty = BODY) then Some (nextFixture b)
          else fixtures (physics c) ty.
Proof.
  intros Hb Hattached. unfold redefineBodyFixture.
  destruct (fixtures (physics c) BODY) as [f|] eqn:Hf; cbn.
  - rewrite Hb. cbn. destruct (Hattached f eq_refl) as [fx Hfx].
    rewrite Hfx. cbn.
    eexists. split; [reflexivity|]. split; [by repeat split|].
    split; [reflexivity|]. intros ty. cbn.
    rewrite !fn_insert_lookup. repeat case_decide; congruence.
  - rewrite Hb. cbn.
    eexists. split; [reflexivity|]. split; [by repeat split|].
    split; [reflexivity|]. intros ty. cbn.
    rewrite !fn_insert_lookup. repeat case_decide; congruence.
Qed.

Lemma redefineWeaponFixture_run (kMeleeWeapon : Z) (this : ptr) (mask : Z)
    (c : Character) (b : Body) :
  body (physics c) = Some b →
  (∀ f : ptr, fixtures (physics c) WEAPON = Some f → is_Some (fixtureList b !! f)) →
  let old := fixtures (physics c) WEAPON ≫= (fixtureList b !!.) in
  let new :=
    {| shape := WeaponPolygon (isFacingRight c) (isCrouching c);
       categoryBits := kMeleeWeapon;
       maskBits := from_option maskBits mask old;
       isSensor := true; hasDensity := false; userData := this |} in
  ∃ c' : Character,
    redefineWeaponFixture kMeleeWeapon this mask c = Some c'
    ∧ sameButPhysics c c'
    ∧ body (physics c')
      = Some (set_nextFixture (S (nextFixture b))
                (set_fixtureList
                   (<[nextFixture b := new]>
                      (from_option (λ f, delete f (fixtureList b))
                         (fixtureList b) (fixtures (physics c) WEAPON))) b))
    ∧ ∀ ty : FixtureType,
        fixtures (physics c') ty
        = if decide (ty = WEAPON) then Some (nextFixture b)
          else fixtures (physics c) ty.
Proof.
  intros Hb Hattached. unfold redefineWeaponFixture.
  destruct (fixtures (physics c) WEAPON) as [f|] eqn:Hf; cbn.
  - rewrite Hb. cbn. destruct (Hattached f eq_refl) as [fx Hfx].
    rewrite Hfx. cbn.
    eexists. split; [reflexivity|]. split; [by repeat split|].
    split; [reflexivity|]. intros ty. cbn.
    rewrite !fn_insert_lookup. repeat case_decide; congruence.
  - rewrite Hb. cbn.
    eexists. split; [reflexivity|]. split; [by repeat split|].
    split; [reflexivity|]. intros ty. cbn.
    rewrite !fn_insert_lookup. repeat case_decide; congruence.
Qed.

Lemma size_insert_delete (m : gmap ptr Fixture) (f n : ptr) (new : Fixture) :
  is_Some (m !! f) → m !! n = None →
  size (<[n := new]> (delete f m)) = size m.
Proof.
  intros Hf Hn. assert (f ≠ n) by (intros ->; rewrite Hn in Hf; by destruct Hf).
  rewrite map_size_insert_None by (by rewrite lookup_delete_ne).
  rewrite map_size_delete_Some by done.
  assert (size m ≠ 0%nat); [|lia].
  intros Hz. apply map_size_empty_iff in Hz. subst m.
  rewrite lookup_empty in Hf. by destruct Hf.
Qed.

(** A character whose fixture in slot [ty] was detached and replaced by
    the fixture [new] at the next address of the body. *)
Lemma rebuilt_wellFormed (ty : FixtureType) (new : Fixture) (c c' : Character)
    (b : Body) (f : ptr) :
  fixturesWellFormed c →
  body (physics c) = Some b →
  fixtures (physics c) ty = Some f →
  is_Some (fixtureList b !! f) →
  body (physics c')
  = Some (set_nextFixture (S (nextFixture b))
            (set_fixtureList (<[nextFixture b := new]> (delete f (fixtureList b)))
               b)) →
  (∀ ty' : FixtureType,
     fixtures (physics c') ty'
     = if decide (ty' = ty) then Some (nextFixture b)
       else fixtures (physics c) ty') →
  fixturesWellFormed c'
  ∧ getFixture ty c' = Some new
  ∧ (∀ ty' : FixtureType, ty' ≠ ty → getFixture ty' c' = getFixture ty' c)
  ∧ fixtureCount c' = fixtureCount c.
Proof.
  intros (b0 & Hb0 & Hfresh & Hlt & Hinj) Hb Hf Hattached Hb' Hfx'.
  rewrite Hb in Hb0. injection Hb0 as <-.
  pose proof (Hlt _ _ Hf) as Hflt.
  split; [|split; [|split]].
  - eexists. split; [exact Hb'|]. cbn. split; [|split].
    + intros g Hg. cbn in Hg |- *. rewrite lookup_insert_ne by lia.
      destruct (decide (g = f)) as [->|Hne]; [by rewrite lookup_delete_eq|].
      rewrite lookup_delete_ne by done. apply Hfresh. lia.
    + intros ty' g. rewrite Hfx'. cbn. case_decide.
      * intros [= <-]. lia.
      * intros Hg. specialize (Hlt _ _ Hg). lia.
    + intros ty1 ty2 g. rewrite !Hfx'. repeat case_decide; try congruence.
      * intros [= <-] Hg. specialize (Hlt _ _ Hg). lia.
      * intros Hg [= <-]. specialize (Hlt _ _ Hg). lia.
      * apply Hinj.
  - unfold getFixture. rewrite Hfx', decide_True by done. cbn.
    rewrite Hb'. cbn. apply lookup_insert_eq.
  - intros ty' Hne. unfold getFixture. rewrite Hfx', decide_False by done.
    destruct (fixtures (physics c) ty') as [g|] eqn:Hg; [|done]. cbn.
    rewrite Hb', Hb. cbn. specialize (Hlt _ _ Hg).
    rewrite lookup_insert_ne by lia.
    rewrite lookup_delete_ne; [done|].
    intros ->. apply Hne. by eapply Hinj.
  - unfold fixtureCount. rewrite Hb', Hb. cbn. f_equal.
    apply size_insert_delete; [done|]. apply Hfresh. lia.
Qed.

(** X6.  On a character whose BODY fixture is attached, and whose body
    hands out fresh fixture addresses, [redefineBodyFixture] detaches that
    fixture and attaches a new one that inherits its category and mask
    bits, whatever bits are passed; the new shape follows the crouching
    flag.  Every other fixture stays attached as it was, the FEET and
    WEAPON slots are not touched, and the number of attached fixtures is
    the same. *)
Theorem redefineBodyFixture_inherits (this : ptr) (cat mask : Z) (c : Character)
    (b : Body) (f : ptr) (fx : Fixture) :
  body (physics c) = Some b →
  fixtures (physics c) BODY = Some f →
  fixtureList b !! f = Some fx →
  freshFixtures b →
  ∃ (c' : Character) (b' : Body) (f' : ptr),
    redefineBodyFixture this cat mask c = Some c'
    ∧ sameButPhysics c c'
    ∧ body (physics c') = Some b'
    ∧ fixtures (physics c') BODY = Some f'
    ∧ fixtureList b' !! f'
      = Some {| shape := BodyPolygon (isCrouching c);
                categoryBits := categoryBits fx; maskBits := maskBits fx;
                isSensor := true; hasDensity := false; userData := this |}
    ∧ fixtureList b' !! f = None
    ∧ (∀ g : ptr, g ≠ f → g ≠ f' → fixtureList b' !! g = fixtureList b !! g)
    ∧ fixtures (physics c') FEET = fixtures (physics c) FEET
    ∧ fixtures (physics c') WEAPON = fixtures (physics c) WEAPON
    ∧ size (fixtureList b') = size (fixtureList b).
Proof.
  intros Hb Hf Hfx Hfresh.
  destruct (redefineBodyFixture_run this cat mask c b Hb)
    as (c' & Hrun & Hsame & Hb' & Hslots).
  { intros g Hg. rewrite Hf in Hg. injection Hg as <-. eauto. }
  rewrite Hf in Hb'. cbn in Hb'. rewrite Hfx in Hb'. cbn in Hb'.
  assert (Hn : fixtureList b !! nextFixture b = None) by (apply Hfresh; lia).
  assert (Hne : f ≠ nextFixture b) by congruence.
  eexists c', _, (nextFixture b).
  split; [exact Hrun|]. split; [exact Hsame|]. split; [exact Hb'|].
  split; [by rewrite Hslots, decide_True|]. cbn.
  split; [apply lookup_insert_eq|].
  split; [by rewrite lookup_insert_ne, lookup_delete_eq|].
  split; [intros g Hg1 Hg2; by rewrite lookup_insert_ne, lookup_delete_ne|].
  split; [by rewrite Hslots, decide_False|].
  split; [by rewrite Hslots, decide_False|].
  apply size_insert_delete; eauto.
Qed.

Lemma redefineBodyFixture_inherits_witness :
  ∃ (c' : Character) (b' : Body) (f' : ptr),
    redefineBodyFixture 1%nat 0 0 (exCharacter 1 10 50 0%float noTargets)
    = Some c'
    ∧ body (physics c') = Some b'
    ∧ fixtures (physics c') BODY = Some f'
    ∧ categoryBits <$> fixtureList b' !! f' = Some 8
    ∧ maskBits <$> fixtureList b' !! f' = Some 3
    ∧ size (fixtureList b') = 3%nat.
Proof.
  destruct (redefineBodyFixture_inherits 1%nat 0 0
              (exCharacter 1 10 50 0%float noTargets) (exBody 1%nat 0%float)
              0%nat (exFixture (BodyPolygon false) 8 3 1%nat))
    as (c' & b' & f' & Hrun & _ & Hb' & Hf' & Hnew & _ & _ & _ & _ & Hsize).
  - reflexivity.
  - reflexivity.
  - reflexivity.
  - intros g Hg. cbn in Hg |- *.
    rewrite !lookup_insert_ne by lia. apply lookup_empty.
  - exists c', b', f'. rewrite Hnew, Hsize.
    repeat (split; [assumption || reflexivity|]). reflexivity.
Defined.

(** X7.  On a character whose WEAPON fixture is attached,
    [redefineWeaponFixture] detaches that fixture and attaches a new one of
    category [kMeleeWeapon] that inherits its mask bits, whatever mask is
    passed; the new shape follows the facing and crouching flags.  Every
    other fixture stays attached as it was, the BODY and FEET slots are not
    touched, and the number of attached fixtures is the same. *)
Theorem redefineWeaponFixture_inherits (kMeleeWeapon : Z) (this : ptr) (mask : Z)
    (c : Character) (b : Body) (f : ptr) (fx : Fixture) :
  body (physics c) = Some b →
  fixtures (physics c) WEAPON = Some f →
  fixtureList b !! f = Some fx →
  freshFixtures b →
  ∃ (c' : Character) (b' : Body) (f' : ptr),
    redefineWeaponFixture kMeleeWeapon this mask c = Some c'
    ∧ sameButPhysics c c'
    ∧ body (physics c') = Some b'
    ∧ fixtures (physics c') WEAPON = Some f'
    ∧ fixtureList b' !! f'
      = Some {| shape := WeaponPolygon (isFacingRight c) (isCrouching c);
                categoryBits := kMeleeWeapon; maskBits := maskBits fx;
                isSensor := true; hasDensity := false; userData := this |}
    ∧ fixtureList b' !! f = None
    ∧ (∀ g : ptr, g ≠ f → g ≠ f' → fixtureList b' !! g = fixtureList b !! g)
    ∧ fixtures (physics c') BODY = fixtures (physics c) BODY
    ∧ fixtures (physics c') FEET = fixtures (physics c) FEET
    ∧ size (fixtureList b') = size (fixtureList b).
Proof.
  intros Hb Hf Hfx Hfresh.
  destruct (redefineWeaponFixture_run kMeleeWeapon this mask c b Hb)
    as (c' & Hrun & Hsame & Hb' & Hslots).
  { intros g Hg. rewrite Hf in Hg. injection Hg as <-. eauto. }
  rewrite Hf in Hb'. cbn in Hb'. rewrite Hfx in Hb'. cbn in Hb'.
  assert (Hn : fixtureList b !! nextFixture b = None) by (apply Hfresh; lia).
  assert (Hne : f ≠ nextFixture b) by congruence.
  eexists c', _, (nextFixture b).
  split; [exact Hrun|]. split; [exact Hsame|]. split; [exact Hb'|].
  split; [by rewrite Hslots, decide_True|]. cbn.
  split; [apply lookup_insert_eq|].
  split; [by rewrite lookup_insert_ne, lookup_delete_eq|].
  split; [intros g Hg1 Hg2; by rewrite lookup_insert_ne, lookup_delete_ne|].
  split; [by rewrite Hslots, decide_False|].
  split; [by rewrite Hslots, decide_False|].
  apply size_insert_delete; eauto.
Qed.

Lemma redefineWeaponFixture_inherits_witness :
  ∃ (c' : Character) (b' : Body) (f' : ptr),
    redefineWeaponFixture 16 1%nat 0 (exCharacter 1 10 50 0%float noTargets)
    = Some c'
    ∧ body (physics c') = Some b'
    ∧ fixtures (physics c') WEAPON = Some f'
    ∧ maskBits <$> fixtureList b' !! f' = Some 9
    ∧ size (fixtureList b') = 3%nat.
Proof.
  destruct (redefineWeaponFixture_inherits 16 1%nat 0
              (exCharacter 1 10 50 0%float noTargets) (exBody 1%nat 0%float)
              2%nat (exFixture (WeaponPolygon true false) 16 9 1%nat))
    as (c' & b' & f' & Hrun & _ & Hb' & Hf' & Hnew & _ & _ & _ & _ & Hsize).
  - reflexivity.
  - reflexivity.
  - reflexivity.
  - intros g Hg. cbn in Hg |- *.
    rewrite !lookup_insert_ne by lia. apply lookup_empty.
  - exists c', b', f'. rewrite Hnew, Hsize.
    repeat (split; [assumption || reflexivity|]). reflexivity.
Defined.

Lemma getFixture_inv (ty : FixtureType) (c : Character) (fx : Fixture) :
  getFixture ty c = Some fx →
  ∃ (b : Body) (f : ptr),
    body (physics c) = Some b ∧ fixtures (physics c) ty = Some f
    ∧ fixtureList b !! f = Some fx.
Proof.
  unfold getFixture. destruct (fixtures (physics c) ty) as [f|]; [|done]. cbn.
  destruct (body (physics c)) as [b|]; [|done]. cbn. eauto.
Qed.

Lemma redefineBodyFixture_wellFormed (this : ptr) (cat mask : Z) (c : Character)
    (fx : Fixture) :
  fixturesWellFormed c →
  getFixture BODY c = Some fx →
  ∃ c' : Character,
    redefineBodyFixture this cat mask c = Some c'
    ∧ sameButPhysics c c'
    ∧ fixturesWellFormed c'
    ∧ getFixture BODY c'
      = Some {| shape := BodyPolygon (isCrouching c);
                categoryBits := categoryBits fx; maskBits := maskBits fx;
                isSensor := true; hasDensity := false; userData := this |}
    ∧ (∀ ty : FixtureType, ty ≠ BODY → getFixture ty c' = getFixture ty c)
    ∧ fixtureCount c' = fixtureCount c.
Proof.
  intros Hwf Hfx. apply getFixture_inv in Hfx as (b & f & Hb & Hf & Hfx).
  destruct (redefineBodyFixture_run this cat mask c b Hb)
    as (c' & Hrun & Hsame & Hb' & Hslots).
  { intros g Hg. rewrite Hf in Hg. injection Hg as <-. eauto. }
  rewrite Hf in Hb'. cbn in Hb'. rewrite Hfx in Hb'. cbn in Hb'.
  exists c'. split; [exact Hrun|]. split; [exact Hsame|].
  eapply rebuilt_wellFormed; eauto.
Qed.

Lemma redefineWeaponFixture_wellFormed (kMeleeWeapon : Z) (this : ptr) (mask : Z)
    (c : Character) (fx : Fixture) :
  fixturesWellFormed c →
  getFixture WEAPON c = Some fx →
  ∃ c' : Character,
    redefineWeaponFixture kMeleeWeapon this mask c = Some c'
    ∧ sameButPhysics c c'
    ∧ fixturesWellFormed c'
    ∧ getFixture WEAPON c'
      = Some {| shape := WeaponPolygon (isFacingRight c) (isCrouching c);
                categoryBits := kMeleeWeapon; maskBits := maskBits fx;
                isSensor := true; hasDensity := false; userData := this |}
    ∧ (∀ ty : FixtureType, ty ≠ WEAPON → getFixture ty c' = getFixture ty c)
    ∧ fixtureCount c' = fixtureCount c.
Proof.
  intros Hwf Hfx. apply getFixture_inv in Hfx as (b & f & Hb & Hf & Hfx).
  destruct (redefineWeaponFixture_run kMeleeWeapon this mask c b Hb)
    as (c' & Hrun & Hsame & Hb' & Hslots).
  { intros g Hg. rewrite Hf in Hg. injection Hg as <-. eauto. }
  rewrite Hf in Hb'. cbn in Hb'. rewrite Hfx in Hb'. cbn in Hb'.
  exists c'. split; [exact Hrun|]. split; [exact Hsame|].
  eapply rebuilt_wellFormed; eauto.
Qed.

(** The posture change shared by [crouch] and [getUpFromCrouching]: set
    the crouching flag, then rebuild the BODY and the WEAPON fixture. *)
Lemma posture_change (kMeleeWeapon dcat dmask dwmask : Z) (this : ptr)
    (crouching : bool) (c : Character) (fxb fxw : Fixture) :
  fixturesWellFormed c →
  getFixture BODY c = Some fxb →
  getFixture WEAPON c = Some fxw →
  ∃ c' : Character,
    (c1 ← redefineBodyFixture this dcat dmask
            (upd_flags (set_f_isCrouching crouching) c);
     redefineWeaponFixture kMeleeWeapon this dwmask c1) = Some c'
    ∧ flags c' = set_f_isCrouching crouching (flags c)
    ∧ characterProfile c' = characterProfile c
    ∧ overridingAttackState c' = overridingAttackState c
    ∧ sprite c' = sprite c ∧ targets c' = targets c ∧ bag c' = bag c
    ∧ fixturesWellFormed c'
    ∧ getFixture BODY c'
      = Some {| shape := BodyPolygon crouching;
                categoryBits := categoryBits fxb; maskBits := maskBits fxb;
                isSensor := true; hasDensity := false; userData := this |}
    ∧ getFixture WEAPON c'
      = Some {| shape := WeaponPolygon (isFacingRight c) crouching;
                categoryBits := kMeleeWeapon; maskBits := maskBits fxw;
                isSensor := true; hasDensity := false; userData := this |}
    ∧ getFixture FEET c' = getFixture FEET c
    ∧ fixtureCount c' = fixtureCount c.
Proof.
  intros Hwf Hfxb Hfxw.
  set (c0 := upd_flags (set_f_isCrouching crouching) c).
  destruct (redefineBodyFixture_wellFormed this dcat dmask c0 fxb)
    as (c1 & Hrun1 & Hsame1 & Hwf1 & Hb1 & Hother1 & Hcount1); [done|done|].
  destruct (redefineWeaponFixture_wellFormed kMeleeWeapon this dwmask c1 fxw)
    as (c2 & Hrun2 & Hsame2 & Hwf2 & Hw2 & Hother2 & Hcount2);
    [done|by rewrite Hother1|].
  destruct Hsame1 as (Hp1 & Hf1 & Ho1 & Hs1 & Ht1 & Hbag1).
  destruct Hsame2 as (Hp2 & Hf2 & Ho2 & Hs2 & Ht2 & Hbag2).
  exists c2. rewrite Hrun1. cbn. split; [exact Hrun2|].
  split; [by rewrite Hf2, Hf1|]. split; [by rewrite Hp2, Hp1|].
  split; [by rewrite Ho2, Ho1|]. split; [by rewrite Hs2, Hs1|].
  split; [by rewrite Ht2, Ht1|]. split; [by rewrite Hbag2, Hbag1|].
  split; [exact Hwf2|].
  split; [rewrite Hother2 by done; rewrite Hb1; by destruct crouching|].
  split.
  { rewrite Hw2. unfold isFacingRight, isCrouching. rewrite Hf1. cbn.
    by destruct crouching. }
  split; [rewrite Hother2, Hother1 by done; done|].
  by rewrite Hcount2, Hcount1.
Qed.

(** X8.  [defineBody] on a character whose fixture slots are all null,
    given a body without fixtures: the BODY, FEET and WEAPON fixtures are
    built with the category and mask bits passed (FEET and WEAPON with the
    categories [kFeet] and [kMeleeWeapon]); BODY and WEAPON are sensors,
    FEET is solid and has a density.  These are the three fixtures of the
    body, and nothing but the physics of the character changes. *)
Theorem defineBody_builds (kFeet kMeleeWeapon : Z) (this : ptr) (newBody : Body)
    (bodyCategoryBits bodyMaskBits feetMaskBits weaponMaskBits : Z)
    (c : Character) :
  fixtureList newBody = ∅ →
  (∀ ty : FixtureType, fixtures (physics c) ty = None) →
  ∃ c' : Character,
    defineBody kFeet kMeleeWeapon this newBody bodyCategoryBits bodyMaskBits
      feetMaskBits weaponMaskBits c = Some c'
    ∧ sameButPhysics c c'
    ∧ getFixture BODY c'
      = Some {| shape := BodyPolygon (isCrouching c);
                categoryBits := bodyCategoryBits; maskBits := bodyMaskBits;
                isSensor := true; hasDensity := false; userData := this |}
    ∧ getFixture FEET c'
      = Some {| shape := FeetCircle;
                categoryBits := kFeet; maskBits := feetMaskBits;
                isSensor := false; hasDensity := true; userData := this |}
    ∧ getFixture WEAPON c'
      = Some {| shape := WeaponPolygon (isFacingRight c) (isCrouching c);
                categoryBits := kMeleeWeapon; maskBits := weaponMaskBits;
                isSensor := true; hasDensity := false; userData := this |}
    ∧ fixtureCount c' = Some 3%nat
    ∧ fixturesWellFormed c'.
Proof.
  intros Hempty Hnull.
  unfold defineBody, redefineBodyFixture, redefineFeetFixture,
    redefineWeaponFixture, isCrouching, isFacingRight.
  repeat (progress (cbn; rewrite ?Hnull, ?fn_insert_lookup;
                    rewrite ?decide_True by done;
                    rewrite ?decide_False by done)).
  rewrite Hempty.
  set (n := nextFixture newBody).
  eexists. split; [reflexivity|]. split; [by repeat split|].
  unfold getFixture, fixtureCount.
  repeat (progress (cbn; rewrite ?fn_insert_lookup;
                    rewrite ?decide_True by done;
                    rewrite ?decide_False by done)).
  split; [by rewrite !lookup_insert_ne, lookup_insert_eq by lia|].
  split; [by rewrite !lookup_insert_ne, lookup_insert_eq by lia|].
  split; [by rewrite lookup_insert_eq|].
  split.
  { f_equal. rewrite !map_size_insert_None; [done|..];
      rewrite ?lookup_insert_ne by lia; apply lookup_empty. }
  eexists. split; [reflexivity|]. cbn. split; [|split].
  - intros g Hg. cbn in Hg |- *.
    rewrite !lookup_insert_ne by lia. apply lookup_empty.
  - intros ty f. cbn. rewrite ?fn_insert_lookup.
    repeat case_decide; try (intros [= <-]; lia). by rewrite Hnull.
  - intros ty ty' f. cbn. rewrite ?fn_insert_lookup.
    destruct ty, ty'; cbn; try done; rewrite ?Hnull;
      try (intros [= <-] [=]; lia); done.
Qed.

Lemma defineBody_builds_witness :
  ∃ c' : Character,
    defineBody 4 16 1%nat exNewBody 8 3 7 9 exUndefined = Some c'
    ∧ categoryBits <$> getFixture BODY c' = Some 8
    ∧ maskBits <$> getFixture FEET c' = Some 7
    ∧ maskBits <$> getFixture WEAPON c' = Some 9
    ∧ fixtureCount c' = Some 3%nat.
Proof.
  destruct (defineBody_builds 4 16 1%nat exNewBody 8 3 7 9 exUndefined)
    as (c' & Hrun & _ & Hb & Hf & Hw & Hcount & _).
  - reflexivity.
  - intros ty. reflexivity.
  - exists c'. rewrite Hb, Hf, Hw. by repeat split.
Defined.

(** X9.  [crouch] followed by [getUpFromCrouching], on a standing character
    that is not jumping and whose BODY and WEAPON fixtures are attached:
    both calls return.  While crouched the flag is set and both fixtures
    have their crouched shape; afterwards the flags are those of the
    start and both fixtures have their standing shape.  Through both
    calls the BODY fixture keeps its category and mask bits and the WEAPON
    fixture its mask bits, the FEET fixture is not touched, and the number
    of attached fixtures is the same. *)
Theorem crouch_getUpFromCrouching (kMeleeWeapon dcat dmask dwmask : Z)
    (this : ptr) (c : Character) (fxb fxw : Fixture) :
  fixturesWellFormed c →
  getFixture BODY c = Some fxb →
  getFixture WEAPON c = Some fxw →
  isCrouching c = false →
  isJumping c = false →
  ∃ c1 c2 : Character,
    crouch kMeleeWeapon dcat dmask dwmask this c = Some c1
    ∧ getUpFromCrouching kMeleeWeapon dcat dmask dwmask this c1 = Some c2
    ∧ isCrouching c1 = true
    ∧ shape <$> getFixture BODY c1 = Some (BodyPolygon true)
    ∧ shape <$> getFixture WEAPON c1
      = Some (WeaponPolygon (isFacingRight c) true)
    ∧ flags c2 = flags c
    ∧ sameButPhysics c c2
    ∧ getFixture BODY c2
      = Some {| shape := BodyPolygon false;
                categoryBits := categoryBits fxb; maskBits := maskBits fxb;
                isSensor := true; hasDensity := false; userData := this |}
    ∧ getFixture WEAPON c2
      = Some {| shape := WeaponPolygon (isFacingRight c) false;
                categoryBits := kMeleeWeapon; maskBits := maskBits fxw;
                isSensor := true; hasDensity := false; userData := this |}
    ∧ getFixture FEET c2 = getFixture FEET c
    ∧ fixtureCount c2 = fixtureCount c.
Proof.
  intros Hwf Hfxb Hfxw Hcrouch Hjump.
  destruct (posture_change kMeleeWeapon dcat dmask dwmask this true c fxb fxw)
    as (c1 & Hrun1 & Hfl1 & Hp1 & Ho1 & Hs1 & Ht1 & Hbag1 & Hwf1 & Hb1 & Hw1
        & Hfeet1 & Hcount1); [done..|].
  destruct (posture_change kMeleeWeapon dcat dmask dwmask this false c1 _ _
              Hwf1 Hb1 Hw1)
    as (c2 & Hrun2 & Hfl2 & Hp2 & Ho2 & Hs2 & Ht2 & Hbag2 & Hwf2 & Hb2 & Hw2
        & Hfeet2 & Hcount2).
  assert (Hc1 : isCrouching c1 = true) by (unfold isCrouching; by rewrite Hfl1).
  assert (Hfl : flags c2 = flags c).
  { rewrite Hfl2, Hfl1. unfold isCrouching in Hcrouch.
    destruct (flags c). cbn in *. by subst. }
  exists c1, c2.
  split; [unfold crouch; by rewrite Hcrouch, Hjump|].
  split; [unfold getUpFromCrouching; by rewrite Hc1|].
  split; [exact Hc1|]. split; [by rewrite Hb1|]. split; [by rewrite Hw1|].
  split; [exact Hfl|].
  split.
  { split; [by rewrite Hp2, Hp1|]. split; [exact Hfl|].
    split; [by rewrite Ho2, Ho1|]. split; [by rewrite Hs2, Hs1|].
    split; [by rewrite Ht2, Ht1|]. by rewrite Hbag2, Hbag1. }
  split; [exact Hb2|].
  split.
  { rewrite Hw2. unfold isFacingRight. rewrite Hfl1. reflexivity. }
  split; [by rewrite Hfeet2, Hfeet1|]. by rewrite Hcount2, Hcount1.
Qed.

Lemma crouch_getUpFromCrouching_witness :
  ∃ c1 c2 : Character,
    crouch 16 0 0 0 1%nat (exCharacter 1 10 50 0%float noTargets) = Some c1
    ∧ getUpFromCrouching 16 0 0 0 1%nat c1 = Some c2
    ∧ isCrouching c1 = true
    ∧ flags c2 = flags (exCharacter 1 10 50 0%float noTargets)
    ∧ getFixture BODY c2 = Some (exFixture (BodyPolygon false) 8 3 1%nat)
    ∧ getFixture WEAPON c2
      = Some (exFixture (WeaponPolygon true false) 16 9 1%nat)
    ∧ fixtureCount c2 = Some 3%nat.
Proof.
  destruct (crouch_getUpFromCrouching 16 0 0 0 1%nat
              (exCharacter 1 10 50 0%float noTargets)
              (exFixture (BodyPolygon false) 8 3 1%nat)
              (exFixture (WeaponPolygon true false) 16 9 1%nat))
    as (c1 & c2 & H1 & H2 & H3 & _ & _ & H4 & _ & H5 & H6 & _ & H7).
  - exists (exBody 1%nat 0%float). split; [reflexivity|]. split; [|split].
    + intros g Hg. cbn in Hg |- *.
      rewrite !lookup_insert_ne by lia. apply lookup_empty.
    + intros [] f [= <-]; cbn; lia.
    + intros [] [] f; cbn; congruence.
  - reflexivity.
  - reflexivity.
  - reflexivity.
  - reflexivity.
  - exists c1, c2. rewrite H7. by repeat split.
Defined.

(** ** Equipping and unequipping *)

Lemma setAmount_amount (it : Item) : setAmount (amount it) it = it.
Proof. by destruct it. Qed.

Lemma slot_insert_lookup (f : EquipmentType → option ptr)
    (ty ty' : EquipmentType) (x : option ptr) :
  (<[ty := x]> f) ty' = if decide (ty = ty') then x else f ty'.
Proof. reflexivity. Qed.

Lemma inventory_insert_lookup (f : ItemType → gset ptr) (ty ty' : ItemType)
    (x : gset ptr) :
  (<[ty := x]> f) ty' = if decide (ty = ty') then x else f ty'.
Proof. reflexivity. Qed.

(** [equip] into an empty slot: the equipment takes the slot, its quantity
    drops by one, and it leaves the inventory with its last copy. *)
Lemma equip_empty_slot (kUnequipAudio : bool) (this e : ptr) (audio : bool)
    (cs : gmap ptr Character) (its : gmap ptr Item) cbs evs
    (c : Character) (eit : Item) (ep : EquipmentProfile) :
  cs !! this = Some c →
  its !! e = Some eit →
  itemKind eit = EquipmentItem ep →
  equipmentSlots (bag c) (equipmentType ep) = None →
  itemMapper (bag c) !! jsonFileName (itemProfile eit) = Some e →
  1 ≤ amount eit ≤ Int32.max_int →
  let equipped :=
    upd_bag (λ b, set_equipmentSlots
                    (<[equipmentType ep := Some e]> (equipmentSlots b)) b) c in
  let c1 :=
    if amount eit - 1 =? 0
    then upd_bag (inventoryErase (itemType (itemProfile eit)) e) equipped
    else equipped in
  equip kUnequipAudio this e audio (mkWorld cs its cbs evs)
  = Some (tt, mkWorld (<[this := c1]> cs)
                (<[e := setAmount (amount eit - 1) eit]> its) cbs
                (evs ++ if audio then [PlaySfx kSfxEquipUnequipItem] else [])).
Proof.
  intros Hc He Hkind Hslot Hme Hea.
  assert (Hsub : Int32.sub (amount eit) 1 = amount eit - 1).
  { apply wrap_in_range.
    unfold Int32.in_range, Int32.min_int, Int32.max_int in *. lia. }
  assert (Hltb : (amount eit - 1 <? 0) = false) by lia.
  unfold equip, removeItem, getExistingItemObj.
  munfold. munfold. cbn.
  repeat (progress (cbn; rewrite ?He, ?Hkind, ?Hc, ?Hslot, ?Hme,
                      ?Hsub, ?Hltb, ?slot_insert_lookup, ?lookup_insert_eq;
                    rewrite ?decide_True by done;
                    rewrite ?bool_decide_true by done)).
  destruct (Z.eqb_spec (amount eit - 1) 0) as [Hz|Hnz];
    repeat (progress (cbn; rewrite ?He, ?Hkind, ?Hc, ?Hslot, ?Hme,
                        ?Hsub, ?Hltb, ?slot_insert_lookup, ?lookup_insert_eq;
                      rewrite ?decide_True by done;
                      rewrite ?bool_decide_true by done));
    rewrite ?insert_insert_eq; destruct audio; cbn;
    rewrite ?app_nil_r; reflexivity.
Qed.

(** [unequip] of a slot holding the canonical instance [e] of its item: the
    slot is cleared, the quantity rises by one and the instance is listed in
    the inventory. *)
Lemma unequip_occupied (this e : ptr) (ty : EquipmentType) (audio : bool)
    (cs : gmap ptr Character) (its : gmap ptr Item) cbs evs
    (c : Character) (eit : Item) :
  cs !! this = Some c →
  its !! e = Some eit →
  equipmentSlots (bag c) ty = Some e →
  itemMapper (bag c) !! jsonFileName (itemProfile eit) = Some e →
  let c2 :=
    upd_bag (inventoryInsert (itemType (itemProfile eit)) e)
      (upd_bag (λ b, set_equipmentSlots (<[ty := None]> (equipmentSlots b)) b)
         c) in
  unequip this ty audio (mkWorld cs its cbs evs)
  = Some (tt, mkWorld (<[this := c2]> cs)
                (<[e := setAmount (Int32.add (amount eit) 1) eit]> its) cbs
                (evs ++ if audio then [PlaySfx kSfxEquipUnequipItem] else [])).
Proof.
  intros Hc He Hslot Hme.
  unfold unequip, addItem, getExistingItemObj.
  munfold. munfold. cbn.
  repeat (progress (cbn; rewrite ?He, ?Hc, ?Hslot, ?Hme, ?lookup_insert_eq)).
  rewrite ?insert_insert_eq. destruct audio; cbn; rewrite ?app_nil_r;
    reflexivity.
Qed.

(** X10.  [equip] of an owned equipment into an empty slot, followed by
    [unequip] of that slot: both calls return, and the character is back
    where it started.  In between the slot holds the equipment and the
    quantity owned is one lower; afterwards the slot is empty again, the
    item store, the inventory and the owning map are as before, and the
    only trace is the sound played by each call that was asked to. *)
Theorem equip_unequip (kUnequipAudio : bool) (this e : ptr) (audio audio' : bool)
    (w : World) (c : Character) (eit : Item) (ep : EquipmentProfile) :
  characters w !! this = Some c →
  items w !! e = Some eit →
  itemKind eit = EquipmentItem ep →
  equipmentSlots (bag c) (equipmentType ep) = None →
  itemMapper (bag c) !! jsonFileName (itemProfile eit) = Some e →
  e ∈ inventory (bag c) (itemType (itemProfile eit)) →
  1 ≤ amount eit ≤ Int32.max_int →
  ∃ (w1 w2 : World) (c1 c2 : Character),
    equip kUnequipAudio this e audio w = Some (tt, w1)
    ∧ unequip this (equipmentType ep) audio' w1 = Some (tt, w2)
    ∧ characters w1 !! this = Some c1
    ∧ equipmentSlots (bag c1) (equipmentType ep) = Some e
    ∧ amount <$> items w1 !! e = Some (amount eit - 1)
    ∧ characters w2 !! this = Some c2
    ∧ items w2 = items w
    ∧ (∀ ty : EquipmentType,
         equipmentSlots (bag c2) ty = equipmentSlots (bag c) ty)
    ∧ (∀ ty : ItemType, inventory (bag c2) ty = inventory (bag c) ty)
    ∧ itemMapper (bag c2) = itemMapper (bag c)
    ∧ characterProfile c2 = characterProfile c ∧ flags c2 = flags c
    ∧ physics c2 = physics c ∧ targets c2 = targets c
    ∧ events w2
      = events w
        ++ (if audio then [PlaySfx kSfxEquipUnequipItem] else [])
        ++ (if audio' then [PlaySfx kSfxEquipUnequipItem] else []).
Proof.
  intros Hc He Hkind Hslot Hme Hin Hea.
  destruct w as [cs its cbs evs]. cbn in Hc, He.
  pose proof (equip_empty_slot kUnequipAudio this e audio cs its cbs evs c eit
                ep Hc He Hkind Hslot Hme Hea) as Hequip.
  cbv zeta in Hequip.
  set (c1 := if amount eit - 1 =? 0 then _ else _) in Hequip.
  assert (Hslot1 : equipmentSlots (bag c1) (equipmentType ep) = Some e).
  { subst c1. destruct (amount eit - 1 =? 0); cbn;
      by rewrite slot_insert_lookup, decide_True. }
  assert (Hme1 : itemMapper (bag c1)
                 !! jsonFileName (itemProfile (setAmount (amount eit - 1) eit))
                 = Some e).
  { subst c1. by destruct (amount eit - 1 =? 0). }
  pose proof (unequip_occupied this e (equipmentType ep) audio'
                (<[this := c1]> cs)
                (<[e := setAmount (amount eit - 1) eit]> its) cbs
                (evs ++ if audio then [PlaySfx kSfxEquipUnequipItem] else [])
                c1 _
                (lookup_insert_eq _ _ _) (lookup_insert_eq _ _ _) Hslot1 Hme1)
    as Hunequip.
  cbv zeta in Hunequip.
  eexists _, _, c1, _.
  split; [exact Hequip|]. split; [exact Hunequip|].
  split; [apply lookup_insert_eq|]. split; [exact Hslot1|].
  split; [cbn; by rewrite lookup_insert_eq|].
  split; [apply lookup_insert_eq|]. cbn.
  split.
  { rewrite insert_insert_eq.
    replace (Int32.add (amount eit - 1) 1) with (amount eit).
    - change (setAmount (amount eit) (setAmount (amount eit - 1) eit))
        with (setAmount (amount eit) eit).
      rewrite setAmount_amount. by apply insert_id.
    - unfold Int32.add. replace (amount eit - 1 + 1) with (amount eit) by lia.
      symmetry. apply wrap_in_range.
      unfold Int32.in_range, Int32.min_int, Int32.max_int in *. lia. }
  split.
  { intros ty. subst c1. destruct (amount eit - 1 =? 0); cbn;
      rewrite !slot_insert_lookup; by case_decide; subst. }
  split.
  { intros ty. subst c1. unfold inventoryInsert, inventoryErase.
    destruct (amount eit - 1 =? 0); cbn;
      rewrite !inventory_insert_lookup; case_decide; subst;
      rewrite ?inventory_insert_lookup, ?decide_True by done;
      try reflexivity; apply set_eq; intros x;
      destruct (decide (x = e)); set_solver. }
  split; [subst c1; by destruct (amount eit - 1 =? 0)|].
  split; [subst c1; by destruct (amount eit - 1 =? 0)|].
  split; [subst c1; by destruct (amount eit - 1 =? 0)|].
  split; [subst c1; by destruct (amount eit - 1 =? 0)|].
  split; [subst c1; by destruct (amount eit - 1 =? 0)|].
  by rewrite app_assoc.
Qed.

Lemma equip_unequip_witness :
  ∃ (w1 w2 : World) (c2 : Character),
    equip true 1%nat 21%nat true exWorldSword = Some (tt, w1)
    ∧ unequip 1%nat EQUIPMENT_WEAPON true w1 = Some (tt, w2)
    ∧ characters w2 !! 1%nat = Some c2
    ∧ items w2 = items exWorldSword
    ∧ (∀ ty : ItemType, inventory (bag c2) ty = inventory (bag exSwordOwner) ty)
    ∧ equipmentSlots (bag c2) EQUIPMENT_WEAPON = None.
Proof.
  destruct (equip_unequip true 1%nat 21%nat true true exWorldSword exSwordOwner
              (exWeapon "sword.json" 1)
              {| equipmentType := EQUIPMENT_WEAPON; bonusPhysicalDamage := 5 |})
    as (w1 & w2 & c1 & c2 & H1 & H2 & _ & _ & _ & H3 & H4 & H5 & H6 & _).
  - reflexivity.
  - reflexivity.
  - reflexivity.
  - reflexivity.
  - reflexivity.
  - cbn. rewrite inventory_insert_lookup. cbn. set_solver.
  - cbn. unfold Int32.max_int. lia.
  - exists w1, w2, c2. repeat (split; [assumption|]). apply (H5 EQUIPMENT_WEAPON).
Defined.

(** ** What a call leaves alone *)

Section Preservation.
Context {X : Type} (P : ptr → Prop) (obs : Character → X).

Lemma preservesAt_ret {A : Type} (a : A) : preservesAt P obs (mret a).
Proof. by intros w a' w' [= _ <-]. Qed.

Lemma preservesAt_crash {A : Type} : preservesAt P obs (@crash A).
Proof. intros w a w' [=]. Qed.

Lemma preservesAt_bind {A B : Type} (m : M A) (f : A → M B) :
  preservesAt P obs m → (∀ a : A, preservesAt P obs (f a)) →
  preservesAt P obs (m ≫= f).
Proof.
  intros Hm Hf w b w' H p Hp. apply mbind_inv in H as (a & w1 & H1 & H2).
  rewrite (Hf _ _ _ _ H2 p Hp). by eapply Hm.
Qed.

Lemma preservesAt_deref {A : Type} (o : option A) : preservesAt P obs (deref o).
Proof. destruct o; [apply preservesAt_ret|apply preservesAt_crash]. Qed.

Lemma preservesAt_getCharacter (q : ptr) : preservesAt P obs (getCharacter q).
Proof. intros w c w' H. by apply getCharacter_inv in H as [-> _]. Qed.

Lemma preservesAt_getItem (q : ptr) : preservesAt P obs (getItem q).
Proof.
  intros w i w'. unfold getItem, getWorld, mbind, M_bind, deref.
  destruct (items w !! q); [|discriminate]. by intros [= _ <-].
Qed.

Lemma preservesAt_modifyWorld (f : World → World) :
  (∀ w : World, characters (f w) = characters w) →
  preservesAt P obs (modifyWorld f).
Proof. intros Hf w [] w' [= <-] p _. by rewrite Hf. Qed.

Lemma preservesAt_notify (e : Event) : preservesAt P obs (notify e).
Proof. by apply preservesAt_modifyWorld. Qed.

Lemma preservesAt_runAfter (cb : Callback) (delay : float) :
  preservesAt P obs (runAfter cb delay).
Proof. by apply preservesAt_modifyWorld. Qed.

Lemma preservesAt_when (b : bool) (m : M unit) :
  preservesAt P obs m → preservesAt P obs (when b m).
Proof. destruct b; [done|intros _; apply preservesAt_ret]. Qed.

Lemma preservesAt_forEach {A : Type} (l : list A) (body : A → M unit) :
  (∀ a : A, preservesAt P obs (body a)) → preservesAt P obs (forEach l body).
Proof.
  intros Hbody. induction l as [|a l IH]; cbn [forEach].
  - apply preservesAt_ret.
  - apply preservesAt_bind; [apply Hbody|intros _; apply IH].
Qed.

Lemma preservesAt_updateCharacter (q : ptr) (f : Character → option Character) :
  (P q → ∀ c c' : Character, f c = Some c' → obs c' = obs c) →
  preservesAt P obs (updateCharacter q f).
Proof.
  intros Hf w [] w' H p Hp.
  apply updateCharacter_inv in H as (c & c' & Hc & Hfc & ->). cbn.
  destruct (decide (p = q)) as [->|Hne].
  - rewrite lookup_insert_eq, Hc. cbn. f_equal. by eapply Hf.
  - by rewrite lookup_insert_ne.
Qed.

Lemma preservesAt_modifyCharacter (q : ptr) (f : Character → Character) :
  (P q → ∀ c : Character, obs (f c) = obs c) →
  preservesAt P obs (modifyCharacter q f).
Proof.
  intros Hf. apply preservesAt_updateCharacter. intros Hq c c' [= <-].
  by apply Hf.
Qed.

Lemma preservesAt_modifyItem (q : ptr) (f : Item → Item) :
  preservesAt P obs (modifyItem q f).
Proof.
  unfold modifyItem. apply preservesAt_bind; [apply preservesAt_getItem|].
  intros i. by apply preservesAt_modifyWorld.
Qed.

Lemma preservesAt_lookup {A : Type} (m : M A) (w w' : World) (a : A) (p : ptr)
    (c : Character) :
  preservesAt P obs m → m w = Some (a, w') → P p →
  characters w !! p = Some c →
  ∃ c' : Character, characters w' !! p = Some c' ∧ obs c' = obs c.
Proof.
  intros Hm Hrun Hp Hc. specialize (Hm _ _ _ Hrun p Hp). rewrite Hc in Hm.
  destruct (characters w' !! p) as [c'|]; [|done].
  exists c'. split; [done|]. by injection Hm.
Qed.
End Preservation.

(** Proves [preservesAt P obs m] for a call [m] made of the primitives,
    given a tactic for the updates of a character. *)
Ltac preserves_with tac :=
  repeat first
    [ apply preservesAt_ret | apply preservesAt_crash
    | apply preservesAt_getCharacter | apply preservesAt_getItem
    | apply preservesAt_notify | apply preservesAt_runAfter
    | apply preservesAt_deref | apply preservesAt_when
    | apply preservesAt_modifyItem
    | apply preservesAt_modifyCharacter; intros ? ?; tac
    | apply preservesAt_forEach; intros ?
    | apply preservesAt_bind; [|intros ?]
    | match goal with
      | |- preservesAt _ _ (match ?x with _ => _ end) => destruct x
      | |- preservesAt _ _ (if ?x then _ else _) => destruct x
      end ].


(** ** Removing and using items *)

(** X11.  The guards of [removeItem].  A null pointer, or an item whose
    identifier the owning map does not hold, only logs a warning: no
    object changes.  Removing more than the canonical instance carries
    fails the assertion of the source: the call has no result. *)
Theorem removeItem_guards (this i : ptr) (amt : Z) (w : World) (c : Character)
    (it : Item) :
  characters w !! this = Some c →
  items w !! i = Some it →
  let warned :=
    set_events (events w ++ [VGLOG LOG_WARN "Unable to remove such item!"]) w in
  removeItem this None amt w = Some (tt, warned)
  ∧ (itemMapper (bag c) !! jsonFileName (itemProfile it) = None →
     removeItem this (Some i) amt w = Some (tt, warned))
  ∧ (∀ (e : ptr) (eit : Item),
       itemMapper (bag c) !! jsonFileName (itemProfile it) = Some e →
       items w !! e = Some eit →
       0 ≤ amount eit < amt → amt ≤ Int32.max_int →
       removeItem this (Some i) amt w = None).
Proof.
  intros Hc Hi warned. subst warned.
  destruct w as [cs its cbs evs]. cbn in Hc, Hi.
  unfold removeItem, getExistingItemObj. munfold. cbn.
  split; [reflexivity|]. rewrite Hi. cbn. rewrite Hc. cbn. split.
  - intros ->. reflexivity.
  - intros e eit -> He Ham Hmax.
    destruct (Z.eqb_spec amt 0) as [->|_]; [lia|].
    cbn. rewrite He. cbn.
    assert (Hsub : Int32.sub (amount eit) amt = amount eit - amt).
    { apply wrap_in_range.
      unfold Int32.in_range, Int32.min_int, Int32.max_int in *. lia. }
    rewrite Hsub.
    destruct (Z.ltb_spec (amount eit - amt) 0) as [_|?]; [reflexivity|lia].
Qed.

Lemma removeItem_guards_witness :
  removeItem 1%nat (Some 21%nat) 2 exWorldSword = None.
Proof.
  destruct (removeItem_guards 1%nat 21%nat 2 exWorldSword exSwordOwner
              (exWeapon "sword.json" 1) eq_refl eq_refl) as (_ & _ & H).
  apply (H 21%nat (exWeapon "sword.json" 1)).
  - reflexivity.
  - reflexivity.
  - cbn. lia.
  - unfold Int32.max_int. lia.
Defined.




(** ** Gold *)

Lemma createItem_run (it : Item) (w : World) :
  createItem it w
  = Some (fresh (dom (items w)),
          set_items (<[fresh (dom (items w)) := it]> (items w)) w).
Proof. reflexivity. Qed.

Lemma fresh_item (w : World) : items w !! fresh (dom (items w)) = None.
Proof. apply not_elem_of_dom, is_fresh. Qed.

(** A new object in the store changes nothing of what a character owns. *)
Lemma ownsQuantity_alloc (this : ptr) (prof : ItemProfile) (q : Z) (w : World)
    (i : ptr) (it : Item) :
  ownsQuantity this prof q w →
  inventoryAlive this w →
  items w !! i = None →
  ownsQuantity this prof q (set_items (<[i := it]> (items w)) w)
  ∧ inventoryAlive this (set_items (<[i := it]> (items w)) w).
Proof.
  intros (Hq & c & Hc & Hcanon & Hsingle) Halive Hi. split.
  - split; [done|]. exists c. cbn. split; [done|]. split.
    + destruct (itemMapper (bag c) !! jsonFileName prof) as [e|]; [|done].
      destruct Hcanon as (eit & He & Hrest). exists eit. split; [|done].
      rewrite lookup_insert_ne; [done|]. intros ->. congruence.
    + intros ty j jt Hin Hj Hname. cbn in Hj.
      destruct (Halive c ty j Hc Hin) as [jt' Hj'].
      rewrite lookup_insert_ne in Hj by (intros ->; congruence).
      exact (Hsingle ty j jt Hin Hj Hname).
  - intros c0 ty j Hc0 Hin. cbn in Hc0 |- *.
    destruct (Halive c0 ty j Hc0 Hin) as [jt Hj].
    rewrite lookup_insert_ne by (intros ->; congruence). eauto.
Qed.

(** The inventory calls keep the inventory within the item store. *)
Lemma addItem_inventoryAlive (this i : ptr) (amt : Z) (w w' : World)
    (prof : ItemProfile) (q : Z) :
  ownsQuantity this prof q w →
  profilesOf w !! i = Some prof →
  inventoryAlive this w →
  addItem this (Some i) amt w = Some (tt, w') →
  inventoryAlive this w'.
Proof.
  intros (Hq & c & Hc & Hcanon & Hsingle) Hi Halive.
  rewrite lookup_profilesOf in Hi.
  destruct (items w !! i) as [it|] eqn:Hit; [|discriminate].
  cbn in Hi. injection Hi as Hprof.
  destruct w as [cs its cbs evs]. cbn in Hc, Hit, Hcanon.
  assert (Halive' : ∀ ty j, j ∈ inventory (bag c) ty → is_Some (its !! j))
    by (intros ty j; by apply Halive).
  unfold addItem. destruct (Z.eqb_spec amt 0) as [->|Hnz].
  { intros [= <-]. intros c0 ty j Hc0 Hin. cbn in *. by eapply Halive. }
  unfold getExistingItemObj. munfold. munfold. cbn.
  rewrite Hit. cbn. rewrite Hc. cbn. rewrite Hprof.
  destruct (itemMapper (bag c) !! jsonFileName prof) as [e|] eqn:He.
  - destruct Hcanon as (eit & Heit & Hep & Heq & Hin).
    repeat (progress (cbn; rewrite ?lookup_insert_eq, ?Hc, ?Heit)).
    intros [= <-]. intros c0 ty j Hc0 Hj. cbn in Hc0 |- *.
    rewrite lookup_insert_eq in Hc0. injection Hc0 as <-. cbn in Hj.
    unfold inventoryInsert in Hj. cbn in Hj.
    rewrite inventory_insert_lookup in Hj.
    destruct (decide (j = e)) as [->|Hne]; [rewrite lookup_insert_eq; eauto|].
    rewrite lookup_insert_ne by done.
    case_decide; [|by eapply Halive']. subst.
    apply elem_of_union in Hj as [Hj|Hj]; [by eapply Halive'|].
    by apply elem_of_singleton in Hj.
  - repeat (progress (cbn; rewrite ?lookup_insert_eq, ?Hc, ?Hit)).
    intros [= <-]. intros c0 ty j Hc0 Hj. cbn in Hc0 |- *.
    rewrite lookup_insert_eq in Hc0. injection Hc0 as <-. cbn in Hj.
    unfold inventoryInsert in Hj. cbn in Hj.
    rewrite inventory_insert_lookup in Hj.
    destruct (decide (j = i)) as [->|Hne]; [rewrite lookup_insert_eq; eauto|].
    rewrite lookup_insert_ne by done.
    case_decide; [|by eapply Halive']. subst.
    apply elem_of_union in Hj as [Hj|Hj]; [by eapply Halive'|].
    by apply elem_of_singleton in Hj.
Qed.

Lemma removeItem_inventoryAlive (this i : ptr) (amt : Z) (w w' : World)
    (prof : ItemProfile) (q : Z) :
  ownsQuantity this prof q w →
  profilesOf w !! i = Some prof →
  inventoryAlive this w →
  removeItem this (Some i) amt w = Some (tt, w') →
  inventoryAlive this w'.
Proof.
  intros (Hq & c & Hc & Hcanon & Hsingle) Hi Halive.
  rewrite lookup_profilesOf in Hi.
  destruct (items w !! i) as [it|] eqn:Hit; [|discriminate].
  cbn in Hi. injection Hi as Hprof.
  destruct w as [cs its cbs evs]. cbn in Hc, Hit, Hcanon.
  assert (Halive' : ∀ ty j, j ∈ inventory (bag c) ty → is_Some (its !! j))
    by (intros ty j; by apply Halive).
  assert (Hkeep : ∀ (c' : Character) (its' : gmap ptr Item) cbs' evs',
            (∀ ty, inventory (bag c') ty ⊆ inventory (bag c) ty) →
            (∀ j, is_Some (its !! j) → is_Some (its' !! j)) →
            inventoryAlive this (mkWorld (<[this := c']> cs) its' cbs' evs')).
  { intros c' its' cbs' evs' Hsub Hdom c0 ty j Hc0 Hj. cbn in Hc0 |- *.
    rewrite lookup_insert_eq in Hc0. injection Hc0 as <-.
    apply Hdom. eapply Halive'. by apply Hsub. }
  unfold removeItem, getExistingItemObj. munfold. munfold. cbn.
  rewrite Hit. cbn. rewrite Hc. cbn. rewrite Hprof.
  destruct (itemMapper (bag c) !! jsonFileName prof) as [e|] eqn:He.
  2:{ intros [= <-]. intros c0 ty j Hc0 Hin. cbn in *. by eapply Halive. }
  destruct Hcanon as (eit & Heit & Hep & Heq & Hin).
  destruct (Z.eqb_spec amt 0) as [->|Hnz].
  { intros [= <-]. intros c0 ty j Hc0 Hj. cbn in *. by eapply Halive. }
  cbn. rewrite Heit. cbn.
  destruct (Int32.sub (amount eit) amt <? 0); [done|]. cbn.
  assert (Hdom : ∀ (n : Z) (j : ptr),
            is_Some (its !! j) → is_Some (<[e := setAmount n eit]> its !! j)).
  { intros n j Hj. destruct (decide (j = e)) as [->|Hne].
    - rewrite lookup_insert_eq. eauto.
    - by rewrite lookup_insert_ne. }
  destruct (Int32.sub (amount eit) amt =? 0).
  - assert (Hit' : ∃ it', <[e := setAmount (Int32.sub (amount eit) amt) eit]> its
                          !! i = Some it' ∧ itemProfile it' = prof).
    { destruct (decide (i = e)) as [->|Hne].
      - rewrite lookup_insert_eq. eexists. split; [done|]. done.
      - rewrite lookup_insert_ne by done. by exists it. }
    destruct Hit' as (it' & Hit' & Hprof').
    repeat (progress (cbn; rewrite ?Hc, ?Heit, ?Hit', ?lookup_insert_eq)).
    match goal with |- context [negb ?x] => destruct x end; cbn;
      rewrite ?lookup_insert_eq; cbn; rewrite ?insert_insert_eq;
      intros [= <-]; apply Hkeep; try apply Hdom;
      intros ty; cbn; unfold inventoryErase; cbn;
      rewrite inventory_insert_lookup; case_decide; subst; set_solver.
  - cbn. rewrite Heit. cbn. intros [= <-]. intros c0 ty j Hc0 Hj.
    cbn in Hc0 |- *. apply Hdom. by eapply Halive.
Qed.

(** X13.  Gold is the item [assets::kGoldCoin]: with a balance of [q],
    [addGold(n)] returns and leaves a balance of [q + n], [removeGold(n)]
    for [n <= q] returns and leaves a balance of [q - n], and
    [getGoldBalance] reads the balance.  The coin object each call creates
    never enters the inventory unless it becomes the canonical instance:
    the inventory keeps pointing into the item store. *)
Theorem gold_balance (kGoldCoin : Item) (this : ptr) (q n : Z) (w : World) :
  ownsQuantity this (itemProfile kGoldCoin) q w →
  inventoryAlive this w →
  0 ≤ n →
  (∃ w' : World, getGoldBalance kGoldCoin this w = Some (q, w'))
  ∧ (q + n ≤ Int32.max_int →
     ∃ w1 w2 : World,
       addGold kGoldCoin this n w = Some (tt, w1)
       ∧ ownsQuantity this (itemProfile kGoldCoin) (q + n) w1
       ∧ inventoryAlive this w1
       ∧ getGoldBalance kGoldCoin this w1 = Some (q + n, w2))
  ∧ (n ≤ q →
     ∃ w1 w2 : World,
       removeGold kGoldCoin this n w = Some (tt, w1)
       ∧ ownsQuantity this (itemProfile kGoldCoin) (q - n) w1
       ∧ inventoryAlive this w1
       ∧ getGoldBalance kGoldCoin this w1 = Some (q - n, w2)).
Proof.
  intros Hown Halive Hn.
  assert (Hbalance : ∀ (q0 : Z) (w0 : World),
            ownsQuantity this (itemProfile kGoldCoin) q0 w0 →
            inventoryAlive this w0 →
            ∃ w' : World, getGoldBalance kGoldCoin this w0 = Some (q0, w')).
  { intros q0 w0 Hown0 Halive0.
    destruct (ownsQuantity_alloc this _ q0 w0 _ kGoldCoin Hown0 Halive0
                (fresh_item w0)) as [Hown1 _].
    eexists. unfold getGoldBalance.
    erewrite mbind_Some; [|apply createItem_run].
    erewrite mbind_Some; [|apply getItem_Some; cbn; apply lookup_insert_eq].
    by apply getItemAmount_ownsQuantity. }
  destruct (ownsQuantity_alloc this _ q w _ kGoldCoin Hown Halive (fresh_item w))
    as [Hown1 Halive1].
  set (i := fresh (dom (items w))) in *.
  set (w1 := set_items (<[i := kGoldCoin]> (items w)) w) in *.
  assert (Hi : profilesOf w1 !! i = Some (itemProfile kGoldCoin)).
  { rewrite lookup_profilesOf. subst w1. cbn. by rewrite lookup_insert_eq. }
  split; [by apply Hbalance|]. split.
  - intros Hmax.
    destruct (addItem_ownsQuantity this _ q n i w1 Hown1 Hi Hn Hmax)
      as (w2 & Hrun & Hown2 & _).
    pose proof (addItem_inventoryAlive this i n w1 w2 _ q Hown1 Hi Halive1 Hrun)
      as Halive2.
    destruct (Hbalance _ _ Hown2 Halive2) as [w3 Hw3].
    exists w2, w3. split; [|done].
    unfold addGold. erewrite mbind_Some; [|apply createItem_run]. exact Hrun.
  - intros Hle.
    destruct (removeItem_ownsQuantity this _ q n i w1 Hown1 Hi (conj Hn Hle))
      as (w2 & Hrun & Hown2 & _).
    pose proof (removeItem_inventoryAlive this i n w1 w2 _ q Hown1 Hi Halive1
                  Hrun) as Halive2.
    destruct (Hbalance _ _ Hown2 Halive2) as [w3 Hw3].
    exists w2, w3. split; [|done].
    unfold removeGold. erewrite mbind_Some; [|apply createItem_run]. exact Hrun.
Qed.

Lemma gold_balance_witness :
  ∃ w1 w2 : World,
    addGold exGoldCoin 1%nat 30 exWorldSword = Some (tt, w1)
    ∧ getGoldBalance exGoldCoin 1%nat w1 = Some (30, w2).
Proof.
  destruct (gold_balance exGoldCoin 1%nat 0 30 exWorldSword)
    as (_ & Hadd & _).
  - split; [unfold Int32.max_int; lia|].
    exists exSwordOwner. split; [reflexivity|]. split; [reflexivity|].
    intros ty j jt Hin Hj Hname. cbn in Hin, Hj.
    rewrite inventory_insert_lookup in Hin.
    case_decide; [|set_solver]. apply elem_of_singleton in Hin. subst j.
    rewrite lookup_singleton_eq in Hj. injection Hj as <-. done.
  - intros c ty j Hc Hin. cbn in Hc. rewrite lookup_singleton_eq in Hc.
    injection Hc as <-. cbn in Hin. rewrite inventory_insert_lookup in Hin.
    case_decide; [|set_solver]. apply elem_of_singleton in Hin. subst j.
    cbn. rewrite lookup_singleton_eq. eauto.
  - lia.
  - destruct Hadd as (w1 & w2 & H1 & _ & _ & H2); [unfold Int32.max_int; lia|].
    exists w1, w2. by split.
Defined.

(** ** Experience gained in several steps *)

Lemma thresholdSum_S_r (getNextLevelExp : Z → Z) (n : nat) :
  ∀ l : Z,
    thresholdSum getNextLevelExp l (S n)
    = thresholdSum getNextLevelExp l n + getNextLevelExp (l + Z.of_nat n).
Proof.
  induction n as [|n IH]; intros l.
  - cbn. rewrite !Z.add_0_r. lia.
  - change (thresholdSum getNextLevelExp l (S (S n)))
      with (getNextLevelExp l + thresholdSum getNextLevelExp (l + 1) (S n)).
    rewrite IH. cbn [thresholdSum].
    replace (l + 1 + Z.of_nat n) with (l + Z.of_nat (S n)) by lia. lia.
Qed.

Lemma thresholdSum_app (getNextLevelExp : Z → Z) (n m : nat) :
  ∀ l : Z,
    thresholdSum getNextLevelExp l (n + m)
    = thresholdSum getNextLevelExp l n
      + thresholdSum getNextLevelExp (l + Z.of_nat n) m.
Proof.
  induction n as [|n IH]; intros l.
  - cbn. by rewrite Z.add_0_r.
  - cbn [Nat.add thresholdSum]. rewrite IH.
    replace (l + 1 + Z.of_nat n) with (l + Z.of_nat (S n)) by lia. lia.
Qed.

Lemma thresholdSum_ge (getNextLevelExp : Z → Z) (n : nat) :
  (∀ l : Z, 0 < getNextLevelExp l) →
  ∀ l : Z, Z.of_nat n ≤ thresholdSum getNextLevelExp l n.
Proof.
  intros Hpos. induction n as [|n IH]; intros l; [done|].
  cbn [thresholdSum]. specialize (IH (l + 1)). specialize (Hpos l). lia.
Qed.

(** The number of levels a given amount of experience buys is determined
    by the two conditions under which the loop of [addExp] stops. *)
Lemma levels_gained_unique (getNextLevelExp : Z → Z) (e l : Z) (n n' : nat) :
  e - thresholdSum getNextLevelExp l n < getNextLevelExp (l + Z.of_nat n) →
  (∀ m : nat, (m < n)%nat → thresholdSum getNextLevelExp l (S m) ≤ e) →
  e - thresholdSum getNextLevelExp l n' < getNextLevelExp (l + Z.of_nat n') →
  (∀ m : nat, (m < n')%nat → thresholdSum getNextLevelExp l (S m) ≤ e) →
  n = n'.
Proof.
  intros Hstop Hcross Hstop' Hcross'.
  destruct (Nat.lt_trichotomy n n') as [Hlt|[->|Hgt]]; [|done|].
  - specialize (Hcross' n Hlt). rewrite thresholdSum_S_r in Hcross'. lia.
  - specialize (Hcross n' Hgt). rewrite thresholdSum_S_r in Hcross. lia.
Qed.

(** X14.  Experience can be handed over in instalments: when every
    threshold of the table is positive and the sums stay within [int],
    [addExp(a)] followed by [addExp(b)] with [b >= 0] returns, and leaves
    the character exactly as the single call [addExp(a + b)] does. *)
Theorem addExp_instalments (getNextLevelExp : Z → Z) (c : Character) (a b : Z) :
  (∀ l : Z, 0 < getNextLevelExp l) →
  0 ≤ b →
  Int32.in_range (exp (characterProfile c) + a) →
  Int32.in_range (exp (characterProfile c) + a + b) →
  Int32.in_range (level (characterProfile c)) →
  level (characterProfile c) + Z.max 0 (exp (characterProfile c) + a + b)
    ≤ Int32.max_int →
  ∃ (n : nat) (c' : Character),
    ∀ fuel : nat, (n ≤ fuel)%nat →
      addExp getNextLevelExp fuel (a + b) c = Some c'
      ∧ addExp getNextLevelExp fuel a c ≫= addExp getNextLevelExp fuel b
        = Some c'.
Proof.
  intros Hpos Hb Ha Hab Hlevel Hsum.
  set (e := exp (characterProfile c)) in *.
  set (l := level (characterProfile c)) in *.
  set (T := thresholdSum getNextLevelExp).
  destruct (addExp_loop_spec getNextLevelExp Hpos (Z.to_nat (e + a)) (e + a) l)
    as (n1 & _ & Hrun1 & Hstop1 & Hcross1); [lia|done|done|lia|].
  fold T in Hrun1, Hstop1, Hcross1.
  pose proof (thresholdSum_ge getNextLevelExp n1 Hpos l) as Hge1. fold T in Hge1.
  assert (Hn1 : (0 < n1)%nat → T l n1 ≤ e + a).
  { intros Hn. destruct n1 as [|m]; [lia|]. apply Hcross1. lia. }
  assert (Hrange : Int32.min_int ≤ e + a - T l n1 ∧ Z.of_nat n1 ≤ Z.max 0 (e + a)).
  { unfold Int32.in_range, Int32.min_int, Int32.max_int in *.
    destruct n1 as [|m]; [cbn in *; lia|].
    specialize (Hn1 ltac:(lia)). lia. }
  destruct (addExp_loop_spec getNextLevelExp Hpos
              (Z.to_nat (e + a - T l n1 + b)) (e + a - T l n1 + b)
              (l + Z.of_nat n1))
    as (n2 & _ & Hrun2 & Hstop2 & Hcross2).
  { lia. }
  { unfold Int32.in_range, Int32.min_int, Int32.max_int in *. lia. }
  { unfold Int32.in_range, Int32.min_int, Int32.max_int in *. lia. }
  { lia. }
  fold T in Hrun2, Hstop2, Hcross2.
  destruct (addExp_loop_spec getNextLevelExp Hpos (Z.to_nat (e + a + b))
              (e + a + b) l)
    as (n3 & _ & Hrun3 & Hstop3 & Hcross3); [lia|done|done|done|].
  fold T in Hrun3, Hstop3, Hcross3.
  assert (Hn3 : n3 = (n1 + n2)%nat).
  { apply (levels_gained_unique getNextLevelExp (e + a + b) l); fold T;
      try done.
    - unfold T. rewrite thresholdSum_app. fold T.
      replace (l + Z.of_nat (n1 + n2)) with (l + Z.of_nat n1 + Z.of_nat n2)
        by lia.
      lia.
    - intros m Hm. destruct (Nat.lt_ge_cases m n1) as [Hlt|Hge].
      + specialize (Hcross1 m Hlt). lia.
      + replace (S m) with (n1 + S (m - n1))%nat by lia.
        unfold T. rewrite thresholdSum_app. fold T.
        specialize (Hcross2 (m - n1)%nat ltac:(lia)). lia. }
  subst n3.
  exists (n1 + n2)%nat.
  exists (upd_characterProfile
            (λ p, set_level (l + Z.of_nat (n1 + n2))
                    (set_exp (e + a + b - T l (n1 + n2)%nat) p)) c).
  intros fuel Hfuel.
  assert (Hadd3 : Int32.add e (a + b) = e + a + b).
  { unfold Int32.add. rewrite Z.add_assoc. by apply wrap_in_range. }
  assert (Hadd1 : Int32.add e a = e + a) by (by apply wrap_in_range).
  assert (Hadd2 : Int32.add (e + a - T l n1) b = e + a - T l n1 + b).
  { apply wrap_in_range.
    unfold Int32.in_range, Int32.min_int, Int32.max_int in *. lia. }
  split.
  - unfold addExp. fold e l. rewrite Hadd3, (Hrun3 fuel Hfuel). reflexivity.
  - unfold addExp at 2. fold e l. rewrite Hadd1, (Hrun1 fuel) by lia. cbn.
    unfold addExp. cbn. rewrite Hadd2, (Hrun2 fuel) by lia.
    unfold T. rewrite thresholdSum_app. fold T.
    replace (l + Z.of_nat (n1 + n2)) with (l + Z.of_nat n1 + Z.of_nat n2)
      by lia.
    replace (e + a + b - (T l n1 + T (l + Z.of_nat n1) n2))
      with (e + a - T l n1 + b - T (l + Z.of_nat n1) n2) by lia.
    reflexivity.
Qed.

Lemma addExp_instalments_witness :
  ∃ (n : nat) (c' : Character),
    ∀ fuel : nat, (n ≤ fuel)%nat →
      addExp exNextLevelExp fuel (180 + 70) (exAttacker 0 3) = Some c'
      ∧ addExp exNextLevelExp fuel 180 (exAttacker 0 3)
          ≫= addExp exNextLevelExp fuel 70
        = Some c'.
Proof.
  apply (addExp_instalments exNextLevelExp (exAttacker 0 3) 180 70).
  - intros l. unfold exNextLevelExp. lia.
  - lia.
  - unfold Int32.in_range, Int32.min_int, Int32.max_int. simpl. lia.
  - unfold Int32.in_range, Int32.min_int, Int32.max_int. simpl. lia.
  - unfold Int32.in_range, Int32.min_int, Int32.max_int. simpl. lia.
  - unfold Int32.max_int. simpl. lia.
Defined.

(** ** Regeneration *)

Lemma regen_clamp (full x a b : Z) :
  0 ≤ a → 0 ≤ b → Int32.in_range x → x ≤ full → full + a + b ≤ Int32.max_int →
  let clamp := λ h : Z, if full <? h then full else h in
  clamp (Int32.add x a) = Z.min full (x + a)
  ∧ clamp (Int32.add (clamp (Int32.add x b)) a) = clamp (Int32.add x (a + b)).
Proof.
  intros Ha Hb Hx Hfull Hmax clamp. subst clamp. cbn beta.
  assert (Hadd : ∀ y d : Z, Int32.in_range y → y ≤ full → 0 ≤ d → d ≤ a + b →
            Int32.add y d = y + d).
  { intros y d Hy Hyf Hd Hdab. apply wrap_in_range.
    unfold Int32.in_range, Int32.min_int, Int32.max_int in *. lia. }
  rewrite !(Hadd x) by (done || lia).
  split.
  - destruct (Z.ltb_spec full (x + a)); lia.
  - destruct (Z.ltb_spec full (x + b)).
    + rewrite Hadd; [|unfold Int32.in_range, Int32.min_int, Int32.max_int in *; lia|lia..].
      destruct (Z.ltb_spec full (full + a)), (Z.ltb_spec full (x + (a + b))); lia.
    + rewrite Hadd; [|unfold Int32.in_range, Int32.min_int, Int32.max_int in *; lia|lia..].
      destruct (Z.ltb_spec full (x + b + a)), (Z.ltb_spec full (x + (a + b))); lia.
Qed.

(** X15.  [regenHealth], [regenMagicka] and [regenStamina] add to their
    value and cap it at the full value: for a value within its full value
    and non-negative amounts (sums within [int]) the new value is the
    smaller of the full value and the sum, and regenerating [b] and then
    [a] leaves the character exactly as regenerating [a + b] at once. *)
Theorem regen_capped (a b : Z) (c : Character) :
  0 ≤ a → 0 ≤ b →
  let p := characterProfile c in
  (Int32.in_range (health p) → health p ≤ fullHealth p →
   fullHealth p + a + b ≤ Int32.max_int →
   health (characterProfile (regenHealth a c))
   = Z.min (fullHealth p) (health p + a)
   ∧ regenHealth a (regenHealth b c) = regenHealth (a + b) c)
  ∧ (Int32.in_range (magicka p) → magicka p ≤ fullMagicka p →
     fullMagicka p + a + b ≤ Int32.max_int →
     magicka (characterProfile (regenMagicka a c))
     = Z.min (fullMagicka p) (magicka p + a)
     ∧ regenMagicka a (regenMagicka b c) = regenMagicka (a + b) c)
  ∧ (Int32.in_range (stamina p) → stamina p ≤ fullStamina p →
     fullStamina p + a + b ≤ Int32.max_int →
     stamina (characterProfile (regenStamina a c))
     = Z.min (fullStamina p) (stamina p + a)
     ∧ regenStamina a (regenStamina b c) = regenStamina (a + b) c).
Proof.
  intros Ha Hb p. subst p. split; [|split]; intros Hx Hfull Hmax.
  - destruct (regen_clamp _ _ a b Ha Hb Hx Hfull Hmax) as [H1 H2].
    split; [exact H1|]. unfold regenHealth. cbn. by rewrite H2.
  - destruct (regen_clamp _ _ a b Ha Hb Hx Hfull Hmax) as [H1 H2].
    split; [exact H1|]. unfold regenMagicka. cbn. by rewrite H2.
  - destruct (regen_clamp _ _ a b Ha Hb Hx Hfull Hmax) as [H1 H2].
    split; [exact H1|]. unfold regenStamina. cbn. by rewrite H2.
Qed.

Lemma regen_capped_witness :
  stamina (characterProfile
             (regenStamina 7 (regenStamina 5 (exCharacter 1 10 50 0%float noTargets))))
  = 100
  ∧ health (characterProfile
              (regenHealth 7 (exCharacter 1 10 50 0%float noTargets))) = 17.
Proof.
  destruct (regen_capped 7 5 (exCharacter 1 10 50 0%float noTargets))
    as (Hh & _ & Hs); [lia|lia|].
  destruct Hh as [Hh _];
    [vm_compute; split; discriminate|cbn; lia|unfold Int32.max_int; cbn; lia|].
  destruct Hs as [Hs1 Hs2];
    [vm_compute; split; discriminate|cbn; lia|unfold Int32.max_int; cbn; lia|].
  split; [|exact Hh]. rewrite Hs2.
  destruct (regen_capped 12 0 (exCharacter 1 10 50 0%float noTargets))
    as (_ & _ & Hs'); [lia|lia|].
  destruct Hs' as [Hs' _];
    [vm_compute; split; discriminate|cbn; lia|unfold Int32.max_int; cbn; lia|].
  exact Hs'.
Defined.

(** ** The state of a character *)

(** X16.  Lethal damage shows in the state machine at once: when a live
    source deals a vulnerable receiver damage that takes its health to
    zero or below, [receiveDamage] returns true and [determineState] of the
    receiver is KILLED whatever else the receiver is doing; the killed
    flag itself is not raised by [receiveDamage]. *)
Theorem lethal_damage_determineState (kDestroyed : Z) (this src : ptr)
    (damage : Z) (w : World) (s me : Character) (b : Body) (f : ptr)
    (fx : Fixture) :
  characters w !! src = Some s →
  characters w !! this = Some me →
  getAllies src s ⊆ dom (characters w) →
  body (physics me) = Some b →
  fixtures (physics me) BODY = Some f →
  fixtureList b !! f = Some fx →
  isSetToKill s || isKilled s = false →
  isInvincible me = false →
  Int32.in_range (getHealth me - damage) →
  getHealth me ≤ damage →
  ∃ (w' : World) (me' : Character),
    receiveDamage kDestroyed this (Some src) damage w = Some (true, w')
    ∧ characters w' !! this = Some me'
    ∧ determineState me' = Some KILLED
    ∧ isKilled me' = isKilled me.
Proof.
  intros Hs Hme Hallies Hb Hf Hfx Halive Hinv Hrange Hle.
  destruct w as [cs its cbs evs]. cbn in Hs, Hme, Hallies.
  destruct (receiveDamage_lethal kDestroyed this src damage cs its cbs evs
              s me b f fx) as (cs' & Hrun & Hcs'); try done.
  { unfold getHealth, Int32.sub in *. rewrite wrap_in_range by done. lia. }
  { intros a Ha. apply elem_of_dom. by apply Hallies. }
  pose proof (Hcs' this) as Hthis. rewrite Hme in Hthis. cbn in Hthis.
  eexists _, _. split; [exact Hrun|]. split; [exact Hthis|].
  pose proof (lethalDamage_this kDestroyed this src (getAllies src s) damage b
                f fx me) as (_ & _ & Hkill & _).
  cbv zeta in Hkill. unfold isSetToKill in Hkill.
  split.
  - unfold determineState. by rewrite Hkill.
  - unfold lethalDamage, clearTarget, isKilled.
    repeat case_decide; repeat case_bool_decide; try done.
Qed.

Lemma lethal_damage_determineState_witness :
  ∃ (w' : World) (me' : Character),
    receiveDamage 0 1%nat (Some 2%nat) 15 exWorld3 = Some (true, w')
    ∧ characters w' !! 1%nat = Some me'
    ∧ determineState me' = Some KILLED.
Proof.
  destruct (lethal_damage_determineState 0 1%nat 2%nat 15 exWorld3
              (exCharacter 2 80 80 0%float exTracker)
              (exCharacter 1 10 50 0%float noTargets)
              (exBody 1%nat 0%float) 0%nat
              (exFixture (BodyPolygon false) 8 3 1%nat))
    as (w' & me' & H1 & H2 & H3 & _).
  - reflexivity.
  - reflexivity.
  - refine (bool_decide_unpack _ _). vm_compute. exact I.
  - reflexivity.
  - reflexivity.
  - reflexivity.
  - reflexivity.
  - reflexivity.
  - vm_compute. split; discriminate.
  - cbn. lia.
  - by exists w', me'.
Defined.

(** X17.  What [determineState] can answer.  It has a result exactly when
    the character has a body or one of the flags tested before the
    velocity (set to kill, getting up, attacking, dodging) is set.  The
    result is the recorded attack override of an attacking character, or
    one of the fifteen states the function names: without an override it
    is never SPELLCAST, FORCE_UPDATE or one of the directional attack
    states. *)
Theorem determineState_range (c : Character) :
  (is_Some (determineState c)
   ↔ is_Some (body (physics c))
     ∨ f_isSetToKill (flags c) = true
     ∨ f_isGettingUpFromFalling (flags c) = true
     ∨ f_isAttacking (flags c) = true
     ∨ f_isDodgingBackward (flags c) = true
     ∨ f_isDodgingForward (flags c) = true)
  ∧ ∀ s : State,
      determineState c = Some s →
      (f_isAttacking (flags c) = true ∧ overridingAttackState c = Some s)
      ∨ s ∈ [KILLED; FALLING_GETUP; ATTACKING_UNARMED; ATTACKING_CROUCH;
             ATTACKING_MIDAIR; ATTACKING; DODGING_BACKWARD; DODGING_FORWARD;
             FALLING; JUMPING; CROUCHING; RUNNING_START; RUNNING_STOP;
             RUNNING; IDLE].
Proof.
  unfold determineState, determineAttackState, GetLinearVelocity,
    isCrouching, isJumping.
  split.
  - destruct (f_isSetToKill (flags c)); [split; eauto 10|].
    destruct (f_isGettingUpFromFalling (flags c)); [split; eauto 10|].
    destruct (f_isAttacking (flags c)); [split; eauto 10|].
    destruct (f_isDodgingBackward (flags c)); [split; eauto 10|].
    destruct (f_isDodgingForward (flags c)); [split; eauto 10|].
    destruct (body (physics c)) as [b|]; cbn.
    + split; [eauto|]. intros _.
      repeat (match goal with |- context [if ?x then _ else _] =>
                destruct x end); eauto.
    + split; [intros [? [=]]|].
      intros [[? [=]]|[?|[?|[?|[?|?]]]]]; done.
  - intros s.
    destruct (f_isSetToKill (flags c));
      [intros [= <-]; right; set_solver|].
    destruct (f_isGettingUpFromFalling (flags c));
      [intros [= <-]; right; set_solver|].
    destruct (f_isAttacking (flags c)).
    { destruct (overridingAttackState c) as [o|]; [intros [= <-]; by left|].
      repeat (match goal with |- context [if ?x then _ else _] =>
                destruct x end); intros [= <-]; right; set_solver. }
    destruct (f_isDodgingBackward (flags c));
      [intros [= <-]; right; set_solver|].
    destruct (f_isDodgingForward (flags c));
      [intros [= <-]; right; set_solver|].
    destruct (body (physics c)) as [b|]; cbn; [|done].
    repeat (match goal with |- context [if ?x then _ else _] =>
              destruct x end); intros [= <-]; right; set_solver.
Qed.

(** ** What the combat calls leave alone *)

Lemma setCategoryBits_inv (fixture : option ptr) (bits : Z) (c c' : Character) :
  setCategoryBits fixture bits c = Some c' →
  ∃ b' : Body, c' = upd_physics (set_body (Some b')) c.
Proof.
  unfold setCategoryBits. destruct fixture as [f|]; [|done]. cbn.
  destruct (body (physics c)) as [b|]; [|done]. cbn.
  destruct (fixtureList b !! f) as [fx|]; [|done]. cbn.
  intros [= <-]. eauto.
Qed.

Lemma preservesAt_receiveDamage {X : Type} (P : ptr → Prop)
    (obs : Character → X) (kDestroyed : Z) (this : ptr) (source : option ptr)
    (damage : Z) :
  (∀ (f : Targets → Targets) (c : Character),
     party (f (targets c)) = party (targets c) →
     obs (upd_targets f c) = obs c) →
  (P this →
   ∀ c : Character,
     (∀ f : Profile → Profile, obs (upd_characterProfile f c) = obs c)
     ∧ (∀ f : Flags → Flags, obs (upd_flags f c) = obs c)
     ∧ (∀ b : Body, obs (upd_physics (set_body (Some b)) c) = obs c)) →
  preservesAt P obs (receiveDamage kDestroyed this source damage).
Proof.
  intros Htargets Hthis. unfold receiveDamage.
  destruct source as [src|]; [|preserves_with idtac].
  apply preservesAt_bind; [apply preservesAt_getCharacter|intros s].
  destruct (isSetToKill s || isKilled s); [apply preservesAt_ret|].
  apply preservesAt_bind; [apply preservesAt_getCharacter|intros me].
  destruct (isInvincible me); [apply preservesAt_ret|].
  repeat first
    [ apply preservesAt_ret | apply preservesAt_getCharacter
    | apply preservesAt_notify | apply preservesAt_runAfter
    | apply preservesAt_when
    | match goal with
      | |- preservesAt _ _ (match ?x with _ => _ end) => destruct x
      | |- preservesAt _ _ (modifyCharacter this _) =>
          apply preservesAt_modifyCharacter; intros HP c0;
          destruct (Hthis HP c0) as (H1 & H2 & H3); first [apply H1|apply H2]
      | |- preservesAt _ _ (modifyCharacter _ _) =>
          apply preservesAt_modifyCharacter; intros _ c0;
          apply Htargets; reflexivity
      | |- preservesAt _ _ (updateCharacter this _) =>
          apply preservesAt_updateCharacter; intros HP c0 c0' Hc0;
          apply setCategoryBits_inv in Hc0 as [b' ->];
          destruct (Hthis HP c0) as (H1 & H2 & H3); apply H3
      end
    | apply preservesAt_forEach; intros ?
    | apply preservesAt_bind; [|intros ?] ].
Qed.

(** X18.  [receiveDamage] changes nothing of any character but its
    targets, and the profile, flags and physics of the receiver: every
    character of the world is still there, with its bag, sprite, attack
    override and party, and every character other than the receiver with
    its profile, flags and physics. *)
Theorem receiveDamage_leaves_alone (kDestroyed : Z) (this : ptr)
    (source : option ptr) (damage : Z) (w w' : World) (r : bool) :
  receiveDamage kDestroyed this source damage w = Some (r, w') →
  ∀ (p : ptr) (c : Character),
    characters w !! p = Some c →
    ∃ c' : Character,
      characters w' !! p = Some c'
      ∧ bag c' = bag c ∧ sprite c' = sprite c
      ∧ overridingAttackState c' = overridingAttackState c
      ∧ party (targets c') = party (targets c)
      ∧ (p ≠ this →
         characterProfile c' = characterProfile c ∧ flags c' = flags c
         ∧ physics c' = physics c).
Proof.
  intros Hrun p c Hc.
  destruct (preservesAt_lookup everywhere belongings _ w w' r p c
              (preservesAt_receiveDamage everywhere belongings kDestroyed this
                 source damage
                 ltac:(intros f c0 Hf; unfold belongings; cbn; by rewrite Hf)
                 ltac:(intros _ c0; by repeat split))
              Hrun I Hc) as (c' & Hc' & Hbel).
  exists c'. split; [exact Hc'|].
  injection Hbel as Hbag Hsprite Hov Hparty.
  repeat (split; [assumption|]).
  intros Hne.
  destruct (preservesAt_lookup (λ q, q ≠ this) condition _ w w' r p c
              (preservesAt_receiveDamage (λ q, q ≠ this) condition kDestroyed
                 this source damage
                 ltac:(intros f c0 _; reflexivity)
                 ltac:(intros HP; done))
              Hrun Hne Hc) as (c'' & Hc'' & Hcond).
  rewrite Hc' in Hc''. injection Hc'' as <-.
  injection Hcond as Hp Hf Hph. by repeat split.
Qed.

Lemma receiveDamage_leaves_alone_witness :
  ∃ (w' : World) (c' : Character),
    receiveDamage 0 1%nat (Some 2%nat) 15 exWorld3 = Some (true, w')
    ∧ characters w' !! 3%nat = Some c'
    ∧ characterProfile c' = exProfile 60 60
    ∧ party (targets c') = Some exParty.
Proof.
  destruct (receiveDamage 0 1%nat (Some 2%nat) 15 exWorld3) as [[r w']|] eqn:Hrun;
    [|vm_compute in Hrun; discriminate].
  assert (r = true) as -> by (vm_compute in Hrun; by injection Hrun as <- _).
  destruct (receiveDamage_leaves_alone 0 1%nat (Some 2%nat) 15 exWorld3 w' true
              Hrun 3%nat (exCharacter 3 60 60 0%float exTracker) eq_refl)
    as (c' & Hc' & _ & _ & _ & Hparty & Hrest).
  destruct Hrest as (Hp & _ & _); [lia|].
  exists w', c'. split; [reflexivity|]. split; [exact Hc'|]. by split.
Defined.

Lemma pv_lockOn (this : ptr) (target : option ptr) :
  preservesVitals (lockOn this target).
Proof. unfold lockOn. pv_auto. Qed.

(** X19.  [inflictDamage] hurts the target only.  Of every character other
    than the target the profile, physics, bag and sprite are as before (the
    attacker and the allies of both sides are alerted and locked on, no
    more); health, full health and the two kill flags of the target are
    either as before (source dying, target invincible) or what
    [receiveDamage] makes of them: health minus the damage, floored at
    zero, set to kill when it reaches zero. *)
Theorem inflictDamage_hurts_target_only (kDestroyed : Z) (this tgt : ptr)
    (damage : Z) (w w' : World) (r : bool) :
  inflictDamage kDestroyed this (Some tgt) damage w = Some (r, w') →
  (∀ (p : ptr) (c : Character),
     p ≠ tgt →
     characters w !! p = Some c →
     ∃ c' : Character,
       characters w' !! p = Some c'
       ∧ characterProfile c' = characterProfile c ∧ physics c' = physics c
       ∧ bag c' = bag c ∧ sprite c' = sprite c)
  ∧ (vitalsOf w' = vitalsOf w
     ∨ vitalsOf w' = alter (damagedVitals damage) tgt (vitalsOf w)).
Proof.
  intros Hrun. split.
  - intros p c Hne Hc.
    assert (Hpres : preservesAt (λ q, q ≠ tgt)
                      (λ c, (characterProfile c, physics c, bag c, sprite c))
                      (inflictDamage kDestroyed this (Some tgt) damage)).
    { unfold inflictDamage, lockOn.
      apply preservesAt_bind.
      { apply preservesAt_receiveDamage.
        - intros f c0 _. reflexivity.
        - intros HP. done. }
      intros _. preserves_with ltac:(reflexivity). }
    destruct (preservesAt_lookup _ _ _ w w' r p c Hpres Hrun Hne Hc)
      as (c' & Hc' & Hobs).
    exists c'. split; [exact Hc'|]. injection Hobs as H1 H2 H3 H4. done.
  - unfold inflictDamage in Hrun.
    minv Hrun as r1 w1 H1.
    apply receiveDamage_vitals in H1 as [_ Hv1].
    assert (Hrest : sameVitals w1 w').
    { revert Hrun. generalize w1 r w'.
      change (preservesVitals
                (lockOn tgt (Some this);;
                 me ← getCharacter this;
                 forEach (elements (getAllies this me))
                   (λ ally, lockOn ally (Some tgt));;
                 t ← getCharacter tgt;
                 forEach (elements (getAllies tgt t))
                   (λ targetAlly, lockOn targetAlly (Some this));;
                 mret true)).
      repeat first
        [ apply pv_lockOn | apply pv_ret | apply pv_getCharacter
        | apply pv_forEach; intros ? | apply pv_bind; [|intros ?] ]. }
    destruct Hrest as [Hv _]. rewrite Hv. exact Hv1.
Qed.

Lemma inflictDamage_hurts_target_only_witness :
  ∃ (w' : World) (c' : Character),
    inflictDamage 0 2%nat (Some 1%nat) 15 exWorld3 = Some (true, w')
    ∧ characters w' !! 2%nat = Some c'
    ∧ characterProfile c' = exProfile 80 80.
Proof.
  destruct (inflictDamage 0 2%nat (Some 1%nat) 15 exWorld3) as [[r w']|] eqn:Hrun;
    [|vm_compute in Hrun; discriminate].
  assert (r = true) as -> by (vm_compute in Hrun; by injection Hrun as <- _).
  destruct (inflictDamage_hurts_target_only 0 2%nat 1%nat 15 exWorld3 w' true
              Hrun) as [Hframe _].
  destruct (Hframe 2%nat (exCharacter 2 80 80 0%float exTracker))
    as (c' & Hc' & Hp & _); [lia|reflexivity|].
  exists w', c'. by repeat split.
Defined.

(** ** Skills *)

Lemma skillBook_insert_lookup (f : SkillType → gset ptr) (ty ty' : SkillType)
    (x : gset ptr) :
  (<[ty := x]> f) ty' = if decide (ty = ty') then x else f ty'.
Proof. reflexivity. Qed.

(** X20.  Learning a skill whose name is not known yet, then forgetting
    it: both calls return, in between the skill is owned under its name and
    listed under its type, and afterwards the skill book and the owning map
    are as they were, provided the skill was not listed before.  Learning
    a second skill object under a name already known changes neither the
    book nor the map and logs the warning that names the skill. *)
Theorem addSkill_removeSkill (p : ptr) (sk : Skill) (s : Skills) :
  skillObjects s !! p = Some sk →
  skillMapper s !! getName sk = None →
  p ∉ skillBook s (skillType sk) →
  ∃ s1 s2 : Skills,
    addSkill (Some p) s = Some s1
    ∧ removeSkill (Some p) s1 = Some s2
    ∧ skillMapper s1 !! getName sk = Some p
    ∧ p ∈ skillBook s1 (skillType sk)
    ∧ skillMapper s2 = skillMapper s
    ∧ (∀ ty : SkillType, skillBook s2 ty = skillBook s ty)
    ∧ skillLog s2 = skillLog s
    ∧ ∀ (p' : ptr) (sk' : Skill),
        skillObjects s !! p' = Some sk' →
        getName sk' = getName sk →
        ∃ s1' : Skills,
          addSkill (Some p') s1 = Some s1'
          ∧ skillMapper s1' = skillMapper s1
          ∧ skillBook s1' = skillBook s1
          ∧ skillLog s1'
            = skillLog s1
              ++ [VGLOG LOG_WARN
                    ("This character has already learned the skill: "
                     +:+ getName sk)].
Proof.
  intros Hp Hname Hnotin.
  unfold addSkill, removeSkill. cbn. rewrite Hp. cbn. rewrite Hname. cbn.
  eexists _, _. split; [reflexivity|]. cbn. rewrite Hp. cbn.
  rewrite lookup_insert_eq. cbn. split; [reflexivity|]. cbn.
  rewrite ?lookup_insert_eq. split; [reflexivity|].
  split; [rewrite skillBook_insert_lookup, decide_True by done; set_solver|].
  split; [rewrite delete_insert_eq; by apply delete_id|].
  split.
  { intros ty. rewrite !skillBook_insert_lookup.
    case_decide; [subst ty|done].
    rewrite decide_True by done. set_solver. }
  split; [reflexivity|].
  intros p' sk' Hp' Hsame. rewrite Hp'. cbn. rewrite Hsame, lookup_insert_eq.
  eexists. split; [reflexivity|]. cbn. split; [reflexivity|].
  split; reflexivity.
Qed.

Lemma addSkill_removeSkill_witness :
  ∃ s1 s2 : Skills,
    addSkill (Some 30%nat) exSkills = Some s1
    ∧ removeSkill (Some 30%nat) s1 = Some s2
    ∧ skillMapper s1 !! "Forward Slash" = Some 30%nat
    ∧ skillMapper s2 = skillMapper exSkills.
Proof.
  destruct (addSkill_removeSkill 30%nat
              {| getName := "Forward Slash"; skillType := 0%nat |} exSkills)
    as (s1 & s2 & H1 & H2 & H3 & _ & H4 & _).
  - reflexivity.
  - reflexivity.
  - cbn. set_solver.
  - by exists s1, s2.
Defined.

(** X21.  [addSkill] keeps the skill book and the owning map in agreement,
    whatever skill object it is given.  [removeSkill] keeps them in
    agreement when it is given the learned object itself, or a skill that
    was not learned; given another object bearing the name of a learned
    skill, it takes the learned skill out of the owning map and leaves it
    in the book. *)
Theorem skills_stay_consistent (p : ptr) (s : Skills) :
  skillsConsistent s →
  (∀ s' : Skills, addSkill (Some p) s = Some s' → skillsConsistent s')
  ∧ (∀ (sk : Skill) (s' : Skills),
       skillObjects s !! p = Some sk →
       skillMapper s !! getName sk = None ∨ skillMapper s !! getName sk = Some p →
       removeSkill (Some p) s = Some s' → skillsConsistent s')
  ∧ (∀ (sk : Skill) (q : ptr) (s' : Skills),
       skillObjects s !! p = Some sk →
       skillMapper s !! getName sk = Some q → q ≠ p →
       removeSkill (Some p) s = Some s' →
       skillMapper s' !! getName sk = None
       ∧ ∃ ty : SkillType, q ∈ skillBook s' ty).
Proof.
  intros [Hmap Hbook]. split; [|split].
  - intros s'. unfold addSkill. cbn.
    destruct (skillObjects s !! p) as [sk|] eqn:Hp; [|done]. cbn.
    destruct (skillMapper s !! getName sk) as [q|] eqn:Hq.
    + intros [= <-]. by split.
    + intros [= <-]. split; cbn.
      * intros name r. destruct (decide (name = getName sk)) as [->|Hne].
        -- rewrite lookup_insert_eq. intros [= <-]. exists sk.
           split; [done|]. split; [done|].
           rewrite skillBook_insert_lookup, decide_True by done. set_solver.
        -- rewrite lookup_insert_ne by done. intros Hr.
           destruct (Hmap name r Hr) as (sk' & Hr' & Hn' & Hin').
           exists sk'. split; [done|]. split; [done|].
           rewrite skillBook_insert_lookup. case_decide as Hty; [|done].
           rewrite <- Hty in Hin'. set_solver.
      * intros ty r. rewrite skillBook_insert_lookup.
        destruct (decide (r = p)) as [->|Hrp].
        -- intros Hin. exists sk. split; [done|].
           split; [|apply lookup_insert_eq].
           case_decide as Hty; [done|].
           destruct (Hbook ty p Hin) as (sk' & Hp' & _ & Hm').
           rewrite Hp in Hp'. injection Hp' as <-. congruence.
        -- intros Hin.
           assert (Hin' : r ∈ skillBook s ty)
             by (case_decide; [subst ty|]; set_solver).
           destruct (Hbook ty r Hin') as (sk' & Hr' & Hty' & Hm').
           exists sk'. split; [done|]. split; [done|].
           rewrite lookup_insert_ne; [done|]. intros Heq.
           rewrite <- Heq in Hm'. congruence.
  - intros sk s' Hp Hcanon. unfold removeSkill. cbn. rewrite Hp. cbn.
    destruct Hcanon as [Hnone|Hsome].
    + rewrite Hnone. intros [= <-]. by split.
    + rewrite Hsome. intros [= <-]. split; cbn.
      * intros name r. destruct (decide (name = getName sk)) as [->|Hne].
        -- by rewrite lookup_delete_eq.
        -- rewrite lookup_delete_ne by done. intros Hr.
           destruct (Hmap name r Hr) as (sk' & Hr' & Hn' & Hin').
           exists sk'. split; [done|]. split; [done|].
           rewrite skillBook_insert_lookup.
           case_decide as Hty; [|done]. rewrite <- Hty in Hin'.
           apply elem_of_difference. split; [done|].
           intros ->%elem_of_singleton. rewrite Hp in Hr'.
           injection Hr' as <-. done.
      * intros ty r. rewrite skillBook_insert_lookup. intros Hin.
        assert (Hin' : r ∈ skillBook s ty ∧ (ty = skillType sk → r ≠ p)).
        { case_decide as Hty; [subst ty|]; [set_solver|].
          split; [done|]. congruence. }
        destruct Hin' as [Hin' Hrp].
        destruct (Hbook ty r Hin') as (sk' & Hr' & Hty' & Hm').
        exists sk'. split; [done|]. split; [done|].
        rewrite lookup_delete_ne; [done|]. intros Heq.
        rewrite <- Heq, Hsome in Hm'. injection Hm' as <-.
        rewrite Hp in Hr'. injection Hr' as <-. by apply Hrp.
  - intros sk q s' Hp Hq Hne. unfold removeSkill. cbn. rewrite Hp. cbn.
    rewrite Hq. intros [= <-]. cbn. split; [apply lookup_delete_eq|].
    destruct (Hmap _ _ Hq) as (skq & Hskq & Hnq & Hinq).
    exists (skillType skq). rewrite skillBook_insert_lookup.
    case_decide as Hty; [|done]. rewrite <- Hty in Hinq. set_solver.
Qed.

Lemma skills_stay_consistent_witness :
  ∃ s' : Skills,
    addSkill (Some 32%nat) exSkills = Some s' ∧ skillsConsistent s'.
Proof.
  assert (Hstart : skillsConsistent exSkills).
  { split.
    - intros name p Hp. cbn in Hp. by rewrite lookup_empty in Hp.
    - intros ty p Hp. cbn in Hp. set_solver. }
  destruct (addSkill (Some 32%nat) exSkills) as [s'|] eqn:Hrun;
    [|vm_compute in Hrun; discriminate].
  exists s'. split; [reflexivity|].
  exact (proj1 (skills_stay_consistent 32%nat exSkills Hstart) s' Hrun).
Defined.

(** ** Jumping, landing and stopping *)

Lemma jump_blocked (s : Mover) : jumpBlocked s = true → jump s = Some s.
Proof. unfold jump, jumpBlocked. by intros ->. Qed.

Lemma runAnimation_JUMPING (c : Character) :
  runAnimation JUMPING false c
  = upd_sprite (set_spriteAction (Some (BodyAnimation JUMPING, false))) c.
Proof.
  unfold runAnimation.
  destruct (decide (JUMPING = ATTACKING)) as [|_]; [done|].
  destruct (decide (JUMPING ≠ ATTACKING)) as [_|Hn]; [done|].
  exfalso. apply Hn. discriminate.
Qed.

(** A jump that is carried out. *)
Lemma jump_carried_out (s : Mover) (b : Body) :
  jumpBlocked s = false →
  body (physics (self s)) = Some b →
  ∃ (s1 : Mover) (b1 : Body),
    jump s = Some s1
    ∧ body (physics (self s1)) = Some b1
    ∧ isJumpingDisallowed s1 = true
    ∧ isJumping (self s1) = true
    ∧ isDoubleJumping s1 = isJumping (self s) || isDoubleJumping s
    ∧ canDoubleJump s1 = canDoubleJump s
    ∧ scheduled s1
      = scheduled s ++ [(ClearJumpingDisallowed, kJumpLockDuration)]
    ∧ impulses b1
      = impulses b ++ [(0%float, jumpHeight (characterProfile (self s)))]
    ∧ linearVelocity b1
      = (if isJumping (self s) then (fst (linearVelocity b), 0%float)
         else linearVelocity b)
    ∧ characterProfile (self s1) = characterProfile (self s).
Proof.
  intros Hfree Hb. unfold jump. fold (jumpBlocked s). rewrite Hfree.
  unfold upd_self. rewrite runAnimation_JUMPING.
  unfold GetLinearVelocity, SetLinearVelocity, ApplyLinearImpulseToCenter,
    isJumping.
  destruct (f_isJumping (flags (self s))) eqn:Hj; cbn.
  - rewrite Hb. cbn.
    eexists _, _. split; [reflexivity|]. cbn. by repeat split.
  - rewrite Hb. cbn.
    eexists _, _. split; [reflexivity|]. cbn. by repeat split.
Qed.

(** X22.  A jump that is carried out raises the jump lock, schedules its
    release after 0.2 seconds, marks the character as jumping (as double
    jumping when it was in mid-air, its vertical velocity being reset
    first) and hands the body the impulse [(0, jumpHeight)].  A jump that
    is blocked changes nothing.  Either way a jump repeated at once changes
    nothing: the lock is raised, or the first one was blocked already. *)
Theorem jump_raises_lock (s s1 : Mover) (b : Body) :
  body (physics (self s)) = Some b →
  jump s = Some s1 →
  jump s1 = Some s1
  ∧ (jumpBlocked s = true → s1 = s)
  ∧ (jumpBlocked s = false →
     ∃ b1 : Body,
       body (physics (self s1)) = Some b1
       ∧ isJumpingDisallowed s1 = true
       ∧ isJumping (self s1) = true
       ∧ isDoubleJumping s1 = isJumping (self s) || isDoubleJumping s
       ∧ scheduled s1
         = scheduled s ++ [(ClearJumpingDisallowed, kJumpLockDuration)]
       ∧ impulses b1
         = impulses b ++ [(0%float, jumpHeight (characterProfile (self s)))]
       ∧ linearVelocity b1
         = (if isJumping (self s) then (fst (linearVelocity b), 0%float)
            else linearVelocity b)).
Proof.
  intros Hb Hrun. destruct (jumpBlocked s) eqn:Hblocked.
  - rewrite jump_blocked in Hrun by done. injection Hrun as <-.
    split; [by apply jump_blocked|]. split; [done|]. intros [=].
  - destruct (jump_carried_out s b Hblocked Hb)
      as (s1' & b1 & Hrun' & Hb1 & Hlock & Hj & Hdj & _ & Hsch & Himp & Hv & _).
    rewrite Hrun in Hrun'. injection Hrun' as <-.
    split.
    + apply jump_blocked. unfold jumpBlocked. by rewrite Hlock.
    + split; [intros [=]|]. intros _. by exists b1.
Qed.

Lemma jump_raises_lock_witness :
  ∃ s1 : Mover,
    jump (exMover false false (0%float, 0%float)) = Some s1
    ∧ jump s1 = Some s1
    ∧ isJumpingDisallowed s1 = true.
Proof.
  destruct (jump (exMover false false (0%float, 0%float))) as [s1|] eqn:Hrun;
    [|vm_compute in Hrun; discriminate].
  destruct (jump_raises_lock (exMover false false (0%float, 0%float)) s1
              (set_linearVelocity (0%float, 0%float) (exBody 1%nat 0%float))
              eq_refl Hrun) as (H1 & _ & H2).
  destruct (H2 eq_refl) as (b1 & _ & Hlock & _).
  by exists s1.
Defined.

Lemma runMove_canDoubleJump (mv : Move) (s s' : Mover) :
  runMove mv s = Some s' →
  canDoubleJump s' = canDoubleJump s
  ∧ (isDoubleJumping s' = true →
     isDoubleJumping s = true
     ∨ (canDoubleJump s = true ∧ isJumping (self s) = true)).
Proof.
  assert (Hjump : ∀ s0 s0' : Mover, jump s0 = Some s0' →
            canDoubleJump s0' = canDoubleJump s0
            ∧ (isDoubleJumping s0' = true →
               isDoubleJumping s0 = true
               ∨ (canDoubleJump s0 = true ∧ isJumping (self s0) = true))).
  { intros s0 s0'. unfold jump.
    destruct (isJumpingDisallowed s0); cbn; [intros [= <-]; auto|].
    destruct (canDoubleJump s0) eqn:Hcan; cbn.
    - destruct (isDoubleJumping s0) eqn:Hdj; cbn; [intros [= <-]; auto|].
      destruct (isJumping (self s0)) eqn:Hj; cbn.
      + destruct (GetLinearVelocity _) as [v|]; [|done]. cbn.
        destruct (SetLinearVelocity _ _) as [c|]; [|done]. cbn.
        destruct (ApplyLinearImpulseToCenter _ _) as [c'|]; [|done]. cbn.
        intros [= <-]. cbn. auto.
      + destruct (ApplyLinearImpulseToCenter _ _) as [c'|]; [|done]. cbn.
        intros [= <-]. cbn. split; [done|]. intros Hd. congruence.
    - destruct (isJumping (self s0)) eqn:Hj; cbn; [intros [= <-]; auto|].
      destruct (ApplyLinearImpulseToCenter _ _) as [c'|]; [|done]. cbn.
      intros [= <-]. cbn. auto. }
  destruct mv as [| | | | |cl]; cbn.
  - apply Hjump.
  - unfold doubleJump. destruct (jump s) as [s1|] eqn:Hj; [|done]. cbn.
    intros [= <-]. cbn. by apply Hjump.
  - unfold jumpDown. destruct (isOnPlatform s); cbn; [|intros [= <-]; auto].
    destruct (SetSensor _ _ _) as [c|]; [|done]. cbn. intros [= <-]. auto.
  - unfold onFallToGroundOrPlatform.
    destruct (GetLinearVelocity _) as [v|]; [|done]. cbn.
    intros [= <-].
    destruct (PrimFloat.ltb _ _); cbn;
      match goal with |- context [getSfxFileName ?a ?b] =>
        destruct (getSfxFileName a b) end; cbn; auto.
  - unfold maybeOverrideCurrentStateWithStopRunningState.
    destruct (GetLinearVelocity _) as [v|]; [|done]. cbn.
    repeat (match goal with |- context [if ?x then _ else _] =>
              destruct x end); intros [= <-]; cbn; auto.
  - destruct cl; cbn; try (intros [= <-]; cbn; by auto).
    + apply Hjump.
    + destruct (SetSensor _ _ _) as [c|]; [|done]. cbn. intros [= <-]. auto.
Qed.

(** X23.  A character that cannot double jump never double jumps: if the
    double-jumping flag of a mover implies that it can double jump, this
    still holds after any sequence of jumps, double jumps, jumps down,
    landings, stop-running checks and callback firings that returns, and
    the ability itself does not change. *)
Theorem double_jump_needs_ability (mvs : list Move) (s s' : Mover) :
  (isDoubleJumping s = true → canDoubleJump s = true) →
  runMoves mvs s = Some s' →
  canDoubleJump s' = canDoubleJump s
  ∧ (isDoubleJumping s' = true → canDoubleJump s' = true).
Proof.
  revert s. induction mvs as [|mv mvs IH]; intros s Hinv.
  - by intros [= <-].
  - cbn. destruct (runMove mv s) as [s1|] eqn:Hmv; [|done]. cbn. intros Hrun.
    destruct (runMove_canDoubleJump mv s s1 Hmv) as [Hcan Hdj].
    destruct (IH s1) as [Hcan' Hinv']; [|done|].
    + rewrite Hcan. intros Hd. destruct (Hdj Hd) as [?|[? _]]; auto.
    + split; [congruence|done].
Qed.

Lemma double_jump_needs_ability_witness :
  ∃ s' : Mover,
    runMoves [DoDoubleJump; DoFire ClearJumpingDisallowed; DoFire JumpAgain]
      (exMover false false (0%float, 0%float)) = Some s'
    ∧ canDoubleJump s' = false
    ∧ (isDoubleJumping s' = true → canDoubleJump s' = true).
Proof.
  destruct (runMoves [DoDoubleJump; DoFire ClearJumpingDisallowed;
                      DoFire JumpAgain] (exMover false false (0%float, 0%float)))
    as [s'|] eqn:Hrun; [|vm_compute in Hrun; discriminate].
  assert (Hinv : isDoubleJumping (exMover false false (0%float, 0%float)) = true →
                 canDoubleJump (exMover false false (0%float, 0%float)) = true)
    by (cbn; discriminate).
  destruct (double_jump_needs_ability _ _ s' Hinv Hrun) as [H1 H2].
  exists s'. split; [reflexivity|]. by split.
Defined.

(** X24.  [doubleJump] from the ground, followed by the two callbacks in
    the order of their delays (the lock release after 0.2 seconds, the
    deferred jump after 0.25): a character that can double jump jumps
    twice, its vertical velocity being reset before the second impulse,
    and ends double jumping with the lock raised again; one that cannot
    jumps once, the deferred jump being blocked because it is in mid-air.
    Fired before the lock release, the deferred jump is blocked for
    both. *)
Theorem doubleJump_from_ground (s : Mover) (b : Body) :
  body (physics (self s)) = Some b →
  isJumpingDisallowed s = false →
  isJumping (self s) = false →
  isDoubleJumping s = false →
  let impulse := (0%float, jumpHeight (characterProfile (self s))) in
  (∃ (s3 : Mover) (b3 : Body),
     runMoves [DoDoubleJump; DoFire ClearJumpingDisallowed; DoFire JumpAgain] s
     = Some s3
     ∧ body (physics (self s3)) = Some b3
     ∧ isJumping (self s3) = true
     ∧ isDoubleJumping s3 = canDoubleJump s
     ∧ isJumpingDisallowed s3 = canDoubleJump s
     ∧ impulses b3
       = impulses b ++ impulse :: (if canDoubleJump s then [impulse] else [])
     ∧ linearVelocity b3
       = (if canDoubleJump s then (fst (linearVelocity b), 0%float)
          else linearVelocity b))
  ∧ (∃ (s2 : Mover) (b2 : Body),
       runMoves [DoDoubleJump; DoFire JumpAgain] s = Some s2
       ∧ body (physics (self s2)) = Some b2
       ∧ isDoubleJumping s2 = false
       ∧ impulses b2 = impulses b ++ [impulse]).
Proof.
  intros Hb Hlock Hj Hdj impulse. subst impulse.
  assert (Hfree : jumpBlocked s = false).
  { unfold jumpBlocked. rewrite Hlock, Hj, Hdj.
    by destruct (canDoubleJump s). }
  destruct (jump_carried_out s b Hfree Hb)
    as (s1 & b1 & Hrun1 & Hb1 & Hlock1 & Hj1 & Hdj1 & Hcan1 & Hsch1 & Himp1
        & Hv1 & Hp1).
  rewrite Hj, Hdj in Hdj1. cbn in Hdj1. rewrite Hj in Hv1.
  split.
  - cbn. unfold doubleJump. rewrite Hrun1. cbn.
    set (s2 := set_isJumpingDisallowed false (schedule JumpAgain _ s1)).
    destruct (canDoubleJump s) eqn:Hcan.
    + destruct (jump_carried_out s2 b1) as (s3 & b3 & Hrun3 & Hb3 & Hlock3
        & Hj3 & Hdj3 & _ & _ & Himp3 & Hv3 & _).
      { unfold jumpBlocked. subst s2. cbn. by rewrite Hcan1, Hdj1. }
      { exact Hb1. }
      exists s3, b3. rewrite Hrun3. split; [reflexivity|].
      split; [exact Hb3|]. split; [exact Hj3|].
      subst s2. cbn in Hdj3, Himp3, Hv3.
      rewrite Hj1 in Hdj3, Hv3. rewrite Hp1 in Himp3.
      split; [exact Hdj3|]. split; [exact Hlock3|].
      split; [by rewrite Himp3, Himp1, <- app_assoc|].
      by rewrite Hv3, Hv1.
    + exists s2, b1. rewrite jump_blocked.
      2:{ unfold jumpBlocked. subst s2. cbn. by rewrite Hcan1, Hj1. }
      split; [reflexivity|]. subst s2. cbn.
      split; [exact Hb1|]. split; [exact Hj1|]. split; [exact Hdj1|].
      split; [reflexivity|]. split; [exact Himp1|exact Hv1].
  - cbn. unfold doubleJump. rewrite Hrun1. cbn.
    rewrite jump_blocked by (unfold jumpBlocked; cbn; by rewrite Hlock1).
    eexists _, b1. split; [reflexivity|]. cbn.
    split; [exact Hb1|]. split; [exact Hdj1|exact Himp1].
Qed.

Lemma doubleJump_from_ground_witness :
  ∃ (s3 : Mover) (b3 : Body),
    runMoves [DoDoubleJump; DoFire ClearJumpingDisallowed; DoFire JumpAgain]
      (exMover true false (1%float, 2%float)) = Some s3
    ∧ body (physics (self s3)) = Some b3
    ∧ isDoubleJumping s3 = true
    ∧ impulses b3 = [(0%float, 3%float); (0%float, 3%float)]
    ∧ linearVelocity b3 = (1%float, 0%float).
Proof.
  destruct (doubleJump_from_ground (exMover true false (1%float, 2%float))
              (set_linearVelocity (1%float, 2%float) (exBody 1%nat 0%float))
              eq_refl eq_refl eq_refl eq_refl)
    as [(s3 & b3 & H1 & H2 & _ & H3 & _ & H4 & H5) _].
  exists s3, b3. by repeat split.
Defined.

Lemma clear_getting_up (c : Character) :
  f_isGettingUpFromFalling (flags c) = false →
  upd_flags (set_f_isGettingUpFromFalling false)
    (upd_flags (set_f_isGettingUpFromFalling true) c) = c.
Proof. destruct c as [p [] o sp ph t bg]. cbn. by intros ->. Qed.

(** X25.  Landing.  A landing with a vertical velocity below -4.5 makes
    the character get up from falling: the flag is raised, its release is
    scheduled after the duration of the FALLING_GETUP animation, and
    [determineState] answers FALLING_GETUP unless the character is set to
    be killed; when the release fires, a character that was not getting up
    before is as it was before the landing.  A softer landing leaves flags
    and callbacks alone.  In both cases the jump sound is played exactly
    when the profile names a file for it. *)
Theorem landing_gets_up_when_hard (s : Mover) (v : b2Vec2) :
  GetLinearVelocity (self s) = Some v →
  let hard := PrimFloat.ltb (snd v) kHardLandingVelocityY in
  let sfxFileName := sfxFileNames (characterProfile (self s)) SFX_JUMP in
  ∃ s1 s2 : Mover,
    onFallToGroundOrPlatform s = Some s1
    ∧ played s1
      = played s ++ (if (0 <? String.length sfxFileName)%nat
                     then [sfxFileName] else [])
    ∧ scheduled s1
      = scheduled s
        ++ (if hard
            then [(ClearGettingUpFromFalling,
                   bodyAnimationDuration (sprite (self s)) FALLING_GETUP)]
            else [])
    ∧ (hard = false → self s1 = self s)
    ∧ (hard = true →
       f_isGettingUpFromFalling (flags (self s1)) = true
       ∧ determineState (self s1)
         = Some (if isSetToKill (self s) then KILLED else FALLING_GETUP))
    ∧ fire ClearGettingUpFromFalling s1 = Some s2
    ∧ (f_isGettingUpFromFalling (flags (self s)) = false →
       self s2 = self s).
Proof.
  intros Hv hard sfxFileName. unfold onFallToGroundOrPlatform.
  rewrite Hv. cbn. fold hard.
  assert (Hclear : f_isGettingUpFromFalling (flags (self s)) = false →
            upd_flags (set_f_isGettingUpFromFalling false) (self s) = self s).
  { destruct (self s) as [p [] o sp ph t bg]. cbn. by intros ->. }
  unfold getSfxFileName.
  destruct hard eqn:Hhard; cbn; fold sfxFileName;
    destruct (String.length sfxFileName); cbn;
    (eexists _, _; split; [reflexivity|]); cbn;
    repeat split; rewrite ?app_nil_r; try done;
    try apply clear_getting_up.
  all: unfold determineState, isSetToKill; cbn;
    by destruct (f_isSetToKill (flags (self s))).
Qed.

Lemma landing_gets_up_when_hard_witness :
  ∃ s1 : Mover,
    onFallToGroundOrPlatform (exMover false false (0%float, (-5)%float)) = Some s1
    ∧ determineState (self s1) = Some FALLING_GETUP
    ∧ scheduled s1 = [(ClearGettingUpFromFalling, 0.5%float)].
Proof.
  destruct (landing_gets_up_when_hard (exMover false false (0%float, (-5)%float))
              (0%float, (-5)%float) eq_refl)
    as (s1 & s2 & Hrun & _ & Hsch & _ & Hhard & _).
  exists s1. split; [exact Hrun|].
  destruct (Hhard eq_refl) as [_ Hst]. split; [exact Hst|exact Hsch].
Defined.

Lemma eqb_zero_ltb (x : float) :
  PrimFloat.eqb x 0%float = true →
  PrimFloat.ltb 0%float x = false ∧ PrimFloat.ltb x 0%float = false.
Proof.
  rewrite FloatAxioms.eqb_spec, !FloatAxioms.ltb_spec.
  change (Prim2SF 0%float) with (SpecFloat.S754_zero false).
  destruct (Prim2SF x) as [sg|sg| |sg m e]; cbn;
    try discriminate; try destruct sg; cbn; auto; try discriminate.
Qed.

Lemma determineState_stopRunning (c : Character) :
  f_isAttacking (flags c) = false →
  determineState c = Some IDLE →
  determineState (upd_flags (set_f_isStopRunning true) c) = Some RUNNING_STOP
  ∧ determineState
      (upd_flags (set_f_isStopRunning false)
         (upd_flags (set_f_isStopRunning true) c))
    = Some IDLE.
Proof.
  destruct c as [p [] o sp ph t bg]. unfold determineState, GetLinearVelocity.
  cbn. intros ->.
  destruct (body ph) as [b|]; cbn;
    repeat match goal with
           | |- context [if ?x then _ else _] => destruct x; cbn
           end; try done.
Qed.

(** X26.  The stop-running check.  Whatever the move speed of the profile
    (the test on it changes nothing), [stopRunning] is called exactly when
    the horizontal speed fell from at least .01 to below .01 while the
    character still moves the way it faces.  A character whose horizontal
    velocity is zero is therefore never put into the stop-running state.
    When [stopRunning] is called, a character that [determineState] called
    IDLE and that does not attack is called RUNNING_STOP, and IDLE again
    once the scheduled release has fired. *)
Theorem stop_running_needs_forward_motion (s : Mover) (v : b2Vec2) :
  GetLinearVelocity (self s) = Some v →
  let slowedDown :=
    PrimFloat.leb kRunningVelocityX (PrimFloat.abs (fst (previousBodyVelocity s)))
    && PrimFloat.ltb (PrimFloat.abs (fst v)) kRunningVelocityX in
  let forward :=
    if isFacingRight (self s) then PrimFloat.ltb 0%float (fst v)
    else PrimFloat.ltb (fst v) 0%float in
  ∃ s1 : Mover,
    maybeOverrideCurrentStateWithStopRunningState s = Some s1
    ∧ s1 = (if slowedDown && forward then stopRunning s else s)
    ∧ (PrimFloat.eqb (fst v) 0%float = true → s1 = s)
    ∧ (slowedDown && forward = true →
       f_isAttacking (flags (self s)) = false →
       determineState (self s) = Some IDLE →
       determineState (self s1) = Some RUNNING_STOP
       ∧ ∃ s2 : Mover,
           fire ClearStopRunning s1 = Some s2
           ∧ determineState (self s2) = Some IDLE).
Proof.
  intros Hv slowedDown forward.
  unfold maybeOverrideCurrentStateWithStopRunningState. rewrite Hv. cbn.
  assert (Hforward :
    isFacingRight (self s) && PrimFloat.ltb 0%float (fst v)
    || negb (isFacingRight (self s)) && PrimFloat.ltb (fst v) 0%float
    = forward).
  { subst forward. destruct (isFacingRight (self s)); cbn; [|done].
    by rewrite orb_false_r. }
  assert (Hsame :
    (if PrimFloat.leb
          (PrimFloat.mul (moveSpeed (characterProfile (self s))) 4%float)
          (PrimFloat.abs (fst v))
     then true else true) = true)
    by (match goal with |- (if ?c then _ else _) = _ => by destruct c end).
  rewrite Hsame. cbn. rewrite Hforward. fold slowedDown.
  exists (if slowedDown && forward then stopRunning s else s).
  split.
  { assert (Hif : ∀ t : bool,
              (if t then Some (stopRunning s) else Some s)
              = Some (if t then stopRunning s else s)) by (by intros []).
    exact (Hif (slowedDown && forward)). }
  split; [done|]. split.
  - intros Hzero. destruct (eqb_zero_ltb _ Hzero) as [H1 H2].
    subst forward. rewrite H1, H2.
    destruct (isFacingRight (self s)); by rewrite andb_false_r.
  - intros -> Hatk Hidle.
    destruct (determineState_stopRunning _ Hatk Hidle) as [Hstop Hclear].
    split; [exact Hstop|]. eexists. split; [reflexivity|]. exact Hclear.
Qed.

Lemma stop_running_needs_forward_motion_witness :
  ∃ s1 : Mover,
    maybeOverrideCurrentStateWithStopRunningState
      (exMover false false (0%float, 0%float)) = Some s1
    ∧ s1 = exMover false false (0%float, 0%float).
Proof.
  destruct (stop_running_needs_forward_motion
              (exMover false false (0%float, 0%float)) (0%float, 0%float) eq_refl)
    as (s1 & Hrun & _ & Hzero & _).
  exists s1. split; [exact Hrun|]. by apply Hzero.
Defined.

Lemma set_isSensor_id (fx : Fixture) :
  isSensor fx = false → set_isSensor false fx = fx.
Proof. destruct fx. cbn. by intros ->. Qed.

(** X27.  Jumping down.  Off a platform [jumpDown] does nothing.  On a
    platform it turns the feet fixture into a sensor, touching no other
    fixture, and schedules after a quarter of a second the callback that
    turns it back; after that callback the fixtures of a character whose
    feet were no sensor are what they were before. *)
Theorem jumpDown_opens_feet (s : Mover) (b : Body) (f : ptr) (fx : Fixture) :
  body (physics (self s)) = Some b →
  fixtures (physics (self s)) FEET = Some f →
  fixtureList b !! f = Some fx →
  (isOnPlatform s = false → jumpDown s = Some s)
  ∧ (isOnPlatform s = true →
     ∃ (s1 s2 : Mover) (b1 b2 : Body),
       jumpDown s = Some s1
       ∧ scheduled s1 = scheduled s ++ [(ClearFeetSensor, kQuarterSecond)]
       ∧ body (physics (self s1)) = Some b1
       ∧ fixtureList b1 = <[f := set_isSensor true fx]> (fixtureList b)
       ∧ fire ClearFeetSensor s1 = Some s2
       ∧ body (physics (self s2)) = Some b2
       ∧ fixtureList b2 = <[f := set_isSensor false fx]> (fixtureList b)
       ∧ (isSensor fx = false → fixtureList b2 = fixtureList b)
       ∧ scheduled s2 = scheduled s1).
Proof.
  intros Hb Hf Hfx. unfold jumpDown. split; intros ->; cbn; [done|].
  unfold SetSensor. rewrite Hf, Hb. cbn. rewrite Hfx. cbn.
  eexists _, _, _, _. split; [reflexivity|]. cbn.
  split; [done|]. split; [reflexivity|]. cbn. split; [done|].
  unfold SetSensor. cbn. rewrite Hf. cbn. rewrite lookup_insert_eq. cbn.
  split; [reflexivity|]. cbn. split; [reflexivity|]. cbn.
  rewrite insert_insert_eq. split; [done|]. split; [|done].
  intros Hs.
  change (set_isSensor false (set_isSensor true fx))
    with (set_isSensor false fx).
  rewrite set_isSensor_id by done. by apply insert_id.
Qed.

Lemma jumpDown_opens_feet_witness :
  ∃ (s1 s2 : Mover) (b2 : Body),
    jumpDown (exMover false true (0%float, 0%float)) = Some s1
    ∧ scheduled s1 = [(ClearFeetSensor, kQuarterSecond)]
    ∧ fire ClearFeetSensor s1 = Some s2
    ∧ body (physics (self s2)) = Some b2
    ∧ isSensor <$> fixtureList b2 !! 1%nat = Some false.
Proof.
  assert (Hfx : fixtureList
                  (set_linearVelocity (0%float, 0%float) (exBody 1%nat 0%float))
                !! 1%nat = Some (exFixture FeetCircle 4 7 1%nat))
    by (vm_compute; reflexivity).
  destruct (proj2 (jumpDown_opens_feet (exMover false true (0%float, 0%float))
                     (set_linearVelocity (0%float, 0%float)
                        (exBody 1%nat 0%float))
                     1%nat (exFixture FeetCircle 4 7 1%nat)
                     eq_refl eq_refl Hfx) eq_refl)
    as (s1 & s2 & b1 & b2 & Hrun & Hsch & _ & _ & Hfire & Hb2 & Hfl & _).
  exists s1, s2, b2. repeat split; try done.
  rewrite Hfl. by rewrite lookup_insert_eq.
Defined.
